(** * Armory scene exporter: a shallow embedding of [blender/arm/exporter.py]

    The development follows the exporter's own decomposition:
    - [Anim]   : animation-curve classification and the presence tests;
    - [Sample] : the full-matrix sampled-animation exporters, which seek the
                 scene's frame and therefore thread the scene as state;
    - [Weld]   : de-indexing of a mesh and the hash-bucket vertex welding;
    - [Fast]   : the array-filling loop of the fast mesh path;
    - [Skin]   : the per-vertex bone-influence packer.

    Python [float] is IEEE binary64 and is modelled by Rocq's primitive
    floats, Python [int] by [Z] (or [nat]/[N] where the value is a length or
    an index), Python lists by [list] with stdpp's lookup and insert, and an
    exception raised by an out-of-range subscript or by a host call by
    [None]. *)

From Stdlib Require Import ZArith NArith List String Bool Lia.
From Stdlib Require Import Floats.PrimFloat.
From Stdlib Require Floats.SpecFloat Floats.FloatOps.
From Equations Require Import Equations.
From stdpp Require Import base option list.

#[local] Set Warnings "-inexact-float,-register-all".
#[local] Open Scope Z_scope.

(** ** Constants of the module header *)

Definition AnimationTypeSampled : Z := 0.
Definition AnimationTypeLinear : Z := 1.
Definition AnimationTypeBezier : Z := 2.
Definition ExportEpsilon : float := 1.0e-6%float.

(** [int * float] first converts the integer to the nearest binary64
    number, ties to even. From 2^1024 on Python raises [OverflowError] where
    this gives infinity; frame numbers are C ints of the host. *)
Definition float_of_Z (z : Z) : float :=
  FloatOps.SF2Prim
    (SpecFloat.binary_normalize FloatOps.prec FloatOps.emax z 0 false).

(** [int(x)] on a float: truncation towards zero; [None] where Python raises
    ([ValueError] on NaN, [OverflowError] on an infinity). *)
Definition int_of_float (x : float) : option Z :=
  match FloatOps.Prim2SF x with
  | SpecFloat.S754_zero _ => Some 0
  | SpecFloat.S754_finite sign m e =>
      let magnitude :=
        if 0 <=? e then Z.shiftl (Z.pos m) e else Z.shiftr (Z.pos m) (- e) in
      Some (if sign then - magnitude else magnitude)
  | _ => None
  end.

(** [range(a, b)] *)
Definition range (a b : Z) : list Z :=
  map (fun k => a + Z.of_nat k) (seq 0 (Z.to_nat (b - a))).

(** ** Animation curves *)

Module Anim.

(** A keyframe as the host exposes it: [co], [handle_left] and
    [handle_right] are (time, value) pairs, [interpolation] a mode name. *)
Record Keyframe := {
  co : float * float;
  handle_left : float * float;
  handle_right : float * float;
  interpolation : string;
}.

Record FCurve := {
  keyframe_points : list Keyframe;
}.

(** The [for] loop of [classify_animation_curve]; [None] is the early
    [return AnimationTypeSampled] from inside the loop. *)
Fixpoint classify_loop (keys : list Keyframe) (linear_count bezier_count : Z)
  : option (Z * Z) :=
  match keys with
  | [] => Some (linear_count, bezier_count)
  | key :: keys' =>
      let interp := interpolation key in
      if String.eqb interp "LINEAR" then
        classify_loop keys' (linear_count + 1) bezier_count
      else if String.eqb interp "BEZIER" then
        classify_loop keys' linear_count (bezier_count + 1)
      else None
  end.

Definition classify_animation_curve (fcurve : FCurve) : Z :=
  match classify_loop (keyframe_points fcurve) 0 0 with
  | None => AnimationTypeSampled
  | Some (linear_count, bezier_count) =>
      if bezier_count =? 0 then AnimationTypeLinear
      else if linear_count =? 0 then AnimationTypeBezier
      else AnimationTypeSampled
  end.

(** [math.fabs(a - b) > ExportEpsilon] *)
Definition exceeds_epsilon (a b : float) : bool :=
  PrimFloat.ltb ExportEpsilon (PrimFloat.abs (PrimFloat.sub a b)).

(** The loop [for i in range(1, key_count)] of [animation_keys_different]:
    [key1] is bound once, before the loop, and every later key is compared
    with it. *)
Fixpoint keys_different_loop (key1 : float) (rest : list Keyframe) : bool :=
  match rest with
  | [] => false
  | k :: rest' =>
      let key2 := snd (co k) in
      if exceeds_epsilon key2 key1 then true
      else keys_different_loop key1 rest'
  end.

Definition animation_keys_different (fcurve : FCurve) : bool :=
  match keyframe_points fcurve with
  | [] => false
  | k0 :: rest => keys_different_loop (snd (co k0)) rest
  end.

Definition tangent_nonzero (k : Keyframe) : bool :=
  let key := snd (co k) in
  let left := snd (handle_left k) in
  let right := snd (handle_right k) in
  exceeds_epsilon key left || exceeds_epsilon right key.

Fixpoint tangents_nonzero_loop (rest : list Keyframe) : bool :=
  match rest with
  | [] => false
  | k :: rest' => if tangent_nonzero k then true else tangents_nonzero_loop rest'
  end.

Definition animation_tangents_nonzero (fcurve : FCurve) : bool :=
  match keyframe_points fcurve with
  | [] => false
  | k0 :: rest => if tangent_nonzero k0 then true else tangents_nonzero_loop rest
  end.

Definition animation_present (fcurve : FCurve) (kind : Z) : bool :=
  if negb (kind =? AnimationTypeBezier) then animation_keys_different fcurve
  else animation_keys_different fcurve || animation_tangents_nonzero fcurve.

(** The classification rule as the specification words it, over the
    sequence of interpolation modes. *)
Definition is_linear (m : string) : bool := String.eqb m "LINEAR".
Definition is_bezier (m : string) : bool := String.eqb m "BEZIER".

Definition classify_spec (modes : list string) : Z :=
  if existsb (fun m => negb (is_linear m) && negb (is_bezier m)) modes
  then AnimationTypeSampled
  else if (length (filter (fun m => is_bezier m = true) modes) =? 0)%nat
  then AnimationTypeLinear
  else if (length (filter (fun m => is_linear m = true) modes) =? 0)%nat
  then AnimationTypeBezier
  else AnimationTypeSampled.

(** Two readings of "the keyframe values change": some key differs from
    its predecessor by more than the epsilon, or some key differs from the
    first key by more than the epsilon. *)
Definition successive_keys_differ (fcurve : FCurve) : Prop :=
  exists (i : nat) (k1 k2 : Keyframe),
    keyframe_points fcurve !! i = Some k1 /\
    keyframe_points fcurve !! S i = Some k2 /\
    exceeds_epsilon (snd (co k2)) (snd (co k1)) = true.

Definition key_differs_from_first (fcurve : FCurve) : Prop :=
  exists (i : nat) (k0 k : Keyframe),
    keyframe_points fcurve !! 0%nat = Some k0 /\
    keyframe_points fcurve !! S i = Some k /\
    exceeds_epsilon (snd (co k)) (snd (co k0)) = true.

(** A keyframe holding only a value, for worked examples. *)
Definition key_at (mode : string) (v : float) : Keyframe :=
  {| co := (0%float, v); handle_left := (0%float, v);
     handle_right := (0%float, v); interpolation := mode |}.

(** The curve with values 0, 2^-20, 2^-19: each step is 2^-20, below the
    epsilon, while the last key is 2^-19 away from the first. *)
Definition slow_ramp : FCurve :=
  {| keyframe_points :=
       [key_at "LINEAR" 0%float; key_at "LINEAR" 0x1p-20%float;
        key_at "LINEAR" 0x1p-19%float] |}.

End Anim.

(** ** Sampled (full-matrix) animation export *)

Module Sample.

(** The part of the host scene the exporters touch: the frame cursor. *)
Record Scene := {
  frame_current : Z;
  frame_subframe : float;
}.

(** A host 4x4 matrix, read as [matrix[i][j]]. *)
Definition Matrix := nat -> nat -> float.

Definition write_matrix (matrix : Matrix) : list float :=
  [matrix 0 0; matrix 0 1; matrix 0 2; matrix 0 3;
   matrix 1 0; matrix 1 1; matrix 1 2; matrix 1 3;
   matrix 2 0; matrix 2 1; matrix 2 2; matrix 2 3;
   matrix 3 0; matrix 3 1; matrix 3 2; matrix 3 3]%nat.

(** Two nested [range(4)] loops that return [True] at the first entry that
    differs by more than the epsilon. *)
Definition matrices_different (m1 m2 : Matrix) : bool :=
  existsb (fun i =>
    existsb (fun j => Anim.exceeds_epsilon (m1 i j) (m2 i j)) (seq 0 4))
    (seq 0 4).

(** Scene-threading computations. *)
Definition M (A : Type) : Type := Scene -> A * Scene.
Definition ret {A} (a : A) : M A := fun s => (a, s).
Definition bind {A B} (m : M A) (k : A -> M B) : M B :=
  fun s => let (a, s') := m s in k a s'.
Definition get : M Scene := fun s => (s, s).

Declare Scope scene_scope.
Delimit Scope scene_scope with scene.
Notation "'do' x <- m ; k" := (bind m (fun x => k))
  (at level 10, x name, m at level 100, k at level 200) : scene_scope.
Notation "'run' m ; k" := (bind m (fun _ => k))
  (at level 10, m at level 100, k at level 200) : scene_scope.
#[local] Open Scope scene_scope.

(** Scene-threading computations that may raise: [None] is a raised
    exception, and the scene beside it is the scene as the raise left it.
    Nothing in the exporter catches an exception. *)
Definition E (A : Type) : Type := Scene -> option A * Scene.
Definition eret {A} (a : A) : E A := fun s => (Some a, s).
Definition ebind {A B} (m : E A) (k : A -> E B) : E B :=
  fun s => match m s with
           | (Some a, s') => k a s'
           | (None, s') => (None, s')
           end.
(** A computation that cannot raise. *)
Definition lift {A} (m : M A) : E A := fun s => let (a, s') := m s in (Some a, s').
(** A host call that answers or raises, leaving the scene alone. *)
Definition call {A} (f : Scene -> option A) : E A := fun s => (f s, s).

Notation "'doE' x <- m ; k" := (ebind m (fun x => k))
  (at level 10, x name, m at level 100, k at level 200) : scene_scope.
Notation "'runE' m ; k" := (ebind m (fun _ => k))
  (at level 10, m at level 100, k at level 200) : scene_scope.

(** [scene.frame_set(frame, subframe=0.0)] of the host. *)
Definition frame_set (frame : Z) (subframe : float) : M unit :=
  fun _ => (tt, {| frame_current := frame; frame_subframe := subframe |}).

(** The exporter fields set up once per run. *)
Record Exporter := {
  beginFrame : Z;
  endFrame : Z;
  frameTime : float;
}.

(** An object: its local matrix is evaluated by the host at the scene's
    current frame. *)
Record BObject := {
  matrix_local : Scene -> Matrix;
}.

(** A pose bone with its chain of parents. *)
Inductive PoseBone := {
  matrix : Scene -> Matrix;
  parent : option PoseBone;
}.

Record Action := {
  frame_range : float * float;
}.

(** One entry of [o['animation']['tracks']]. *)
Record Track := {
  target : string;
  times : list float;
  values : list float;
}.

(** Reading a frame-dependent matrix at the current scene state. *)
Definition eval (f : Scene -> Matrix) : M Matrix := fun s => (f s, s).

(** The detection loop: seek each frame, compare with [m1], stop at the
    first difference. *)
Fixpoint detect_animation (f : Scene -> Matrix) (m1 : Matrix) (frames : list Z)
  : M bool :=
  match frames with
  | [] => ret false
  | i :: frames' =>
      run frame_set i 0%float ;
      do m2 <- eval f ;
      if matrices_different m1 m2 then ret true
      else detect_animation f m1 frames'
  end.

(** The sampling loop: seek each frame and append the flattened matrix. *)
Fixpoint sample_frames (f : Scene -> Matrix) (frames : list Z) (acc : list float)
  : M (list float) :=
  match frames with
  | [] => ret acc
  | i :: frames' =>
      run frame_set i 0%float ;
      do m <- eval f ;
      sample_frames f frames' (acc ++ write_matrix m)
  end.

(** The [times] array: one entry per frame of [range(b, e)], then one more
    for the end frame. *)
Definition track_times (frameTime : float) (b e : Z) : list float :=
  map (fun i => PrimFloat.mul (float_of_Z (i - b)) frameTime) (range b e)
  ++ [PrimFloat.mul (float_of_Z e) frameTime].

Definition export_object_sampled_animation
    (self : Exporter) (bobject : BObject) : M (option Track) :=
  do s0 <- get ;
  let currentFrame := frame_current s0 in
  let currentSubframe := frame_subframe s0 in
  do m1 <- eval (matrix_local bobject) ;
  do animationFlag <-
    detect_animation (matrix_local bobject) m1
      (range (beginFrame self) (endFrame self)) ;
  do anim <-
    (if animationFlag : bool then
       let tracko_times :=
         track_times (frameTime self) (beginFrame self) (endFrame self) in
       do vals <- sample_frames (matrix_local bobject)
                 (range (beginFrame self) (endFrame self)) [] ;
       run frame_set (endFrame self) 0%float ;
       do m <- eval (matrix_local bobject) ;
       ret (Some {| target := "transform"; times := tracko_times;
                    values := vals ++ write_matrix m |})
     else ret None) ;
  run frame_set currentFrame currentSubframe ;
  ret anim.

Section Bone.

(** Host operations used by the bone exporter only: [int(x)] on a float,
    which raises on NaN and the infinities; [Matrix.inverted()], which
    raises [ValueError] on a matrix without an inverse; and the matrix
    product. [None] is the raise. *)
Variable py_int : float -> option Z.
Variable inverted : Matrix -> option Matrix.
Variable matmul : Matrix -> Matrix -> Matrix.

Definition get_action_framerange (self : Exporter) (action : Action)
  : option (Z * Z) :=
  begin_frame ← py_int (fst (frame_range action));
  end_frame ← py_int (snd (frame_range action));
  let begin_frame :=
    if begin_frame <? beginFrame self then beginFrame self else begin_frame in
  let end_frame :=
    if endFrame self <? end_frame then endFrame self else end_frame in
  Some (begin_frame, end_frame).

(** The matrix written for a bone at the current scene state:
    [parent.matrix.inverted() * poseBone.matrix] when there is a parent,
    [poseBone.matrix] otherwise. *)
Definition parent_relative (poseBone : PoseBone) (s : Scene) : option Matrix :=
  match parent poseBone with
  | Some p =>
      inverse ← inverted (matrix p s);
      Some (matmul inverse (matrix poseBone s))
  | None => Some (matrix poseBone s)
  end.

(** The sampling loop of the bone exporter: seek each frame and append the
    flattened matrix; a raise leaves the scene at the frame just set. *)
Fixpoint sample_bone_frames (poseBone : PoseBone) (frames : list Z)
    (acc : list float) : E (list float) :=
  match frames with
  | [] => eret acc
  | i :: frames' =>
      runE lift (frame_set i 0%float) ;
      doE m <- call (parent_relative poseBone) ;
      sample_bone_frames poseBone frames' (acc ++ write_matrix m)
  end.

Definition export_bone_sampled_animation
    (self : Exporter) (poseBone : PoseBone) (action : Action)
  : E (option Track) :=
  doE s0 <- lift get ;
  let currentFrame := frame_current s0 in
  let currentSubframe := frame_subframe s0 in
  doE framerange <- call (fun _ => get_action_framerange self action) ;
  let '(begin_frame, end_frame) := framerange in
  doE m1 <- lift (eval (matrix poseBone)) ;
  doE animationFlag <-
    lift (detect_animation (matrix poseBone) m1 (range begin_frame end_frame)) ;
  doE anim <-
    (if animationFlag : bool then
       let tracko_times := track_times (frameTime self) begin_frame end_frame in
       doE vals <- sample_bone_frames poseBone (range begin_frame end_frame) [] ;
       runE lift (frame_set end_frame 0%float) ;
       doE m <- call (parent_relative poseBone) ;
       eret (Some {| target := "transform"; times := tracko_times;
                     values := vals ++ write_matrix m |})
     else eret None) ;
  runE lift (frame_set currentFrame currentSubframe) ;
  eret anim.

End Bone.

(** The scene as [scene.frame_set(i)] leaves it. *)
Definition at_frame (i : Z) : Scene :=
  {| frame_current := i; frame_subframe := 0%float |}.

(** The part the two exporters share, from the detection loop on: the
    frame range [b, e), the matrix [watched] whose changes are looked for,
    the matrix [sampled] that is written, and the final [restore]. *)
Definition sampled_body (ft : float) (b e : Z) (watched sampled : Scene -> Matrix)
    (m1 : Matrix) (restore : M unit) : M (option Track) :=
  do animationFlag <- detect_animation watched m1 (range b e) ;
  do anim <-
    (if animationFlag : bool then
       do vals <- sample_frames sampled (range b e) [] ;
       run frame_set e 0%float ;
       do m <- eval sampled ;
       ret (Some {| target := "transform"; times := track_times ft b e;
                    values := vals ++ write_matrix m |})
     else ret None) ;
  run restore ;
  ret anim.

(** An object whose local matrix carries the current frame number in its
    first entry, and a timeline starting at frame 1. *)
Definition frame_counter : BObject :=
  {| matrix_local := fun s i j =>
       if (i =? 0)%nat && (j =? 0)%nat then float_of_Z (frame_current s)
       else 0%float |}.

Definition timeline_1_3 : Exporter :=
  {| beginFrame := 1; endFrame := 3; frameTime := 0.5%float |}.

(** Host matrices for a worked bone: the product of two 4x4 matrices, and
    [Matrix.inverted()] on diagonal matrices, the only ones the worked bone
    has: a diagonal matrix with a zero on its diagonal has no inverse. *)
Definition mat_mul (a b : Matrix) : Matrix :=
  fun i j =>
    PrimFloat.add
      (PrimFloat.add (PrimFloat.mul (a i 0%nat) (b 0%nat j))
         (PrimFloat.mul (a i 1%nat) (b 1%nat j)))
      (PrimFloat.add (PrimFloat.mul (a i 2%nat) (b 2%nat j))
         (PrimFloat.mul (a i 3%nat) (b 3%nat j))).

Definition diagonal_inverted (m : Matrix) : option Matrix :=
  if existsb (fun i => PrimFloat.eqb (m i i) 0%float) (seq 0 4) then None
  else Some (fun i j =>
               if (i =? j)%nat then PrimFloat.div 1%float (m i i) else 0%float).

(** A diagonal matrix scaling the three axes by [k]. *)
Definition scale_matrix (k : float) : Matrix :=
  fun i j =>
    if (i =? j)%nat then (if (i <? 3)%nat then k else 1%float) else 0%float.

(** A bone that grows with the frame number, under a parent whose scale
    is keyed to [frame - 2]: the parent is collapsed to zero scale at
    frame 2. The action runs over the frames 1 to 3. *)
Definition collapsing_bone : PoseBone :=
  {| matrix := fun s => scale_matrix (float_of_Z (frame_current s));
     parent :=
       Some {| matrix := fun s => scale_matrix (float_of_Z (frame_current s - 2));
               parent := None |} |}.

(** The same bone under a parent whose scale is the frame number, which
    is invertible on the frames 1 to 3. *)
Definition growing_bone : PoseBone :=
  {| matrix := fun s => scale_matrix (float_of_Z (frame_current s));
     parent :=
       Some {| matrix := fun s => scale_matrix (float_of_Z (frame_current s));
               parent := None |} |}.

Definition action_1_3 : Action :=
  {| frame_range := (1%float, 3%float) |}.

End Sample.

(** ** Geometry: de-indexing and welding *)

Module Weld.

Definition Vec3 : Type := float * float * float.
Definition UV : Type := float * float.

(** A mesh vertex of the host: [co] and the smooth [normal]. *)
Record MeshVertex := {
  v_co : Vec3;
  v_normal : Vec3;
}.

(** A tessellated face: 3 or 4 vertex indices. *)
Record Face := {
  f_vertices : list nat;
  f_use_smooth : bool;
  f_normal : Vec3;
  f_material_index : nat;
}.

Record ColorFace := { color1 : Vec3; color2 : Vec3; color3 : Vec3; color4 : Vec3 }.
Record UVFace := { uv1 : UV; uv2 : UV; uv3 : UV; uv4 : UV }.

Record Mesh := {
  vertices : list MeshVertex;
  tessfaces : list Face;
  tessface_vertex_colors : list (list ColorFace);
  tessface_uv_textures : list (list UVFace);
}.

(** [class ExportVertex]; [texcoord0] and [texcoord1] are two-element lists. *)
Record ExportVertex := {
  hash : Z;
  vertex_index : nat;
  face_index : nat;
  position : Vec3;
  normal : Vec3;
  color : Vec3;
  texcoord0 : UV;
  texcoord1 : UV;
}.

Definition set_hash (h : Z) (ev : ExportVertex) : ExportVertex :=
  {| hash := h; vertex_index := vertex_index ev; face_index := face_index ev;
     position := position ev; normal := normal ev; color := color ev;
     texcoord0 := texcoord0 ev; texcoord1 := texcoord1 ev |}.
Definition set_color (c : Vec3) (ev : ExportVertex) : ExportVertex :=
  {| hash := hash ev; vertex_index := vertex_index ev; face_index := face_index ev;
     position := position ev; normal := normal ev; color := c;
     texcoord0 := texcoord0 ev; texcoord1 := texcoord1 ev |}.
Definition set_texcoord0 (t : UV) (ev : ExportVertex) : ExportVertex :=
  {| hash := hash ev; vertex_index := vertex_index ev; face_index := face_index ev;
     position := position ev; normal := normal ev; color := color ev;
     texcoord0 := t; texcoord1 := texcoord1 ev |}.
Definition set_texcoord1 (t : UV) (ev : ExportVertex) : ExportVertex :=
  {| hash := hash ev; vertex_index := vertex_index ev; face_index := face_index ev;
     position := position ev; normal := normal ev; color := color ev;
     texcoord0 := texcoord0 ev; texcoord1 := t |}.

(** [[uv[0], 1.0 - uv[1]]]: the V coordinate is reversed on export. *)
Definition reverse_tcy (uv : UV) : UV :=
  (fst uv, PrimFloat.sub 1%float (snd uv)).

(** [!=] on two-element lists of floats: some component is not [==]. *)
Definition texcoord_ne (a b : UV) : bool :=
  negb (PrimFloat.eqb (fst a) (fst b) && PrimFloat.eqb (snd a) (snd b)).

(** *** The bucket count of [unify_vertices] *)

(** The [while True] loop: [count = bucketCount & (bucketCount - 1)] clears
    the lowest set bit; the loop stops when nothing is left to clear. It is
    entered only with [bucketCount > 1]. *)
Equations? round_down_pow2 (bucketCount : N) : N
  by wf (N.to_nat bucketCount) lt :=
  round_down_pow2 bucketCount
    with N.eq_dec (N.land bucketCount (bucketCount - 1)) 0%N := {
    | left _ => bucketCount
    | right _ => round_down_pow2 (N.land bucketCount (bucketCount - 1))%N }.
Proof.
  destruct (N.eq_dec bucketCount 0%N) as [->|Hpos]; [now destruct n|].
  pose proof (N.land_le_r bucketCount (bucketCount - 1)%N).
  lia.
Qed.

Definition bucket_count (vertex_count : nat) : N :=
  let bucketCount := N.shiftr (N.of_nat vertex_count) 3 in
  if (1 <? bucketCount)%N then round_down_pow2 bucketCount else 1%N.

Section Host.

(** What the host decides: Python's [hash] of a float, and [!=] on the
    host's vector and colour objects. *)
Variable pyhash : float -> Z.
Variable vector_ne : Vec3 -> Vec3 -> bool.
Variable color_ne : Vec3 -> Vec3 -> bool.

(** [ExportVertex.__eq__] *)
Definition ev_eq (self v : ExportVertex) : bool :=
  if negb (hash self =? hash v) then false
  else if vector_ne (position self) (position v) then false
  else if vector_ne (normal self) (normal v) then false
  else if texcoord_ne (texcoord0 self) (texcoord0 v) then false
  else if color_ne (color self) (color v) then false
  else if texcoord_ne (texcoord1 self) (texcoord1 v) then false
  else true.

(** [ExportVertex.Hash] *)
Definition Hash (self : ExportVertex) : ExportVertex :=
  let '(p0, p1, p2) := position self in
  let '(n0, n1, n2) := normal self in
  let '(c0, c1, c2) := color self in
  let h := pyhash p0 in
  let h := h * 21737 + pyhash p1 in
  let h := h * 21737 + pyhash p2 in
  let h := h * 21737 + pyhash n0 in
  let h := h * 21737 + pyhash n1 in
  let h := h * 21737 + pyhash n2 in
  let h := h * 21737 + pyhash c0 in
  let h := h * 21737 + pyhash c1 in
  let h := h * 21737 + pyhash c2 in
  let h := h * 21737 + pyhash (fst (texcoord0 self)) in
  let h := h * 21737 + pyhash (snd (texcoord0 self)) in
  let h := h * 21737 + pyhash (fst (texcoord1 self)) in
  let h := h * 21737 + pyhash (snd (texcoord1 self)) in
  set_hash h self.

(** *** [deindex_mesh] *)

(** One [ExportVertex()] for corner [slot] of [face]; the hash is filled
    in by the final pass. *)
Definition corner (vertexArray : list MeshVertex) (face : Face)
    (face_index slot : nat) : option ExportVertex :=
  k ← f_vertices face !! slot;
  v ← vertexArray !! k;
  Some {| hash := 0; vertex_index := k; face_index := face_index;
          position := v_co v;
          normal := if f_use_smooth face then v_normal v else f_normal face;
          color := (1, 1, 1)%float;
          texcoord0 := (0, 0)%float; texcoord1 := (0, 0)%float |}.

Definition triangle (vertexArray : list MeshVertex) (face : Face)
    (face_index a b c : nat) : option (list ExportVertex) :=
  e1 ← corner vertexArray face face_index a;
  e2 ← corner vertexArray face face_index b;
  e3 ← corner vertexArray face face_index c;
  Some [e1; e2; e3].

(** First loop over [mesh.tessfaces]: three vertices per face, and three
    more (corners 0, 2, 3) for a quad. *)
Fixpoint deindex_faces (vertexArray : list MeshVertex) (faces : list Face)
    (face_index : nat) (export_vertex_array : list ExportVertex)
    (material_table : list nat) : option (list ExportVertex * list nat) :=
  match faces with
  | [] => Some (export_vertex_array, material_table)
  | face :: faces' =>
      t1 ← triangle vertexArray face face_index 0 1 2;
      let eva := export_vertex_array ++ t1 in
      let mt := material_table ++ [f_material_index face] in
      r ← (if (length (f_vertices face) =? 4)%nat then
             t2 ← triangle vertexArray face face_index 0 2 3;
             Some (eva ++ t2, mt ++ [f_material_index face])
           else Some (eva, mt));
      deindex_faces vertexArray faces' (S face_index) r.1 r.2
  end.

(** [export_vertex_array[vertex_index].attr = a; vertex_index += 1],
    repeated for each value of [vals]. *)
Fixpoint assign_corners {A} (upd : A -> ExportVertex -> ExportVertex)
    (vals : list A) (vertex_index : nat) (eva : list ExportVertex)
  : option (list ExportVertex * nat) :=
  match vals with
  | [] => Some (eva, vertex_index)
  | a :: vals' =>
      ev ← eva !! vertex_index;
      assign_corners upd vals' (S vertex_index) (<[vertex_index := upd a ev]> eva)
  end.

(** The colour loop and the two texture-coordinate loops have one shape:
    walk the faces again with running [face_index] and [vertex_index],
    assign three values per face and three more for a quad. *)
Fixpoint paint_faces {D A} (first second : D -> list A)
    (upd : A -> ExportVertex -> ExportVertex)
    (faces : list Face) (data : list D) (face_index vertex_index : nat)
    (eva : list ExportVertex) : option (list ExportVertex) :=
  match faces with
  | [] => Some eva
  | face :: faces' =>
      d ← data !! face_index;
      r ← assign_corners upd (first d) vertex_index eva;
      r ← (if (length (f_vertices face) =? 4)%nat then
             assign_corners upd (second d) r.2 r.1
           else Some r);
      paint_faces first second upd faces' data (S face_index) r.2 r.1
  end.

Definition colors_first (cf : ColorFace) : list Vec3 :=
  [color1 cf; color2 cf; color3 cf].
Definition colors_second (cf : ColorFace) : list Vec3 :=
  [color1 cf; color3 cf; color4 cf].
Definition uvs_first (tf : UVFace) : list UV :=
  [reverse_tcy (uv1 tf); reverse_tcy (uv2 tf); reverse_tcy (uv3 tf)].
Definition uvs_second (tf : UVFace) : list UV :=
  [reverse_tcy (uv1 tf); reverse_tcy (uv3 tf); reverse_tcy (uv4 tf)].

Definition deindex_mesh (mesh : Mesh) (material_table : list nat)
  : option (list ExportVertex * list nat) :=
  r ← deindex_faces (vertices mesh) (tessfaces mesh) 0 [] material_table;
  let '(eva, material_table) := r in
  eva ← match tessface_vertex_colors mesh with
        | [] => Some eva
        | colorFace :: _ =>
            paint_faces colors_first colors_second set_color
              (tessfaces mesh) colorFace 0 0 eva
        end;
  eva ← match tessface_uv_textures mesh with
        | [] => Some eva
        | texcoordFace :: more =>
            eva ← paint_faces uvs_first uvs_second set_texcoord0
                    (tessfaces mesh) texcoordFace 0 0 eva;
            match more with
            | [] => Some eva
            | texcoordFace1 :: _ =>
                paint_faces uvs_first uvs_second set_texcoord1
                  (tessfaces mesh) texcoordFace1 0 0 eva
            end
        end;
  Some (map Hash eva, material_table).

(** *** [unify_vertices] *)

(** The three structures the loop grows. *)
Record Welder := {
  hashTable : list (list nat);
  unifiedVA : list ExportVertex;
  indexTable : list nat;
}.

(** The scan of one bucket: [Some (Some b)] is [index = b; break],
    [Some None] is [index] left at -1. *)
Fixpoint find_index (export_vertex_array : list ExportVertex)
    (ev : ExportVertex) (chain : list nat) : option (option nat) :=
  match chain with
  | [] => Some None
  | b :: chain' =>
      u ← export_vertex_array !! b;
      if ev_eq u ev then Some (Some b)
      else find_index export_vertex_array ev chain'
  end.

Definition bucket_of (bucketCount : N) (ev : ExportVertex) : nat :=
  Z.to_nat (Z.land (hash ev) (Z.of_N bucketCount - 1)).

Definition unify_step (export_vertex_array : list ExportVertex)
    (bucketCount : N) (i : nat) (ev : ExportVertex) (st : Welder)
  : option Welder :=
  let bucket := bucket_of bucketCount ev in
  chain ← hashTable st !! bucket;
  index ← find_index export_vertex_array ev chain;
  match index with
  | None =>
      Some {| hashTable := <[bucket := chain ++ [i]]> (hashTable st);
              unifiedVA := unifiedVA st ++ [ev];
              indexTable := indexTable st ++ [length (unifiedVA st)] |}
  | Some b =>
      t ← indexTable st !! b;
      Some {| hashTable := hashTable st;
              unifiedVA := unifiedVA st;
              indexTable := indexTable st ++ [t] |}
  end.

(** [for i in range(len(export_vertex_array))], with [todo] the vertices
    from position [i] on. *)
Fixpoint unify_loop (export_vertex_array : list ExportVertex)
    (bucketCount : N) (i : nat) (todo : list ExportVertex) (st : Welder)
  : option Welder :=
  match todo with
  | [] => Some st
  | ev :: todo' =>
      st' ← unify_step export_vertex_array bucketCount i ev st;
      unify_loop export_vertex_array bucketCount (S i) todo' st'
  end.

(** Returns [unifiedVA] together with the caller's [indexTable] as the
    function leaves it. *)
Definition unify_vertices (export_vertex_array : list ExportVertex)
    (indexTable0 : list nat) : option (list ExportVertex * list nat) :=
  let bucketCount := bucket_count (length export_vertex_array) in
  st ← unify_loop export_vertex_array bucketCount 0 export_vertex_array
         {| hashTable := replicate (N.to_nat bucketCount) [];
            unifiedVA := []; indexTable := indexTable0 |};
  Some (unifiedVA st, indexTable st).

(** Deduplication in first-occurrence order, as the specification words
    it: walk the input once and keep a vertex unless a vertex already kept
    compares equal to it. *)
Fixpoint first_occurrences (kept todo : list ExportVertex) : list ExportVertex :=
  match todo with
  | [] => kept
  | v :: todo' =>
      if existsb (fun u => ev_eq u v) kept then first_occurrences kept todo'
      else first_occurrences (kept ++ [v]) todo'
  end.

End Host.

(** The number of vertices [deindex_mesh] emits for a list of faces. *)
Fixpoint corner_count (faces : list Face) : nat :=
  match faces with
  | [] => 0
  | face :: faces' =>
      ((if (length (f_vertices face) =? 4)%nat then 6 else 3)
       + corner_count faces')%nat
  end.

(** The material-table entries one face contributes: one per triangle. *)
Definition face_materials (face : Face) : list nat :=
  if (length (f_vertices face) =? 4)%nat
  then [f_material_index face; f_material_index face]
  else [f_material_index face].

(** [ev] is a corner of the mesh: its face exists and lists its vertex,
    the position is the vertex's, the normal the vertex's or the face's
    according to the face's shading. *)
Definition is_corner (va : list MeshVertex) (faces : list Face)
    (ev : ExportVertex) : Prop :=
  exists (face : Face) (v : MeshVertex),
    faces !! face_index ev = Some face
    /\ vertex_index ev ∈ f_vertices face
    /\ va !! vertex_index ev = Some v
    /\ position ev = v_co v
    /\ normal ev = (if f_use_smooth face then v_normal v else f_normal face).

(** The values one attribute loop assigns, in assignment order. *)
Fixpoint painted_values {D A} (first second : D -> list A)
    (faces : list Face) (data : list D) : list A :=
  match faces, data with
  | face :: faces', d :: data' =>
      first d
      ++ (if (length (f_vertices face) =? 4)%nat then second d else [])
      ++ painted_values first second faces' data'
  | _, _ => []
  end.

(** The source texture coordinate of every emitted corner, face by face:
    corners 1, 2, 3 and, for a quad, corners 1, 3, 4 again. *)
Fixpoint corner_uvs (faces : list Face) (data : list UVFace) : list UV :=
  match faces, data with
  | face :: faces', tf :: data' =>
      [uv1 tf; uv2 tf; uv3 tf]
      ++ (if (length (f_vertices face) =? 4)%nat then [uv1 tf; uv3 tf; uv4 tf]
          else [])
      ++ corner_uvs faces' data'
  | _, _ => []
  end.

(** Worked inputs. Componentwise IEEE [!=] stands in for the host's
    comparison, and the coarsest hash (every float hashes to 0) for
    Python's. *)
Definition vec3_ne (a b : Vec3) : bool :=
  negb (PrimFloat.eqb a.1.1 b.1.1 && PrimFloat.eqb a.1.2 b.1.2
        && PrimFloat.eqb a.2 b.2).

Definition flat_hash (x : float) : Z := 0.

(** A unit square: one flat-shaded quad over four vertices, with two UV
    layers. *)
Definition unit_quad : Mesh :=
  {| vertices :=
       [ {| v_co := (0, 0, 0)%float; v_normal := (0, 0, 1)%float |};
         {| v_co := (1, 0, 0)%float; v_normal := (0, 0, 1)%float |};
         {| v_co := (1, 1, 0)%float; v_normal := (0, 0, 1)%float |};
         {| v_co := (0, 1, 0)%float; v_normal := (0, 0, 1)%float |} ];
     tessfaces :=
       [ {| f_vertices := [0; 1; 2; 3]%nat; f_use_smooth := false;
            f_normal := (0, 0, 1)%float; f_material_index := 0%nat |} ];
     tessface_vertex_colors := [];
     tessface_uv_textures :=
       [ [ {| uv1 := (0, 0)%float; uv2 := (1, 0)%float;
              uv3 := (1, 1)%float; uv4 := (0, 1)%float |} ];
         [ {| uv1 := (0.25, 0.25)%float; uv2 := (0.75, 0.25)%float;
              uv3 := (0.75, 0.75)%float; uv4 := (0.25, 0.75)%float |} ] ] |}.

End Weld.

(** ** The fast mesh path: filling the vertex arrays *)

Module Fast.

(** [class Vertex]: what the array loop reads of it. [uvs] has one entry per
    UV layer of the mesh. *)
Record Vertex := {
  co : Weld.Vec3;
  normal : Weld.Vec3;
  uvs : list Weld.UV;
  col : Weld.Vec3;
}.

(** The arrays allocated as [[0] * num_verts * k]. [t0data], [t1data] and
    [cdata] exist only under their flags; they stay empty otherwise. *)
Record Arrays := {
  vdata : list float;
  ndata : list float;
  t0data : list float;
  t1data : list float;
  cdata : list float;
}.

(** [data[i] = x]; a Python list does not grow on assignment. *)
Definition store (data : list float) (i : nat) (x : float) : option (list float) :=
  if (i <? length data)%nat then Some (<[i := x]> data) else None.

Definition store3 (data : list float) (i : nat) (v : Weld.Vec3)
  : option (list float) :=
  let '(x, y, z) := v in
  d ← store data (i * 3) x;
  d ← store d (i * 3 + 1) y;
  store d (i * 3 + 2) z.

(** [data[i * 2] = uv.x; data[i * 2 + 1] = 1.0 - uv.y] *)
Definition store_uv (data : list float) (i : nat) (uv : Weld.UV)
  : option (list float) :=
  d ← store data (i * 2) (fst uv);
  store d (i * 2 + 1) (PrimFloat.sub 1%float (snd uv)).

(** The body of [for i, vtx in enumerate(vert_list)]. The inner
    [for j in range(3)] interleaves the writes to [vdata] and [ndata], which
    touch different lists. *)
Definition fill_vertex (has_tex has_tex1 has_col : bool) (i : nat)
    (vtx : Vertex) (a : Arrays) : option Arrays :=
  vd ← store3 (vdata a) i (co vtx);
  nd ← store3 (ndata a) i (normal vtx);
  t ← (if has_tex then
         uv0 ← uvs vtx !! 0%nat;
         t0 ← store_uv (t0data a) i uv0;
         t1 ← (if has_tex1 then
                 uv1 ← uvs vtx !! 1%nat;
                 store_uv (t1data a) i uv1
               else Some (t1data a));
         Some (t0, t1)
       else Some (t0data a, t1data a));
  cd ← (if has_col then store3 (cdata a) i (col vtx) else Some (cdata a));
  Some {| vdata := vd; ndata := nd; t0data := t.1; t1data := t.2; cdata := cd |}.

Fixpoint fill_loop (has_tex has_tex1 has_col : bool) (i : nat)
    (todo : list Vertex) (a : Arrays) : option Arrays :=
  match todo with
  | [] => Some a
  | vtx :: todo' =>
      a' ← fill_vertex has_tex has_tex1 has_col i vtx a;
      fill_loop has_tex has_tex1 has_col (S i) todo' a'
  end.

(** The flags and allocations of [export_mesh_fast] followed by the array
    loop. [export_uvs] and [export_vcols] are what [get_export_uvs] and
    [get_export_vcols] answer for the mesh. *)
Definition export_mesh_fast_arrays (export_uvs export_vcols : bool)
    (num_uv_layers num_colors : nat) (vert_list : list Vertex)
  : option Arrays :=
  let num_verts := length vert_list in
  let has_tex := export_uvs && (0 <? num_uv_layers)%nat in
  let has_tex1 := has_tex && (1 <? num_uv_layers)%nat in
  let has_col := export_vcols && (0 <? num_colors)%nat in
  fill_loop has_tex has_tex1 has_col 0 vert_list
    {| vdata := replicate (num_verts * 3) 0%float;
       ndata := replicate (num_verts * 3) 0%float;
       t0data := if has_tex then replicate (num_verts * 2) 0%float else [];
       t1data := if has_tex1 then replicate (num_verts * 2) 0%float else [];
       cdata := if has_col then replicate (num_verts * 3) 0%float else [] |}.

(** The two floats vertex [vtx] contributes to the array of UV layer
    [layer]. *)
Definition uv_values (layer : nat) (vtx : Vertex) : list float :=
  from_option (fun uv : Weld.UV => [fst uv; PrimFloat.sub 1%float (snd uv)]) []
    (uvs vtx !! layer).

(** The three floats of a vector, in order. *)
Definition vec3_values (v : Weld.Vec3) : list float :=
  let '(x, y, z) := v in [x; y; z].

(** Vertex number [i] has a UV [(u, v)] in layer [layer], and [data] holds
    [u] and [1.0 - v] in its two slots. *)
Definition flipped_at (layer : nat) (data : list float) (i : nat) (vtx : Vertex)
  : Prop :=
  exists uv : Weld.UV,
    uvs vtx !! layer = Some uv
    /\ data !! (i * 2)%nat = Some (fst uv)
    /\ data !! (i * 2 + 1)%nat = Some (PrimFloat.sub 1%float (snd uv)).

(** Two vertices with two UV layers each. *)
Definition two_vertices : list Vertex :=
  [ {| co := (0, 0, 0)%float; normal := (0, 0, 1)%float;
       uvs := [(0.25, 0.75)%float; (0.5, 0.5)%float]; col := (0, 0, 0)%float |};
    {| co := (1, 0, 0)%float; normal := (0, 0, 1)%float;
       uvs := [(1, 0)%float; (0, 1)%float]; col := (0, 0, 0)%float |} ].

End Fast.

(** ** Skin: per-vertex bone influences *)

Module Skin.

(** One membership of a mesh vertex in a vertex group. *)
Record VertexGroupElement := {
  group : nat;
  weight : float;
}.

Record MeshVertex := {
  groups : list VertexGroupElement;
}.

(** The three arrays written to [oskin], and the warning flag. *)
Record Packed := {
  bone_count_array : list nat;
  bone_index_array : list Z;
  bone_weight_array : list float;
  warn_bones : bool;
}.

(** [for i in range(bone_count): if bone_array[i].name == group_name: ...
    break / else: -1] *)
Fixpoint find_bone (bone_names : list string) (i : Z) (group_name : string) : Z :=
  match bone_names with
  | [] => -1
  | name :: bone_names' =>
      if String.eqb name group_name then i
      else find_bone bone_names' (i + 1) group_name
  end.

Definition build_group_remap (vertex_groups bone_names : list string) : list Z :=
  map (find_bone bone_names 0) vertex_groups.

(** The loop over [mesh_vertex_array[ev.vertex_index].groups]. *)
Fixpoint gather (group_remap : list Z) (elements : list VertexGroupElement)
    (bone_values : list (float * Z)) (total_weight : float) (bone_count : nat)
  : option (list (float * Z) * float * nat) :=
  match elements with
  | [] => Some (bone_values, total_weight, bone_count)
  | element :: elements' =>
      bone_index ← group_remap !! group element;
      let bone_weight := weight element in
      if (0 <=? bone_index) && negb (PrimFloat.eqb bone_weight 0%float) then
        gather group_remap elements' (bone_values ++ [(bone_weight, bone_index)])
          (PrimFloat.add total_weight bone_weight) (S bone_count)
      else gather group_remap elements' bone_values total_weight bone_count
  end.

(** [<] on [(weight, index)] tuples: the first components decide unless
    they are [==]. *)
Definition tuple_lt (a b : float * Z) : bool :=
  if negb (PrimFloat.eqb a.1 b.1) then PrimFloat.ltb a.1 b.1
  else a.2 <? b.2.

(** [sorted]: a stable ascending sort. On the at most four tuples it is
    given, with weights that are numbers, every stable sort agrees. *)
Fixpoint insert_sorted (x : float * Z) (l : list (float * Z)) : list (float * Z) :=
  match l with
  | [] => [x]
  | y :: l' => if tuple_lt x y then x :: y :: l' else y :: insert_sorted x l'
  end.

Definition sorted (l : list (float * Z)) : list (float * Z) :=
  fold_left (fun acc x => insert_sorted x acc) l [].

(** The position [a[-i]] denotes in a list of length [len]: [-0] is [0]. *)
Definition neg_index (len i : nat) : option nat :=
  if (i =? 0)%nat then (if (0 <? len)%nat then Some 0%nat else None)
  else if (i <=? len)%nat then Some (len - i)%nat else None.

(** [for i in range(0, bone_count): bone_weight_array[-i] *= normalizer] *)
Fixpoint scale_weights (normalizer : float) (indices : list nat)
    (bone_weight_array : list float) : option (list float) :=
  match indices with
  | [] => Some bone_weight_array
  | i :: indices' =>
      k ← neg_index (length bone_weight_array) i;
      w ← bone_weight_array !! k;
      scale_weights normalizer indices'
        (<[k := PrimFloat.mul w normalizer]> bone_weight_array)
  end.

(** The body of [for ev in export_vertex_array]. *)
Definition pack_vertex (group_remap : list Z) (mesh_vertex_array : list MeshVertex)
    (vertex_index : nat) (p : Packed) : option Packed :=
  mv ← mesh_vertex_array !! vertex_index;
  g ← gather group_remap (groups mv) [] 0%float 0;
  let '(bone_values, total_weight, bone_count) := g in
  let clamp := (4 <? bone_count)%nat in
  let bone_count := if clamp then 4%nat else bone_count in
  let bone_values := if clamp then take 4 bone_values else bone_values in
  let ordered := rev (sorted bone_values) in
  let bia := bone_index_array p ++ map snd ordered in
  let bwa := bone_weight_array p ++ map fst ordered in
  bwa ← (if negb (PrimFloat.eqb total_weight 0%float) then
           let normalizer := PrimFloat.div 1%float total_weight in
           scale_weights normalizer (seq 0 bone_count) bwa
         else Some bwa);
  Some {| bone_count_array := bone_count_array p ++ [bone_count];
          bone_index_array := bia;
          bone_weight_array := bwa;
          warn_bones := warn_bones p || clamp |}.

Fixpoint pack_loop (group_remap : list Z) (mesh_vertex_array : list MeshVertex)
    (vertex_indices : list nat) (p : Packed) : option Packed :=
  match vertex_indices with
  | [] => Some p
  | vi :: rest =>
      p' ← pack_vertex group_remap mesh_vertex_array vi p;
      pack_loop group_remap mesh_vertex_array rest p'
  end.

(** The influence part of [export_skin_quality]; [vertex_indices] is
    [ev.vertex_index] for each [ev] of [export_vertex_array]. *)
Definition export_skin_quality (vertex_groups bone_names : list string)
    (mesh_vertex_array : list MeshVertex) (vertex_indices : list nat)
  : option Packed :=
  let group_remap := build_group_remap vertex_groups bone_names in
  pack_loop group_remap mesh_vertex_array vertex_indices
    {| bone_count_array := []; bone_index_array := [];
       bone_weight_array := []; warn_bones := false |}.

(** A vertex whose [k]-th membership is in group [k] with the given weight. *)
Definition vertex_of_weights (ws : list float) : MeshVertex :=
  {| groups := imap (fun k w => {| group := k; weight := w |}) ws |}.

(** What one group membership contributes to its vertex: the pair
    [(weight, bone index)] when the group maps to a bone and the weight is
    not zero. *)
Definition contribution (group_remap : list Z) (element : VertexGroupElement)
  : option (float * Z) :=
  match group_remap !! group element with
  | Some bone_index =>
      if (0 <=? bone_index) && negb (PrimFloat.eqb (weight element) 0%float)
      then Some (weight element, bone_index) else None
  | None => None
  end.

Definition contributions (group_remap : list Z) (mv : MeshVertex)
  : list (float * Z) :=
  omap (contribution group_remap) (groups mv).

(** Exported vertex [vi] points at a mesh vertex, all of whose groups are
    among the object's [n_groups] vertex groups. *)
Definition well_indexed (n_groups : nat) (mesh_vertex_array : list MeshVertex)
    (vi : nat) : Prop :=
  exists mv, mesh_vertex_array !! vi = Some mv
             /\ Forall (fun e => (group e < n_groups)%nat) (groups mv).

(** Worked inputs: five vertex groups named after five bones. *)
Definition five_names : list string := ["b0"; "b1"; "b2"; "b3"; "b4"]%string.

(** Two mesh vertices: one in group 0, one in groups 0 and 1. *)
Definition two_weighted : list MeshVertex :=
  [vertex_of_weights [0.5%float]; vertex_of_weights [0.25%float; 0.25%float]].

End Skin.

(** ** Flattening vertex and index data *)

Module Serial.
Import Weld.

Definition write_vector2d (vector : UV) : list float :=
  [fst vector; snd vector].

Definition write_vector3d (vector : Vec3) : list float :=
  let '(x, y, z) := vector in [x; y; z].

(** [for j in range(n): va += item(k); k += 1] *)
Fixpoint emit {A} (item : nat -> option (list A)) (n k : nat) (va : list A)
  : option (list A * nat) :=
  match n with
  | O => Some (va, k)
  | S n' => x ← item k; emit item n' (S k) (va ++ x)
  end.

(** [for i in range(lineCount)]: [inner] items, then one more. *)
Fixpoint emit_lines {A} (item : nat -> option (list A)) (inner lines k : nat)
    (va : list A) : option (list A * nat) :=
  match lines with
  | O => Some (va, k)
  | S lines' =>
      r ← emit item inner k va;
      x ← item r.2;
      emit_lines item inner lines' (S r.2) (r.1 ++ x)
  end.

(** The loop shape shared by [write_va2d], [write_va3d] and
    [write_triangle_array]: full lines of [inner + 1] items, then the
    [count & mask] items left over, the last of them outside the loop. *)
Definition emit_blocked {A} (item : nat -> option (list A))
    (shift inner mask count : nat) : option (list A) :=
  r ← emit_lines item inner (Nat.shiftr count shift) 0 [];
  let count := Nat.land count mask in
  if (count =? 0)%nat then Some r.1
  else
    r' ← emit item (count - 1) r.2 r.1;
    x ← item r'.2;
    Some (r'.1 ++ x).

(** [getattr(vertexArray[k], attrib)] is [attrib] applied to the [k]-th
    vertex. *)
Definition write_va {A} (write_vector : A -> list float)
    (vertexArray : list ExportVertex) (attrib : ExportVertex -> A)
  : option (list float) :=
  emit_blocked
    (fun k => ev ← vertexArray !! k; Some (write_vector (attrib ev)))
    3 7 7 (length vertexArray).

Definition write_va2d (vertexArray : list ExportVertex)
    (attrib : ExportVertex -> UV) : option (list float) :=
  write_va write_vector2d vertexArray attrib.

Definition write_va3d (vertex_array : list ExportVertex)
    (attrib : ExportVertex -> Vec3) : option (list float) :=
  write_va write_vector3d vertex_array attrib.

Definition write_triangle (triangle_index : nat) (index_table : list nat)
  : option (list nat) :=
  let i := (triangle_index * 3)%nat in
  a ← index_table !! i;
  b ← index_table !! (i + 1)%nat;
  c ← index_table !! (i + 2)%nat;
  Some [a; b; c].

Definition write_triangle_array (count : nat) (index_table : list nat)
  : option (list nat) :=
  emit_blocked (fun triangle_index => write_triangle triangle_index index_table)
    4 15 15 count.

(** The same items taken one after the other, without lines. *)
Fixpoint collect {A} (item : nat -> option (list A)) (k n : nat)
  : option (list A) :=
  match n with
  | O => Some []
  | S n' => x ← item k; xs ← collect item (S k) n'; Some (x ++ xs)
  end.

(** *** The index arrays of [export_mesh_quality] *)

Record IndexArray := {
  ia_size : nat;
  ia_values : list nat;
  ia_material : nat;
}.

Definition max_material_index (material_table : list nat) : nat :=
  fold_left (fun maxMaterialIndex index =>
               if (maxMaterialIndex <? index)%nat then index
               else maxMaterialIndex)
    material_table 0%nat.

(** [materialTriangleCount[material_table[i]] += 1] for every [i]. *)
Definition material_triangle_count (material_table : list nat)
    (maxMaterialIndex : nat) : list nat :=
  fold_left (fun counts m => alter S m counts) material_table
    (replicate (maxMaterialIndex + 1) 0%nat).

(** The triangles of material [m], gathered in table order. *)
Fixpoint material_index_table (material_table : list nat) (i m : nat)
    (indexTable materialIndexTable : list nat) : option (list nat) :=
  match material_table with
  | [] => Some materialIndexTable
  | x :: material_table' =>
      if (x =? m)%nat then
        let k := (i * 3)%nat in
        a ← indexTable !! k;
        b ← indexTable !! (k + 1)%nat;
        c ← indexTable !! (k + 2)%nat;
        material_index_table material_table' (S i) m indexTable
          (materialIndexTable ++ [a; b; c])
      else
        material_index_table material_table' (S i) m indexTable
          materialIndexTable
  end.

(** [for m in range(maxMaterialIndex + 1)] *)
Fixpoint material_arrays (material_table : list nat)
    (materialTriangleCount indexTable : list nat) (ms : list nat)
    (index_arrays : list IndexArray) : option (list IndexArray) :=
  match ms with
  | [] => Some index_arrays
  | m :: ms' =>
      c ← materialTriangleCount !! m;
      if negb (c =? 0)%nat then
        materialIndexTable ←
          material_index_table material_table 0 m indexTable [];
        vals ← write_triangle_array c materialIndexTable;
        material_arrays material_table materialTriangleCount indexTable ms'
          (index_arrays ++ [{| ia_size := 3; ia_values := vals;
                               ia_material := m |}])
      else
        material_arrays material_table materialTriangleCount indexTable ms'
          index_arrays
  end.

(** [o['index_arrays']] as [export_mesh_quality] fills it. *)
Definition index_arrays (material_table indexTable : list nat)
  : option (list IndexArray) :=
  let triangleCount := length material_table in
  let maxMaterialIndex := max_material_index material_table in
  if (maxMaterialIndex =? 0)%nat then
    vals ← write_triangle_array triangleCount indexTable;
    Some [{| ia_size := 3; ia_values := vals; ia_material := 0 |}]
  else
    material_arrays material_table
      (material_triangle_count material_table maxMaterialIndex) indexTable
      (seq 0 (maxMaterialIndex + 1)) [].

(** The triangles whose material is [m], read straight off the index
    table: triangle [i + j] occupies the slots [3 (i + j)] to
    [3 (i + j) + 2]. *)
Fixpoint triangles_of_material (material_table : list nat) (i m : nat)
    (indexTable : list nat) : list nat :=
  match material_table with
  | [] => []
  | x :: material_table' =>
      (if (x =? m)%nat then take 3 (drop (i * 3) indexTable) else [])
      ++ triangles_of_material material_table' (S i) m indexTable
  end.

(** *** The triangles of one polygon on the fast path *)

(** [indices] holds the [poly.loop_total] vertex numbers of the polygon;
    [indices[-1]] is its last entry. *)
Definition polygon_triangles (indices : list nat) : option (list nat) :=
  let loop_total := length indices in
  if (loop_total =? 3)%nat then Some indices
  else if (3 <? loop_total)%nat then
    collect (fun i =>
               z ← indices !! (loop_total - 1)%nat;
               a ← indices !! i;
               b ← indices !! (i + 1)%nat;
               Some [z; a; b])
      0 (loop_total - 2)
  else Some [].

End Serial.

(** ** Keyframe tracks *)

Module Keys.
Import Anim.

(** [export_animation_track]'s result; the control arrays are present for
    a Bezier track only. *)
Record AnimationTrack := {
  target : string;
  curve : option string;
  times : list float;
  values : list float;
  times_control_plus : option (list float);
  times_control_minus : option (list float);
  values_control_plus : option (list float);
  values_control_minus : option (list float);
}.

(** [(t - self.beginFrame) * self.frameTime] *)
Definition frame_time (self : Sample.Exporter) (t : float) : float :=
  PrimFloat.mul (PrimFloat.sub t (float_of_Z (Sample.beginFrame self)))
    (Sample.frameTime self).

Definition export_key_times (self : Sample.Exporter) (fcurve : FCurve)
  : list float :=
  map (fun key => frame_time self (fst (co key))) (keyframe_points fcurve).

(** Returns [keyminuso, keypluso]; the source wraps each list in a dict
    under the key [values]. *)
Definition export_key_time_control_points (self : Sample.Exporter)
    (fcurve : FCurve) : list float * list float :=
  let keyminuso :=
    map (fun key => frame_time self (fst (handle_left key)))
      (keyframe_points fcurve) in
  let keypluso :=
    map (fun key => frame_time self (fst (handle_right key)))
      (keyframe_points fcurve) in
  (keyminuso, keypluso).

Definition export_key_values (fcurve : FCurve) : list float :=
  map (fun key => snd (co key)) (keyframe_points fcurve).

(** Returns [keypluso, keypluso]. *)
Definition export_key_value_control_points (fcurve : FCurve)
  : list float * list float :=
  let keyminuso := map (fun key => snd (handle_left key)) (keyframe_points fcurve) in
  let keypluso := map (fun key => snd (handle_right key)) (keyframe_points fcurve) in
  (keypluso, keypluso).

Definition export_animation_track (self : Sample.Exporter) (fcurve : FCurve)
    (kind : Z) (target : string) : AnimationTrack :=
  if negb (kind =? AnimationTypeBezier) then
    {| target := target; curve := None;
       times := export_key_times self fcurve;
       values := export_key_values fcurve;
       times_control_plus := None; times_control_minus := None;
       values_control_plus := None; values_control_minus := None |}
  else
    let tc := export_key_time_control_points self fcurve in
    let vc := export_key_value_control_points fcurve in
    {| target := target; curve := Some "bezier"%string;
       times := export_key_times self fcurve;
       values := export_key_values fcurve;
       times_control_plus := Some tc.1; times_control_minus := Some tc.2;
       values_control_plus := Some vc.1; values_control_minus := Some vc.2 |}.

(** Two keys that agree on everything the exporter can see of them except
    the value of the left handle. *)
Definition same_but_left_value (k k' : Keyframe) : Prop :=
  co k = co k' /\ handle_right k = handle_right k'
  /\ fst (handle_left k) = fst (handle_left k').

End Keys.

(** ** Scene nodes: kinds, lookup by name, the mesh cache *)

Module Nodes.

Definition NodeTypeNode : Z := 0.
Definition NodeTypeBone : Z := 1.
Definition NodeTypeMesh : Z := 2.
Definition NodeTypeLamp : Z := 3.
Definition NodeTypeCamera : Z := 4.
Definition NodeTypeSpeaker : Z := 5.
Definition NodeTypeDecal : Z := 6.

(** What [get_bobject_type] reads of an object: its type name and, for a
    mesh, the number of polygons. *)
Record TypedObject := {
  type : string;
  polygons : nat;
}.

Definition get_bobject_type (bobject : TypedObject) : Z :=
  if String.eqb (type bobject) "MESH" then
    (if negb (polygons bobject =? 0)%nat then NodeTypeMesh else NodeTypeNode)
  else if String.eqb (type bobject) "FONT" then NodeTypeMesh
  else if String.eqb (type bobject) "META" then NodeTypeMesh
  else if String.eqb (type bobject) "LAMP" then NodeTypeLamp
  else if String.eqb (type bobject) "CAMERA" then NodeTypeCamera
  else if String.eqb (type bobject) "SPEAKER" then NodeTypeSpeaker
  else NodeTypeNode.

(** An entry of [self.bobjectArray]: the key object, known by its name,
    and the reference record stored for it. *)
Record NodeRef := {
  objectType : Z;
  structName : string;
}.

Fixpoint find_node (bobjectArray : list (string * NodeRef)) (name : string)
  : option (string * NodeRef) :=
  match bobjectArray with
  | [] => None
  | bobject_ref :: rest =>
      if String.eqb bobject_ref.1 name then Some bobject_ref
      else find_node rest name
  end.

(** [oskel['bone_ref_array']] of [export_skin_quality]. *)
Definition bone_ref_array (bobjectArray : list (string * NodeRef))
    (bone_names : list string) : list string :=
  map (fun name =>
         match find_node bobjectArray name with
         | Some boneRef => structName boneRef.2
         | None => "null"%string
         end) bone_names.

(** The mesh data block with its cache fields; [n_vertices] and [n_edges]
    are [len(data.vertices)] and [len(data.edges)]. *)
Record MeshData := {
  mesh_cached : bool;
  mesh_cached_verts : nat;
  mesh_cached_edges : nat;
  n_vertices : nat;
  n_edges : nat;
}.

Record MeshObject := {
  mo_type : string;
  data : MeshData;
}.

Definition object_is_mesh_cached (bobject : MeshObject) : bool :=
  if String.eqb (mo_type bobject) "FONT" || String.eqb (mo_type bobject) "META"
  then mesh_cached (data bobject)
  else if negb (mesh_cached_verts (data bobject) =? n_vertices (data bobject))%nat
  then false
  else if negb (mesh_cached_edges (data bobject) =? n_edges (data bobject))%nat
  then false
  else mesh_cached (data bobject).

(** What [write_mesh] does to the object's data block. *)
Definition write_mesh (option_mesh_per_file : bool) (bobject : MeshObject)
  : MeshObject :=
  if option_mesh_per_file then
    let d := data bobject in
    let fresh :=
      negb (String.eqb (mo_type bobject) "FONT")
      && negb (String.eqb (mo_type bobject) "META") in
    {| mo_type := mo_type bobject;
       data := {| mesh_cached := true;
                  mesh_cached_verts :=
                    if fresh then n_vertices d else mesh_cached_verts d;
                  mesh_cached_edges :=
                    if fresh then n_edges d else mesh_cached_edges d;
                  n_vertices := n_vertices d;
                  n_edges := n_edges d |} |}
  else bobject.

(** The host changing the geometry of a mesh: new vertex and edge counts,
    the cache fields untouched. *)
Definition edit_mesh (nv ne : nat) (bobject : MeshObject) : MeshObject :=
  {| mo_type := mo_type bobject;
     data := {| mesh_cached := mesh_cached (data bobject);
                mesh_cached_verts := mesh_cached_verts (data bobject);
                mesh_cached_edges := mesh_cached_edges (data bobject);
                n_vertices := nv;
                n_edges := ne |} |}.

End Nodes.

(** * Properties *)

(** ** Animation curves *)

Section AnimationFacts.
Import Anim.

Lemma linear_not_bezier (m : string) : is_linear m = true -> is_bezier m = false.
Proof.
  unfold is_linear, is_bezier. intros H.
  apply String.eqb_eq in H. subst m. reflexivity.
Qed.

(** What the counting loop computes, from any starting counts. *)
Lemma classify_loop_counts (keys : list Keyframe) (l b : Z) :
  classify_loop keys l b =
  let modes := map interpolation keys in
  if existsb (fun m => negb (is_linear m) && negb (is_bezier m)) modes then None
  else Some (l + Z.of_nat (length (filter (fun m => is_linear m = true) modes)),
             b + Z.of_nat (length (filter (fun m => is_bezier m = true) modes))).
Proof.
  revert l b. induction keys as [|k keys IH]; intros l b; simpl.
  - f_equal. f_equal; lia.
  - fold (is_linear (interpolation k)). fold (is_bezier (interpolation k)).
    destruct (is_linear (interpolation k)) eqn:Hl.
    + pose proof (linear_not_bezier _ Hl) as Hb. rewrite Hb. simpl.
      rewrite IH. simpl.
      rewrite (filter_cons_True (fun m => is_linear m = true)) by exact Hl.
      rewrite (filter_cons_False (fun m => is_bezier m = true)) by (rewrite Hb; discriminate).
      destruct (existsb _ _); [reflexivity|].
      simpl length. f_equal. f_equal; lia.
    + destruct (is_bezier (interpolation k)) eqn:Hb; simpl.
      * rewrite IH. simpl.
        rewrite (filter_cons_False (fun m => is_linear m = true)) by (rewrite Hl; discriminate).
        rewrite (filter_cons_True (fun m => is_bezier m = true)) by exact Hb.
        destruct (existsb _ _); [reflexivity|].
        simpl length. f_equal. f_equal; lia.
      * reflexivity.
Qed.

(** C3. For every sequence of keyframe interpolation modes the classifier
    follows the stated rule -- Sampled if some mode is neither linear nor
    Bezier, else Linear if there is no Bezier key, else Bezier if there is no
    linear key, else Sampled -- and so returns one of the three kinds. *)
Theorem classify_animation_curve_rule (fcurve : FCurve) :
  classify_animation_curve fcurve
    = classify_spec (map interpolation (keyframe_points fcurve))
  /\ (classify_animation_curve fcurve = AnimationTypeSampled
      \/ classify_animation_curve fcurve = AnimationTypeLinear
      \/ classify_animation_curve fcurve = AnimationTypeBezier).
Proof.
  assert (Heq : classify_animation_curve fcurve
                = classify_spec (map interpolation (keyframe_points fcurve))).
  { unfold classify_animation_curve, classify_spec.
    rewrite classify_loop_counts. simpl.
    destruct (existsb _ _); [reflexivity|].
    set (nb := length (filter (fun m => is_bezier m = true) _)).
    set (nl := length (filter (fun m => is_linear m = true) _)).
    destruct nb, nl; reflexivity. }
  split; [exact Heq|].
  rewrite Heq. unfold classify_spec.
  repeat match goal with |- context [if ?c then _ else _] => destruct c end; auto.
Qed.

Lemma keys_different_loop_true (key1 : float) (rest : list Keyframe) :
  keys_different_loop key1 rest = true <->
  exists (i : nat) (k : Keyframe),
    rest !! i = Some k /\ exceeds_epsilon (snd (co k)) key1 = true.
Proof.
  induction rest as [|k rest IH]; simpl.
  - split; [discriminate|]. intros (i & k & Hk & _). destruct i; discriminate.
  - destruct (exceeds_epsilon (snd (co k)) key1) eqn:Hk.
    + split; [|reflexivity]. intros _. exists 0%nat, k. split; [reflexivity|exact Hk].
    + rewrite IH. split.
      * intros (i & k' & Hi & He). exists (S i), k'. split; assumption.
      * intros (i & k' & Hi & He). destruct i as [|i].
        -- simpl in Hi. injection Hi as <-. congruence.
        -- exists i, k'. split; assumption.
Qed.

Lemma animation_keys_different_true (fcurve : FCurve) :
  animation_keys_different fcurve = true <-> key_differs_from_first fcurve.
Proof.
  unfold animation_keys_different, key_differs_from_first.
  destruct (keyframe_points fcurve) as [|k0 rest].
  - split; [discriminate|]. intros (i & k0 & k & H0 & _). discriminate.
  - rewrite keys_different_loop_true. split.
    + intros (i & k & Hi & He). exists i, k0, k. repeat split; assumption.
    + intros (i & k0' & k & H0 & Hi & He). simpl in H0. injection H0 as <-.
      exists i, k. split; assumption.
Qed.

(** C6 as stated fails: on [slow_ramp], classified Linear, the presence
    test answers [true] although no two successive keys differ by more than
    the epsilon. *)
Lemma presence_not_successive :
  classify_animation_curve slow_ramp = AnimationTypeLinear
  /\ ~ (animation_present slow_ramp (classify_animation_curve slow_ramp) = true
        <-> successive_keys_differ slow_ramp).
Proof.
  split; [reflexivity|].
  intros [Hfwd _].
  destruct (Hfwd eq_refl) as (i & k1 & k2 & H1 & H2 & He).
  destruct i as [|[|[|i]]]; simpl in H1, H2;
    try discriminate;
    injection H1 as <-; injection H2 as <-;
    vm_compute in He; discriminate.
Qed.

(** C6, amended. The value test of the presence check answers [True]
    exactly when some keyframe value differs from the first keyframe's value
    by more than the epsilon. For a channel classified other than Bezier that
    test is the whole presence check; for a Bezier channel the check also
    accepts a non-flat handle. *)
Theorem value_change_iff_differs_from_first (fcurve : FCurve) (kind : Z) :
  (animation_keys_different fcurve = true <-> key_differs_from_first fcurve)
  /\ (kind <> AnimationTypeBezier ->
      (animation_present fcurve kind = true <-> key_differs_from_first fcurve))
  /\ (kind = AnimationTypeBezier ->
      (animation_present fcurve kind = true <->
       key_differs_from_first fcurve
       \/ animation_tangents_nonzero fcurve = true)).
Proof.
  pose proof (animation_keys_different_true fcurve) as Hd.
  split; [exact Hd|]. unfold animation_present. split; intros Hk.
  - destruct (Z.eqb_spec kind AnimationTypeBezier) as [E|E]; [contradiction|].
    simpl. exact Hd.
  - subst kind. simpl. rewrite orb_true_iff, Hd. reflexivity.
Qed.

Lemma value_change_iff_differs_from_first_witness :
  AnimationTypeLinear <> AnimationTypeBezier
  /\ key_differs_from_first slow_ramp
  /\ animation_present slow_ramp AnimationTypeLinear = true.
Proof.
  destruct (value_change_iff_differs_from_first slow_ramp AnimationTypeLinear)
    as (_ & Hlin & _).
  assert (Hne : AnimationTypeLinear <> AnimationTypeBezier) by discriminate.
  split; [exact Hne|].
  assert (Hp : animation_present slow_ramp AnimationTypeLinear = true)
    by reflexivity.
  split; [apply (Hlin Hne); exact Hp|exact Hp].
Defined.

(** C9. A channel without keyframes is classified Linear, and with fewer
    than two keyframes the value test answers [False], so such a linear
    channel is not reported as animated. *)
Theorem few_keys_not_animated (fcurve : FCurve) :
  (length (keyframe_points fcurve) < 2)%nat ->
  animation_keys_different fcurve = false
  /\ animation_present fcurve AnimationTypeLinear = false
  /\ (keyframe_points fcurve = [] ->
      classify_animation_curve fcurve = AnimationTypeLinear).
Proof.
  intros Hlen.
  assert (Hd : animation_keys_different fcurve = false).
  { unfold animation_keys_different.
    destruct (keyframe_points fcurve) as [|k0 [|k1 rest]]; simpl in *;
      [reflexivity|reflexivity|lia]. }
  split; [exact Hd|]. split.
  - unfold animation_present. simpl. exact Hd.
  - intros Hnil. unfold classify_animation_curve. rewrite Hnil. reflexivity.
Qed.

Lemma few_keys_not_animated_witness :
  let single := {| keyframe_points := [key_at "LINEAR" 1%float] |} in
  (length (keyframe_points single) < 2)%nat
  /\ animation_keys_different single = false
  /\ animation_present single AnimationTypeLinear = false.
Proof.
  simpl. split; [lia|].
  pose proof (few_keys_not_animated
                {| keyframe_points := [key_at "LINEAR" 1%float] |}) as H.
  simpl in H. destruct H as (H1 & H2 & _); [lia|]. split; assumption.
Defined.

End AnimationFacts.

(** ** Sampled animation *)

Section SampleFacts.
Import Sample.

Ltac run_scene :=
  unfold bind, get, eval, ret, frame_set; simpl;
  repeat match goal with
         | |- context [let (_, _) := ?e in _] => destruct e; simpl
         end.

(** C8, as amended. Both sampled-animation exporters leave the scene's
    frame and subframe as they found them on every normal return, whether
    or not animation was detected. The object exporter has no other exit;
    the bone exporter can also leave by an exception of the host, and that
    exit is not covered. *)
Theorem sampled_exporters_restore_on_return :
  (forall (self : Exporter) (bobject : BObject) (s : Scene),
      let s' := snd (export_object_sampled_animation self bobject s) in
      frame_current s' = frame_current s
      /\ frame_subframe s' = frame_subframe s)
  /\ (forall (py_int : float -> option Z) (inverted : Matrix -> option Matrix)
             (matmul : Matrix -> Matrix -> Matrix)
             (self : Exporter) (poseBone : PoseBone) (action : Action)
             (s : Scene) (anim : option Track),
         fst (export_bone_sampled_animation py_int inverted matmul
                self poseBone action s) = Some anim ->
         let s' := snd (export_bone_sampled_animation py_int inverted matmul
                          self poseBone action s) in
         frame_current s' = frame_current s
         /\ frame_subframe s' = frame_subframe s).
Proof.
  split.
  - intros self bobject s. unfold export_object_sampled_animation.
    run_scene. split; reflexivity.
  - intros py_int inverted matmul self poseBone action s anim.
    destruct (export_bone_sampled_animation py_int inverted matmul
                self poseBone action s) as [r s'] eqn:Hrun.
    simpl. intros ->.
    unfold export_bone_sampled_animation in Hrun.
    unfold ebind, lift, get, call, eval, eret, frame_set in Hrun.
    destruct (get_action_framerange py_int self action) as [[b e]|];
      [|discriminate].
    destruct (detect_animation _ _ _ _) as [flag s1].
    destruct flag.
    + destruct (sample_bone_frames _ _ _ _ _ _) as [[vals|] s2];
        [|discriminate].
      destruct (parent_relative _ _ _ _); [|discriminate].
      injection Hrun as _ <-. split; reflexivity.
    + injection Hrun as _ <-. split; reflexivity.
Qed.

(** C8 as stated fails on the bone exporter. With the scene on frame 1 and
    a parent bone collapsed to zero scale at frame 2, animation is detected
    at frame 2, the sampling loop seeks frame 1 and then frame 2, and
    [parent.matrix.inverted()] raises there: the exporter is left through
    the exception, and the scene stays on frame 2. *)
Lemma bone_exporter_raise_skips_restore :
  fst (export_bone_sampled_animation int_of_float diagonal_inverted mat_mul
         timeline_1_3 collapsing_bone action_1_3 (at_frame 1)) = None
  /\ frame_current
       (snd (export_bone_sampled_animation int_of_float diagonal_inverted mat_mul
               timeline_1_3 collapsing_bone action_1_3 (at_frame 1))) = 2
  /\ frame_current (at_frame 1) = 1.
Proof. vm_compute. repeat split; reflexivity. Qed.

(** The amended C8 on a run of the bone exporter that returns a track: the
    parent is invertible on every sampled frame, three matrices are
    written, and the scene is back on frame 1, subframe 0. *)
Lemma sampled_exporters_restore_on_return_witness :
  exists track : Track,
    fst (export_bone_sampled_animation int_of_float diagonal_inverted mat_mul
           timeline_1_3 growing_bone action_1_3 (at_frame 1)) = Some (Some track)
    /\ length (values track) = (3 * 16)%nat
    /\ frame_current
         (snd (export_bone_sampled_animation int_of_float diagonal_inverted mat_mul
                 timeline_1_3 growing_bone action_1_3 (at_frame 1))) = 1
    /\ frame_subframe
         (snd (export_bone_sampled_animation int_of_float diagonal_inverted mat_mul
                 timeline_1_3 growing_bone action_1_3 (at_frame 1))) = 0%float.
Proof.
  eexists. split; [vm_compute; reflexivity|]. split; [reflexivity|].
  refine (proj2 sampled_exporters_restore_on_return int_of_float diagonal_inverted
            mat_mul timeline_1_3 growing_bone action_1_3 (at_frame 1) _ _).
  vm_compute. reflexivity.
Defined.

(** The times of an emitted track, for any run: relative to the begin frame
    inside the range, the end frame's own number at the end. *)
Lemma emitted_track_times (self : Exporter) (bobject : BObject) (s : Scene)
    (track : Track) :
  fst (export_object_sampled_animation self bobject s) = Some track ->
  times track
  = map (fun i => PrimFloat.mul (float_of_Z (i - beginFrame self)) (frameTime self))
      (range (beginFrame self) (endFrame self))
    ++ [PrimFloat.mul (float_of_Z (endFrame self)) (frameTime self)].
Proof.
  unfold export_object_sampled_animation.
  unfold bind, get, eval, ret, frame_set; simpl.
  destruct (detect_animation _ _ _ _) as [flag s1]. destruct flag; simpl.
  - destruct (sample_frames _ _ _ _) as [vals s2]. simpl.
    intros H. injection H as <-. reflexivity.
  - discriminate.
Qed.

(** C4 at a timeline that starts at frame 1 (frames 1, 2, 3 at half a
    second each): the exporter emits the times 0, 0.5, 1.5 and three
    matrices; frame indices relative to the range would give 0, 0.5, 1.0. *)
Theorem sampled_times_last_entry_absolute :
  let r := fst (export_object_sampled_animation timeline_1_3 frame_counter
                  {| frame_current := 1; frame_subframe := 0%float |}) in
  option_map times r = Some [0%float; 0.5%float; 1.5%float]
  /\ option_map (fun t => length (values t)) r = Some (3 * 16)%nat
  /\ map (fun k => PrimFloat.mul (float_of_Z k) 0.5%float) [0; 1; 2]
     = [0%float; 0.5%float; 1%float].
Proof. vm_compute. repeat split; reflexivity. Qed.

End SampleFacts.

(** ** Welding *)

Section BucketFacts.
Import Weld.
#[local] Open Scope N_scope.

Lemma pow2_land_pred (k : N) : N.land (2 ^ k) (2 ^ k - 1) = 0.
Proof.
  replace (2 ^ k - 1) with (N.ones k) by (rewrite N.ones_equiv, N.pred_sub; reflexivity).
  rewrite N.land_ones. apply N.Div0.mod_same.
Qed.

Lemma bit_set_ge (c k : N) : N.testbit c k = true -> 2 ^ k <= c.
Proof.
  intros Hb. destruct (N.lt_ge_cases c (2 ^ k)) as [Hlt|]; [|assumption].
  destruct (N.eq_dec c 0) as [->|Hc]; [rewrite N.bits_0 in Hb; discriminate|].
  apply N.log2_lt_pow2 in Hlt; [|lia].
  rewrite N.bits_above_log2 in Hb by assumption. discriminate.
Qed.

Lemma clear_lowest_bit (b : N) :
  b <> 0 ->
  let c := N.land b (b - 1) in
  (c = 0 /\ b = 2 ^ N.log2 b) \/ (c <> 0 /\ c < b /\ N.log2 c = N.log2 b).
Proof.
  intros Hb c.
  pose proof (N.log2_spec b ltac:(lia)) as [Hlo Hhi].
  destruct (N.eq_dec b (2 ^ N.log2 b)) as [Heq|Hne].
  - left. split; [|assumption]. subst c. clear Hlo Hhi.
    set (k := N.log2 b) in *. rewrite Heq. apply pow2_land_pred.
  - right.
    assert (Hk : N.testbit c (N.log2 b) = true).
    { subst c. rewrite N.land_spec, N.bit_log2 by assumption. simpl.
      replace (N.log2 b) with (N.log2 (b - 1)).
      - apply N.bit_log2. lia.
      - apply N.log2_unique; [lia|]. split; lia. }
    pose proof (bit_set_ge _ _ Hk).
    pose proof (N.land_le_r b (b - 1)). fold c in H0.
    assert (c <> 0) by (pose proof (N.pow_nonzero 2 (N.log2 b)); lia).
    repeat split; [assumption|lia|].
    apply N.log2_unique; [lia|]. split; [assumption|]. lia.
Qed.

(** The loop leaves the highest set bit. *)
Lemma round_down_pow2_log2 (b : N) : b <> 0 -> round_down_pow2 b = 2 ^ N.log2 b.
Proof.
  induction b as [b IH] using (well_founded_induction N.lt_wf_0).
  intros Hb. rewrite round_down_pow2_equation_1.
  destruct (clear_lowest_bit b Hb) as [[Hc Hp]|(Hc & Hlt & Hl)].
  - destruct (N.eq_dec _ _) as [Hz|Hn]; [|contradiction]. simpl. exact Hp.
  - destruct (N.eq_dec _ _) as [Hz|Hn]; [contradiction|]. simpl.
    rewrite IH by assumption. rewrite Hl. reflexivity.
Qed.

Lemma bucket_count_log2 (n : nat) :
  bucket_count n = 2 ^ N.log2 (N.of_nat n / 8).
Proof.
  unfold bucket_count. rewrite N.shiftr_div_pow2. change (2 ^ 3) with 8.
  generalize (N.of_nat n / 8). intros q.
  destruct (N.ltb_spec 1 q) as [H|H].
  - apply round_down_pow2_log2. lia.
  - assert (Hq : q = 0 \/ q = 1) by lia.
    destruct Hq as [-> | ->]; reflexivity.
Qed.

(** C7. For an input of [n] vertices the bucket count is the largest power
    of two that is at most [n / 8], and 1 when [n / 8] is 0 or 1. *)
Theorem bucket_count_largest_power_of_two (n : nat) :
  let q := N.of_nat n / 8 in
  bucket_count n = 2 ^ N.log2 q
  /\ ((q <= 1 /\ bucket_count n = 1)
      \/ (1 < q /\ bucket_count n <= q < 2 * bucket_count n))
  /\ (forall k : N, 2 ^ k <= q -> 2 ^ k <= bucket_count n).
Proof.
  intros q. pose proof (bucket_count_log2 n) as Hbc. fold q in Hbc.
  clearbody q.
  split; [exact Hbc|]. split.
  - destruct (N.le_gt_cases q 1) as [H|H].
    + left. split; [assumption|]. rewrite Hbc.
      assert (Hq : q = 0 \/ q = 1) by lia. destruct Hq as [-> | ->]; reflexivity.
    + right. split; [assumption|]. rewrite Hbc.
      pose proof (N.log2_spec q ltac:(lia)) as [Hlo Hhi].
      rewrite N.pow_succ_r' in Hhi. lia.
  - intros k Hk. rewrite Hbc.
    assert (0 < q) by (pose proof (N.pow_nonzero 2 k); lia).
    apply N.pow_le_mono_r; [lia|]. apply N.log2_le_pow2; assumption.
Qed.

End BucketFacts.

(** Masking with a non-negative mask stays within the mask. *)
Lemma land_mask_bounds (h m : Z) : (0 <= m -> 0 <= Z.land h m <= m)%Z.
Proof.
  intros Hm. apply Z.ldiff_le; [assumption|].
  apply Z.bits_inj'. intros k Hk.
  rewrite Z.ldiff_spec, Z.land_spec, Z.bits_0.
  destruct (Z.testbit h k), (Z.testbit m k); reflexivity.
Qed.

Section WeldFacts.
Import Weld.
#[local] Open Scope nat_scope.
Variable pyhash : float -> Z.
Variable vector_ne color_ne : Vec3 -> Vec3 -> bool.

#[local] Abbreviation ev_eq := (Weld.ev_eq vector_ne color_ne).

Lemma ev_eq_hash (u v : ExportVertex) : ev_eq u v = true -> hash u = hash v.
Proof.
  unfold Weld.ev_eq. destruct (Z.eqb_spec (hash u) (hash v)); simpl; [auto|discriminate].
Qed.

Lemma bucket_of_lt (bucketCount : N) (ev : ExportVertex) :
  (0 < bucketCount)%N -> bucket_of bucketCount ev < N.to_nat bucketCount.
Proof.
  intros Hpos. unfold bucket_of.
  pose proof (land_mask_bounds (hash ev) (Z.of_N bucketCount - 1)). lia.
Qed.

Lemma ev_eq_bucket (bucketCount : N) (u v : ExportVertex) :
  ev_eq u v = true -> bucket_of bucketCount u = bucket_of bucketCount v.
Proof. intros H. unfold bucket_of. rewrite (ev_eq_hash _ _ H). reflexivity. Qed.

Lemma find_index_scan (eva : list ExportVertex) (ev : ExportVertex) (chain : list nat) :
  Forall (fun b => is_Some (eva !! b)) chain ->
  exists r, find_index vector_ne color_ne eva ev chain = Some r /\
    match r with
    | None => forall b u, b ∈ chain -> eva !! b = Some u -> ev_eq u ev = false
    | Some b => b ∈ chain /\ exists u, eva !! b = Some u /\ ev_eq u ev = true
    end.
Proof.
  induction chain as [|b chain IH]; intros Hall.
  - exists None. split; [reflexivity|]. intros b u Hb. inversion Hb.
  - apply Forall_cons in Hall as [[u Hu] Hall]. simpl. rewrite Hu. simpl.
    destruct (ev_eq u ev) eqn:He.
    + exists (Some b). split; [reflexivity|]. split; [left|]. eauto.
    + destruct (IH Hall) as (r & Hr & Hspec). exists r. split; [exact Hr|].
      destruct r as [b'|].
      * destruct Hspec as [Hin Hex]. split; [right; exact Hin|exact Hex].
      * intros b' u' Hin Hu'. apply elem_of_cons in Hin as [->|Hin].
        -- congruence.
        -- eauto.
Qed.

(** The invariant of the welding loop after [i] vertices. *)
Record weld_inv (eva : list ExportVertex) (bucketCount : N) (i : nat)
    (st : Welder) : Prop := {
  inv_buckets : length (hashTable st) = N.to_nat bucketCount;
  inv_chain : forall k chain b,
      hashTable st !! k = Some chain -> b ∈ chain ->
      b < i /\ exists u, eva !! b = Some u /\ bucket_of bucketCount u = k
                         /\ u ∈ unifiedVA st;
  inv_kept : forall u, u ∈ unifiedVA st ->
      exists chain b, hashTable st !! bucket_of bucketCount u = Some chain
                      /\ b ∈ chain /\ eva !! b = Some u;
  inv_length : length (indexTable st) = i;
  inv_valid : Forall (fun t => t < length (unifiedVA st)) (indexTable st);
}.

Lemma unify_step_inv (eva : list ExportVertex) (bucketCount : N) (i : nat)
    (ev : ExportVertex) (st : Welder) :
  (0 < bucketCount)%N ->
  eva !! i = Some ev ->
  weld_inv eva bucketCount i st ->
  exists st', unify_step vector_ne color_ne eva bucketCount i ev st = Some st'
    /\ weld_inv eva bucketCount (S i) st'
    /\ unifiedVA st' =
       if existsb (fun u => ev_eq u ev) (unifiedVA st) then unifiedVA st
       else unifiedVA st ++ [ev].
Proof.
  intros Hpos Hev [Hb Hc Hk Hl Hv]. unfold unify_step.
  pose proof (bucket_of_lt bucketCount ev Hpos) as Hlt.
  destruct (lookup_lt_is_Some_2 (hashTable st) (bucket_of bucketCount ev))
    as [chain Hchain]; [lia|].
  rewrite Hchain. simpl.
  destruct (find_index_scan eva ev chain) as (r & Hr & Hspec).
  { apply Forall_forall. intros b Hin.
    destruct (Hc _ _ _ Hchain Hin) as (_ & u & Hu & _). eauto. }
  rewrite Hr. simpl. destruct r as [b|].
  - (* an equal vertex was kept before *)
    destruct Hspec as (Hin & u & Hu & He).
    destruct (Hc _ _ _ Hchain Hin) as (Hbi & u' & Hu' & _ & Hkept).
    assert (u' = u) by congruence. subst u'.
    destruct (lookup_lt_is_Some_2 (indexTable st) b) as [t Ht]; [lia|].
    rewrite Ht. simpl. eexists. split; [reflexivity|]. split.
    + constructor; simpl.
      * exact Hb.
      * intros k c b' Hk' Hb'. destruct (Hc _ _ _ Hk' Hb') as [? ?]. split; [lia|assumption].
      * exact Hk.
      * rewrite length_app. simpl. lia.
      * apply Forall_app. split; [exact Hv|]. constructor; [|constructor].
        eapply Forall_lookup_1 in Hv; eauto.
    + simpl. replace (existsb _ _) with true; [reflexivity|].
      symmetry. apply existsb_exists. exists u. split; [|exact He].
      apply list_elem_of_In. exact Hkept.
  - (* a new vertex *)
    eexists. split; [reflexivity|]. split.
    + constructor; simpl.
      * rewrite length_insert. exact Hb.
      * intros k c b Hk' Hb'.
        destruct (decide (k = bucket_of bucketCount ev)) as [->|Hne].
        -- rewrite list_lookup_insert_eq in Hk' by lia. injection Hk' as <-.
           apply elem_of_app in Hb' as [Hb'|Hb'].
           ++ destruct (Hc _ _ _ Hchain Hb') as (? & u & ? & ? & ?).
              split; [lia|]. exists u. repeat split; try assumption.
              apply elem_of_app. left. assumption.
           ++ apply list_elem_of_singleton in Hb'. subst b. split; [lia|].
              exists ev. repeat split; try assumption.
              apply elem_of_app. right. apply list_elem_of_singleton. reflexivity.
        -- rewrite list_lookup_insert_ne in Hk' by congruence.
           destruct (Hc _ _ _ Hk' Hb') as (? & u & ? & ? & ?).
           split; [lia|]. exists u. repeat split; try assumption.
           apply elem_of_app. left. assumption.
      * intros u Hu. apply elem_of_app in Hu as [Hu|Hu].
        -- destruct (Hk u Hu) as (c & b & Hcu & Hbc & Hbu).
           destruct (decide (bucket_of bucketCount u = bucket_of bucketCount ev)) as [Heq|Hne].
           ++ rewrite Heq in *. assert (c = chain) by congruence. subst c.
              exists (chain ++ [i]), b. split; [|split; [|assumption]].
              ** apply list_lookup_insert_eq. lia.
              ** apply elem_of_app. left. assumption.
           ++ exists c, b. split; [|split; assumption].
              rewrite list_lookup_insert_ne by congruence. assumption.
        -- apply list_elem_of_singleton in Hu. subst u.
           exists (chain ++ [i]), i. split; [|split; [|assumption]].
           ** apply list_lookup_insert_eq. lia.
           ** apply elem_of_app. right. apply list_elem_of_singleton. reflexivity.
      * rewrite length_app. simpl. lia.
      * apply Forall_app. split.
        -- eapply Forall_impl; [exact Hv|]. intros t Ht. simpl in Ht.
           rewrite length_app. simpl. lia.
        -- constructor; [|constructor]. rewrite length_app. simpl. lia.
    + simpl. replace (existsb _ _) with false; [reflexivity|].
      symmetry. apply not_true_is_false. intros Hex.
      apply existsb_exists in Hex as (u & Hin & He).
      apply list_elem_of_In in Hin.
      destruct (Hk u Hin) as (c & b & Hcu & Hbc & Hbu).
      rewrite (ev_eq_bucket bucketCount _ _ He) in Hcu.
      assert (c = chain) by congruence. subst c.
      specialize (Hspec b u Hbc Hbu). congruence.
Qed.

Lemma unify_loop_inv (eva : list ExportVertex) (bucketCount : N)
    (todo : list ExportVertex) :
  (0 < bucketCount)%N ->
  forall (i : nat) (st : Welder),
    (forall j ev, todo !! j = Some ev -> eva !! (i + j) = Some ev) ->
    weld_inv eva bucketCount i st ->
    exists st', unify_loop vector_ne color_ne eva bucketCount i todo st = Some st'
      /\ weld_inv eva bucketCount (i + length todo) st'
      /\ unifiedVA st' = first_occurrences vector_ne color_ne (unifiedVA st) todo.
Proof.
  intros Hpos. induction todo as [|ev todo IH]; intros i st Hsuf Hinv.
  - exists st. simpl. rewrite Nat.add_0_r. auto.
  - simpl.
    destruct (unify_step_inv eva bucketCount i ev st Hpos) as (st1 & Hs & Hinv1 & Hu1);
      [specialize (Hsuf 0 ev eq_refl); rewrite Nat.add_0_r in Hsuf; exact Hsuf|exact Hinv|].
    rewrite Hs. simpl.
    destruct (IH (S i) st1) as (st' & Hl & Hinv' & Hu'); [|exact Hinv1|].
    { intros j e Hj. specialize (Hsuf (S j) e Hj).
      replace (S i + j) with (i + S j) by lia. exact Hsuf. }
    exists st'. split; [exact Hl|]. split.
    + replace (i + S (length todo)) with (S i + length todo) by lia. exact Hinv'.
    + rewrite Hu', Hu1. destruct (existsb _ _); reflexivity.
Qed.

Lemma bucket_count_pos (n : nat) : (0 < bucket_count n)%N.
Proof.
  rewrite bucket_count_log2. apply N.neq_0_lt_0, N.pow_nonzero. discriminate.
Qed.

(** *** Lengths through [deindex_mesh] *)

Lemma triangle_length (va : list MeshVertex) (face : Face) (fi a b c : nat)
    (t : list ExportVertex) :
  triangle va face fi a b c = Some t -> length t = 3.
Proof.
  unfold triangle. intros H.
  destruct (corner va face fi a); simpl in H; [|discriminate].
  destruct (corner va face fi b); simpl in H; [|discriminate].
  destruct (corner va face fi c); simpl in H; [|discriminate].
  injection H as <-. reflexivity.
Qed.



Lemma deindex_faces_length (va : list MeshVertex) (faces : list Face) :
  forall (fi : nat) (eva : list ExportVertex) (mt : list nat)
         (eva' : list ExportVertex) (mt' : list nat),
    deindex_faces va faces fi eva mt = Some (eva', mt') ->
    length eva' = length eva + corner_count faces.
Proof.
  induction faces as [|face faces IH]; intros fi eva mt eva' mt' H; simpl in H.
  - injection H as <- <-. simpl. lia.
  - destruct (triangle va face fi 0 1 2) as [t1|] eqn:Ht1; simpl in H; [|discriminate].
    apply triangle_length in Ht1. simpl.
    destruct (length (f_vertices face) =? 4)%nat.
    + destruct (triangle va face fi 0 2 3) as [t2|] eqn:Ht2; simpl in H; [|discriminate].
      apply triangle_length in Ht2.
      apply IH in H. rewrite H, !length_app. lia.
    + simpl in H. apply IH in H. rewrite H, length_app. lia.
Qed.

Lemma assign_corners_app {A} (upd : A -> ExportVertex -> ExportVertex)
    (vals : list A) :
  forall (vi : nat) (pre cur post : list ExportVertex),
    length pre = vi -> length cur = length vals ->
    assign_corners upd vals vi (pre ++ cur ++ post)
    = Some (pre ++ zip_with upd vals cur ++ post, vi + length vals).
Proof.
  induction vals as [|a vals IH]; intros vi pre cur post Hpre Hcur.
  - destruct cur; [|discriminate]. simpl. rewrite Nat.add_0_r. reflexivity.
  - destruct cur as [|c cur]; [discriminate|]. simpl in Hcur.
    cbn [assign_corners].
    assert (Hl : (pre ++ (c :: cur) ++ post) !! vi = Some c).
    { simpl. apply list_lookup_middle. lia. }
    rewrite Hl. simpl.
    replace (<[vi := upd a c]> (pre ++ c :: cur ++ post))
      with ((pre ++ [upd a c]) ++ cur ++ post).
    + rewrite IH; [|rewrite length_app; simpl; lia|lia].
      rewrite <- app_assoc. simpl. do 2 f_equal. lia.
    + rewrite <- app_assoc. simpl.
      rewrite insert_app_r_alt by lia.
      replace (vi - length pre) with 0 by lia. reflexivity.
Qed.

Lemma zip_with_app_split {A B C} (f : A -> B -> C) (l1 l2 : list A) (k : list B) :
  length l1 <= length k ->
  zip_with f (l1 ++ l2) k
  = zip_with f l1 (take (length l1) k) ++ zip_with f l2 (drop (length l1) k).
Proof.
  intros Hle. rewrite <- (take_drop (length l1) k) at 1.
  apply zip_with_app. rewrite length_take. lia.
Qed.

Lemma paint_faces_spec {D A} (first second : D -> list A)
    (upd : A -> ExportVertex -> ExportVertex) (data : list D) :
  (forall d, length (first d) = 3 /\ length (second d) = 3) ->
  forall (faces : list Face) (fi vi : nat) (pre cur post eva' : list ExportVertex),
    length pre = vi -> length cur = corner_count faces ->
    paint_faces first second upd faces data fi vi (pre ++ cur ++ post) = Some eva' ->
    let vals := painted_values first second faces (drop fi data) in
    length vals = corner_count faces
    /\ eva' = pre ++ zip_with upd vals cur ++ post.
Proof.
  intros Hlen. induction faces as [|face faces IH];
    intros fi vi pre cur post eva' Hpre Hcur H; simpl in H.
  - injection H as <-. simpl in Hcur. destruct cur; [|discriminate].
    simpl. split; [reflexivity|]. destruct (drop fi data); reflexivity.
  - destruct (data !! fi) as [d|] eqn:Hd; simpl in H; [|discriminate].
    rewrite (drop_S _ _ _ Hd). cbn [painted_values corner_count] in *.
    destruct (Hlen d) as [Hf Hs].
    destruct (length (f_vertices face) =? 4)%nat.
    + rewrite <- (take_drop 3 cur) in H. rewrite <- (take_drop 3 (drop 3 cur)) in H.
      rewrite <- !app_assoc in H.
      rewrite assign_corners_app in H;
        [|assumption|rewrite length_take; lia].
      simpl in H.
      replace (pre ++ zip_with upd (first d) (take 3 cur)
               ++ take 3 (drop 3 cur) ++ drop 3 (drop 3 cur) ++ post)
        with ((pre ++ zip_with upd (first d) (take 3 cur))
               ++ take 3 (drop 3 cur) ++ drop 3 (drop 3 cur) ++ post) in H
        by (rewrite <- app_assoc; reflexivity).
      rewrite assign_corners_app in H;
        [|rewrite length_app, length_zip_with, length_take; lia
         |rewrite length_take, length_drop; lia].
      simpl in H.
      replace ((pre ++ zip_with upd (first d) (take 3 cur))
               ++ zip_with upd (second d) (take 3 (drop 3 cur))
               ++ drop 3 (drop 3 cur) ++ post)
        with ((pre ++ zip_with upd (first d) (take 3 cur)
                   ++ zip_with upd (second d) (take 3 (drop 3 cur)))
               ++ drop 3 (drop 3 cur) ++ post) in H
        by (rewrite <- !app_assoc; reflexivity).
      apply IH in H;
        [|rewrite !length_app, !length_zip_with, !length_take, !length_drop; lia
         |rewrite !length_drop; lia].
      destruct H as [Hv ->]. split; [rewrite !length_app; lia|].
      rewrite zip_with_app_split by lia.
      rewrite zip_with_app_split by (rewrite length_drop; lia).
      rewrite Hf, Hs, <- !app_assoc. reflexivity.
    + simpl in H. rewrite <- (take_drop 3 cur) in H.
      rewrite <- !app_assoc in H.
      rewrite assign_corners_app in H;
        [|assumption|rewrite length_take; lia].
      simpl in H.
      replace (pre ++ zip_with upd (first d) (take 3 cur) ++ drop 3 cur ++ post)
        with ((pre ++ zip_with upd (first d) (take 3 cur)) ++ drop 3 cur ++ post) in H
        by (rewrite <- app_assoc; reflexivity).
      apply IH in H;
        [|rewrite !length_app, !length_zip_with, !length_take; lia
         |rewrite !length_drop; lia].
      destruct H as [Hv ->]. split; [rewrite !length_app; simpl; lia|].
      simpl. rewrite zip_with_app_split by lia.
      rewrite Hf, <- !app_assoc. reflexivity.
Qed.


Lemma paint_faces_whole {D A} (first second : D -> list A)
    (upd : A -> ExportVertex -> ExportVertex) (data : list D)
    (faces : list Face) (eva eva' : list ExportVertex) :
  (forall d, length (first d) = 3 /\ length (second d) = 3) ->
  length eva = corner_count faces ->
  paint_faces first second upd faces data 0 0 eva = Some eva' ->
  let vals := painted_values first second faces data in
  length vals = length eva /\ eva' = zip_with upd vals eva.
Proof.
  intros Hlen Hcount H.
  pose proof (paint_faces_spec first second upd data Hlen faces 0 0 [] eva [] eva')
    as Hspec.
  simpl in Hspec. rewrite app_nil_r in Hspec.
  destruct (Hspec eq_refl Hcount H) as [Hv He].
  rewrite app_nil_r in He. rewrite Hcount. split; assumption.
Qed.

Lemma map_zip_with_set {A B} (proj : ExportVertex -> B)
    (upd : A -> ExportVertex -> ExportVertex) (vals : list A) :
  (forall a e, proj (upd a e) = proj e) ->
  forall eva : list ExportVertex,
    length vals = length eva ->
    map proj (zip_with upd vals eva) = map proj eva.
Proof.
  intros Hproj. induction vals as [|a vals IH]; intros [|e eva] Hl;
    try discriminate; [reflexivity|].
  simpl. rewrite Hproj, IH by (simpl in Hl; lia). reflexivity.
Qed.

Lemma map_zip_with_get {A} (proj : ExportVertex -> A)
    (upd : A -> ExportVertex -> ExportVertex) (vals : list A) :
  (forall a e, proj (upd a e) = a) ->
  forall eva : list ExportVertex,
    length vals = length eva ->
    map proj (zip_with upd vals eva) = vals.
Proof.
  intros Hproj. induction vals as [|a vals IH]; intros [|e eva] Hl;
    try discriminate; [reflexivity|].
  simpl. rewrite Hproj, IH by (simpl in Hl; lia). reflexivity.
Qed.

Lemma Hash_texcoords (e : ExportVertex) :
  texcoord0 (Hash pyhash e) = texcoord0 e /\ texcoord1 (Hash pyhash e) = texcoord1 e.
Proof.
  unfold Hash. destruct (position e) as [[? ?] ?], (normal e) as [[? ?] ?],
    (color e) as [[? ?] ?]. split; reflexivity.
Qed.

Lemma painted_uvs (faces : list Face) :
  forall data : list UVFace,
    painted_values uvs_first uvs_second faces data
    = map reverse_tcy (corner_uvs faces data).
Proof.
  induction faces as [|face faces IH]; intros [|tf data]; try reflexivity.
  simpl. rewrite IH. destruct (length (f_vertices face) =? 4)%nat; simpl;
    rewrite ?map_app; reflexivity.
Qed.

(** What [deindex_mesh] returns: one vertex per emitted corner, whose
    texture coordinates are the V-reversed source coordinates. *)
Lemma deindex_mesh_shape (mesh : Mesh) (mt : list nat)
    (eva : list ExportVertex) (mt' : list nat) :
  deindex_mesh pyhash mesh mt = Some (eva, mt') ->
  length eva = corner_count (tessfaces mesh)
  /\ (forall tf0 more, tessface_uv_textures mesh = tf0 :: more ->
      map texcoord0 eva = map reverse_tcy (corner_uvs (tessfaces mesh) tf0))
  /\ (forall tf0 tf1 more, tessface_uv_textures mesh = tf0 :: tf1 :: more ->
      map texcoord1 eva = map reverse_tcy (corner_uvs (tessfaces mesh) tf1)).
Proof.
  unfold deindex_mesh. intros H.
  destruct (deindex_faces _ _ _ _ _) as [[eva0 mt0]|] eqn:Hfaces; simpl in H;
    [|discriminate].
  apply deindex_faces_length in Hfaces. simpl in Hfaces.
  (* colours *)
  assert (Hc : exists eva1,
    match tessface_vertex_colors mesh with
    | [] => Some eva0
    | colorFace :: _ =>
        paint_faces colors_first colors_second set_color (tessfaces mesh)
          colorFace 0 0 eva0
    end = Some eva1 /\ length eva1 = corner_count (tessfaces mesh)
    /\ map texcoord0 eva1 = map texcoord0 eva0
    /\ map texcoord1 eva1 = map texcoord1 eva0).
  { destruct (tessface_vertex_colors mesh) as [|cf ?].
    - exists eva0. auto.
    - destruct (paint_faces _ _ _ _ _ _ _ _) as [eva1|] eqn:Hp; [|discriminate].
      exists eva1. split; [reflexivity|].
      apply paint_faces_whole in Hp as [Hv ->]; [|intros; split; reflexivity|assumption].
      rewrite length_zip_with, Hv, Nat.min_id. split; [assumption|].
      split; apply map_zip_with_set; auto. }
  destruct Hc as (eva1 & Hc & Hl1 & H10 & H11). rewrite Hc in H. simpl in H.
  destruct (tessface_uv_textures mesh) as [|tf0 more] eqn:Huv.
  - simpl in H. injection H as <- <-. rewrite length_map.
    split; [assumption|]. split; intros; discriminate.
  - destruct (paint_faces _ _ _ _ tf0 _ _ _) as [eva2|] eqn:Hp0; simpl in H;
      [|discriminate].
    apply paint_faces_whole in Hp0 as [Hv0 ->];
      [|intros; split; reflexivity|assumption].
    rewrite painted_uvs in *.
    destruct more as [|tf1 more'].
    + simpl in H. injection H as <- <-.
      rewrite length_map, length_zip_with, Hv0, Nat.min_id.
      split; [assumption|]. split.
      * intros tf more0 Heq. injection Heq as <- <-.
        rewrite map_map.
        rewrite (map_ext _ texcoord0) by (intros e; apply Hash_texcoords).
        apply map_zip_with_get; auto.
      * intros; discriminate.
    + destruct (paint_faces _ _ _ _ tf1 _ _ _) as [eva3|] eqn:Hp1; simpl in H;
        [|discriminate].
      apply paint_faces_whole in Hp1 as [Hv1 ->];
        [|intros; split; reflexivity
         |rewrite length_zip_with, Hv0, Nat.min_id; assumption].
      rewrite painted_uvs in *.
      injection H as <- <-.
      rewrite length_map, length_zip_with, Hv1, Nat.min_id,
        length_zip_with, Hv0, Nat.min_id.
      split; [assumption|]. split.
      * intros tf more0 Heq. injection Heq as <- <-.
        rewrite map_map.
        rewrite (map_ext _ texcoord0) by (intros e; apply Hash_texcoords).
        rewrite map_zip_with_set by auto.
        apply map_zip_with_get; auto.
      * intros tf tf' more0 Heq. injection Heq as <- <- <-.
        rewrite map_map.
        rewrite (map_ext _ texcoord1) by (intros e; apply Hash_texcoords).
        apply map_zip_with_get; auto.
Qed.

Lemma corner_count_mod3 (faces : list Face) : corner_count faces mod 3 = 0.
Proof.
  assert (H : exists k, corner_count faces = k * 3).
  { induction faces as [|face faces [k IH]]; [exists 0; reflexivity|].
    simpl. rewrite IH. destruct (length (f_vertices face) =? 4)%nat.
    - exists (2 + k). lia.
    - exists (1 + k). lia. }
  destruct H as [k ->]. apply Nat.Div0.mod_mul.
Qed.

(** C2. Welding returns: the vertices kept are the first occurrences, in
    input order; the index table has one entry per input vertex; every entry
    is a valid index into the kept vertices; and for an input produced by
    [deindex_mesh] the table's length is a multiple of three. *)
Theorem unify_vertices_welds (export_vertex_array : list ExportVertex) :
  exists (unifiedVA : list ExportVertex) (indexTable : list nat),
    unify_vertices vector_ne color_ne export_vertex_array []
      = Some (unifiedVA, indexTable)
    /\ unifiedVA = first_occurrences vector_ne color_ne [] export_vertex_array
    /\ length indexTable = length export_vertex_array
    /\ Forall (fun t => t < length unifiedVA) indexTable
    /\ (forall (mesh : Mesh) (mt mt' : list nat),
          deindex_mesh pyhash mesh mt = Some (export_vertex_array, mt') ->
          length indexTable mod 3 = 0).
Proof.
  unfold unify_vertices.
  set (bc := bucket_count (length export_vertex_array)).
  pose proof (bucket_count_pos (length export_vertex_array)) as Hpos. fold bc in Hpos.
  destruct (unify_loop_inv export_vertex_array bc export_vertex_array Hpos 0
              {| hashTable := replicate (N.to_nat bc) [];
                 unifiedVA := []; indexTable := [] |})
    as (st & Hloop & [Hb Hc Hk Hl Hv] & Hu).
  - intros j ev Hj. exact Hj.
  - constructor; simpl.
    + apply length_replicate.
    + intros k chain b Hk Hb. apply lookup_replicate in Hk as [-> _].
      inversion Hb.
    + intros u Hu. inversion Hu.
    + reflexivity.
    + constructor.
  - rewrite Hloop. simpl. exists (unifiedVA st), (indexTable st).
    simpl in Hl. repeat split; try assumption.
    intros mesh mt mt' Hd. rewrite Hl.
    apply deindex_mesh_shape in Hd as [-> _]. apply corner_count_mod3.
Qed.

End WeldFacts.

(** ** The fast path *)

Section FastFacts.
Import Fast.
#[local] Open Scope nat_scope.

Lemma store_Some (data : list float) (i : nat) (x : float) (d : list float) :
  store data i x = Some d -> i < length data /\ d = <[i := x]> data.
Proof.
  unfold store. destruct (Nat.ltb_spec i (length data)) as [Hlt|Hge]; [|discriminate].
  intros Heq. injection Heq as <-. split; [assumption|reflexivity].
Qed.

(** One [store_uv]: the two slots of vertex [i] are written, every other
    slot is kept. *)
Lemma store_uv_Some (data : list float) (i : nat) (uv : Weld.UV) (d : list float) :
  store_uv data i uv = Some d ->
  length d = length data
  /\ d !! (i * 2) = Some (fst uv)
  /\ d !! (i * 2 + 1) = Some (PrimFloat.sub 1%float (snd uv))
  /\ (forall k, k <> i * 2 -> k <> i * 2 + 1 -> d !! k = data !! k).
Proof.
  unfold store_uv. intros H.
  destruct (store data (i * 2) (fst uv)) as [d1|] eqn:H1; simpl in H; [|discriminate].
  apply store_Some in H1 as [Hl1 ->]. apply store_Some in H as [Hl2 ->].
  rewrite length_insert in Hl2. rewrite !length_insert.
  split; [reflexivity|]. split; [|split].
  - rewrite list_lookup_insert_ne by lia. apply list_lookup_insert_eq. lia.
  - apply list_lookup_insert_eq. rewrite length_insert. lia.
  - intros k Hk1 Hk2. rewrite !list_lookup_insert_ne by lia. reflexivity.
Qed.

(** The two texture-coordinate arrays after the loop has run over [todo]
    starting at vertex number [i]. *)
Lemma fill_loop_texcoords (has_tex1 has_col : bool) (todo : list Vertex) :
  forall (i : nat) (a a' : Arrays),
    fill_loop true has_tex1 has_col i todo a = Some a' ->
    (length (t0data a') = length (t0data a)
     /\ (forall k, k < i * 2 -> t0data a' !! k = t0data a !! k)
     /\ (forall j vtx, todo !! j = Some vtx -> flipped_at 0 (t0data a') (i + j) vtx))
    /\ (has_tex1 = true ->
        length (t1data a') = length (t1data a)
        /\ (forall k, k < i * 2 -> t1data a' !! k = t1data a !! k)
        /\ (forall j vtx, todo !! j = Some vtx -> flipped_at 1 (t1data a') (i + j) vtx)).
Proof.
  induction todo as [|vtx todo IH]; intros i a a' H; simpl in H.
  - injection H as <-. split; [|intros _]; (split; [reflexivity|]);
      (split; [reflexivity|]); intros j v Hj; discriminate.
  - destruct (fill_vertex true has_tex1 has_col i vtx a) as [a1|] eqn:Hv;
      simpl in H; [|discriminate].
    apply IH in H as [(Hl0 & Hk0 & Hp0) H1].
    unfold fill_vertex in Hv.
    destruct (store3 (vdata a) i (co vtx)) as [vd|]; simpl in Hv; [|discriminate].
    destruct (store3 (ndata a) i (normal vtx)) as [nd|]; simpl in Hv; [|discriminate].
    destruct (uvs vtx !! 0) as [uv0|] eqn:Huv0; simpl in Hv; [|discriminate].
    destruct (store_uv (t0data a) i uv0) as [t0|] eqn:Ht0; simpl in Hv; [|discriminate].
    apply store_uv_Some in Ht0 as (Hlt0 & Ha0 & Hb0 & Hother0).
    split.
    + destruct has_tex1.
      * destruct (uvs vtx !! 1) as [uv1|]; simpl in Hv; [|discriminate].
        destruct (store_uv (t1data a) i uv1) as [t1|]; simpl in Hv; [|discriminate].
        destruct (if has_col then _ else _) as [cd|]; simpl in Hv; [|discriminate].
        injection Hv as <-. simpl in *.
        split; [congruence|]. split.
        -- intros k Hk. rewrite Hk0 by lia. apply Hother0; lia.
        -- intros [|j] v Hj; simpl in Hj.
           ++ injection Hj as <-. exists uv0. rewrite Nat.add_0_r.
              rewrite !Hk0 by lia. auto.
           ++ replace (i + S j) with (S i + j) by lia. apply Hp0. exact Hj.
      * simpl in Hv.
        destruct (if has_col then _ else _) as [cd|]; simpl in Hv; [|discriminate].
        injection Hv as <-. simpl in *.
        split; [congruence|]. split.
        -- intros k Hk. rewrite Hk0 by lia. apply Hother0; lia.
        -- intros [|j] v Hj; simpl in Hj.
           ++ injection Hj as <-. exists uv0. rewrite Nat.add_0_r.
              rewrite !Hk0 by lia. auto.
           ++ replace (i + S j) with (S i + j) by lia. apply Hp0. exact Hj.
    + intros ->. destruct (H1 eq_refl) as (Hl1 & Hk1 & Hp1).
      destruct (uvs vtx !! 1) as [uv1|] eqn:Huv1; simpl in Hv; [|discriminate].
      destruct (store_uv (t1data a) i uv1) as [t1|] eqn:Ht1; simpl in Hv; [|discriminate].
      apply store_uv_Some in Ht1 as (Hlt1 & Ha1 & Hb1 & Hother1).
      destruct (if has_col then _ else _) as [cd|]; simpl in Hv; [|discriminate].
      injection Hv as <-. simpl in *.
      split; [congruence|]. split.
      * intros k Hk. rewrite Hk1 by lia. apply Hother1; lia.
      * intros [|j] v Hj; simpl in Hj.
        -- injection Hj as <-. exists uv1. rewrite Nat.add_0_r.
           rewrite !Hk1 by lia. auto.
        -- replace (i + S j) with (S i + j) by lia. apply Hp1. exact Hj.
Qed.

End FastFacts.

(** ** Texture coordinates on both mesh paths *)

Section TexcoordFacts.
#[local] Open Scope nat_scope.

(** C10. On both mesh paths every exported texture coordinate is the
    source coordinate with its second component reversed, [(u, 1.0 - v)],
    for UV layer 0 and for UV layer 1: in [deindex_mesh] for every emitted
    face corner, in the fast path for every vertex of the vertex list. *)
Theorem exported_texcoords_reverse_v :
  (forall (pyhash : float -> Z) (mesh : Weld.Mesh) (mt : list nat)
          (eva : list Weld.ExportVertex) (mt' : list nat),
      Weld.deindex_mesh pyhash mesh mt = Some (eva, mt') ->
      (forall tf0 more,
          Weld.tessface_uv_textures mesh = tf0 :: more ->
          map Weld.texcoord0 eva
          = map (fun uv : Weld.UV => (fst uv, PrimFloat.sub 1%float (snd uv)))
              (Weld.corner_uvs (Weld.tessfaces mesh) tf0))
      /\ (forall tf0 tf1 more,
          Weld.tessface_uv_textures mesh = tf0 :: tf1 :: more ->
          map Weld.texcoord1 eva
          = map (fun uv : Weld.UV => (fst uv, PrimFloat.sub 1%float (snd uv)))
              (Weld.corner_uvs (Weld.tessfaces mesh) tf1)))
  /\ (forall (export_uvs export_vcols : bool) (num_uv_layers num_colors : nat)
             (vert_list : list Fast.Vertex) (a : Fast.Arrays),
      Fast.export_mesh_fast_arrays export_uvs export_vcols num_uv_layers
        num_colors vert_list = Some a ->
      (export_uvs && (0 <? num_uv_layers) = true ->
       forall i vtx, vert_list !! i = Some vtx ->
                     Fast.flipped_at 0 (Fast.t0data a) i vtx)
      /\ (export_uvs && (0 <? num_uv_layers) && (1 <? num_uv_layers) = true ->
          forall i vtx, vert_list !! i = Some vtx ->
                        Fast.flipped_at 1 (Fast.t1data a) i vtx)).
Proof.
  split.
  - intros pyhash mesh mt eva mt' Hd.
    apply deindex_mesh_shape in Hd as (_ & H0 & H1). split; assumption.
  - intros export_uvs export_vcols n nc vert_list a Hfill.
    unfold Fast.export_mesh_fast_arrays in Hfill.
    destruct (export_uvs && (0 <? n)) eqn:Htex.
    + apply fill_loop_texcoords in Hfill as [(_ & _ & H0) H1]. split.
      * intros _ i vtx Hi. apply (H0 i vtx Hi).
      * intros Ht1 i vtx Hi. simpl in Ht1.
        destruct (H1 Ht1) as (_ & _ & Hp). apply (Hp i vtx Hi).
    + split; intros Hf; simpl in Hf; discriminate.
Qed.

Lemma exported_texcoords_reverse_v_witness :
  (exists eva mt',
      Weld.deindex_mesh Weld.flat_hash Weld.unit_quad [] = Some (eva, mt')
      /\ map Weld.texcoord0 eva
         = [(0, 1); (1, 1); (1, 0); (0, 1); (1, 0); (0, 0)]%float
      /\ map Weld.texcoord1 eva
         = [(0.25, 0.75); (0.75, 0.75); (0.75, 0.25);
            (0.25, 0.75); (0.75, 0.25); (0.25, 0.25)]%float)
  /\ (exists a,
      Fast.export_mesh_fast_arrays true false 2 0 Fast.two_vertices = Some a
      /\ Fast.flipped_at 0 (Fast.t0data a) 1 {|
           Fast.co := (1, 0, 0)%float; Fast.normal := (0, 0, 1)%float;
           Fast.uvs := [(1, 0)%float; (0, 1)%float];
           Fast.col := (0, 0, 0)%float |}).
Proof.
  destruct exported_texcoords_reverse_v as [Hquality Hfast]. split.
  - destruct (Weld.deindex_mesh Weld.flat_hash Weld.unit_quad [])
      as [[eva mt']|] eqn:Hd; [|vm_compute in Hd; discriminate].
    exists eva, mt'. split; [reflexivity|].
    destruct (Hquality _ _ _ _ _ Hd) as [H0 H1]. split.
    + rewrite (H0 _ _ eq_refl). vm_compute. reflexivity.
    + rewrite (H1 _ _ _ eq_refl). vm_compute. reflexivity.
  - destruct (Fast.export_mesh_fast_arrays true false 2 0 Fast.two_vertices)
      as [a|] eqn:Ha; [|vm_compute in Ha; discriminate].
    exists a. split; [reflexivity|].
    destruct (Hfast _ _ _ _ _ _ Ha) as [H0 _].
    apply (H0 eq_refl 1). reflexivity.
Defined.

End TexcoordFacts.

(** ** Worked welding scenario *)

(** A single quad with four distinct corners welds to four vertices and the
    two triangles 0 1 2 and 0 2 3. *)
Example unit_quad_welds :
  (r ← Weld.deindex_mesh Weld.flat_hash Weld.unit_quad [];
   w ← Weld.unify_vertices Weld.vec3_ne Weld.vec3_ne r.1 [];
   Some (length w.1, w.2, r.2))
  = Some (4%nat, [0; 1; 2; 0; 2; 3]%nat, [0; 0]%nat).
Proof. vm_compute. reflexivity. Qed.

Lemma unify_vertices_welds_witness :
  exists eva mt' unifiedVA indexTable,
    Weld.deindex_mesh Weld.flat_hash Weld.unit_quad [] = Some (eva, mt')
    /\ Weld.unify_vertices Weld.vec3_ne Weld.vec3_ne eva []
       = Some (unifiedVA, indexTable)
    /\ length indexTable = length eva
    /\ Forall (fun t => (t < length unifiedVA)%nat) indexTable
    /\ (length indexTable mod 3 = 0)%nat.
Proof.
  destruct (Weld.deindex_mesh Weld.flat_hash Weld.unit_quad [])
    as [[eva mt']|] eqn:Hd; [|vm_compute in Hd; discriminate].
  destruct (unify_vertices_welds Weld.flat_hash Weld.vec3_ne Weld.vec3_ne eva)
    as (u & t & Hu & _ & Hl & Hv & Hm).
  exists eva, mt', u, t. repeat split; try assumption.
  exact (Hm _ _ _ Hd).
Defined.

(** ** Skin packing *)

Section SkinFacts.
Import Skin.

(** C1 on two inputs. A first vertex in one group with weight 0.5 and a
    second in two groups with weight 0.25 each: the scaling loop addresses
    slot 0 of the whole array instead of the second vertex's first slot, so
    the packed weights are 2.0 | 0.25, 0.5. A single vertex with the weights
    0.4, 0.3, 0.2, 0.06, 0.04: the divisor is the total of all five, which is
    1.0, so the four retained weights are emitted unscaled and sum to 0.96. *)
Theorem packed_weights_not_normalised :
  export_skin_quality five_names five_names
    [vertex_of_weights [0.5%float];
     vertex_of_weights [0.25%float; 0.25%float]] [0; 1]%nat
  = Some {| bone_count_array := [1; 2]%nat;
            bone_index_array := [0; 1; 0];
            bone_weight_array := [2%float; 0.25%float; 0.5%float];
            warn_bones := false |}
  /\ export_skin_quality five_names five_names
       [vertex_of_weights
          [0.4%float; 0.3%float; 0.2%float; 0.06%float; 0.04%float]] [0%nat]
     = Some {| bone_count_array := [4%nat];
               bone_index_array := [0; 1; 2; 3];
               bone_weight_array := [0.4%float; 0.3%float; 0.2%float; 0.06%float];
               warn_bones := true |}.
Proof. split; vm_compute; reflexivity. Qed.

(** C5 on a vertex with the weights 0.125, 0.125, 0.125, 0.125, 0.5 in
    groups 0 to 4: the list is cut to its first four entries before it is
    sorted, so bones 3, 2, 1, 0 are emitted and the heaviest influence,
    bone 4, is dropped. *)
Theorem clamp_keeps_first_four :
  export_skin_quality five_names five_names
    [vertex_of_weights
       [0.125%float; 0.125%float; 0.125%float; 0.125%float; 0.5%float]]
    [0%nat]
  = Some {| bone_count_array := [4%nat];
            bone_index_array := [3; 2; 1; 0];
            bone_weight_array :=
              [0.125%float; 0.125%float; 0.125%float; 0.125%float];
            warn_bones := true |}.
Proof. vm_compute. reflexivity. Qed.

End SkinFacts.

(** ** Flattened arrays *)

Section SerialFacts.
Import Weld Serial.
#[local] Open Scope nat_scope.

Lemma emit_collect {A} (item : nat -> option (list A)) (n : nat) :
  forall (k : nat) (va : list A),
    emit item n k va = (xs ← collect item k n; Some (va ++ xs, k + n)).
Proof.
  induction n as [|n IH]; intros k va; simpl.
  - rewrite app_nil_r, Nat.add_0_r. reflexivity.
  - destruct (item k) as [x|]; simpl; [|reflexivity].
    rewrite IH. destruct (collect item (S k) n) as [xs|]; simpl; [|reflexivity].
    rewrite <- app_assoc. do 3 f_equal. lia.
Qed.

Lemma collect_add {A} (item : nat -> option (list A)) (n m : nat) :
  forall k : nat,
    collect item k (n + m)
    = (xs ← collect item k n; ys ← collect item (k + n) m; Some (xs ++ ys)).
Proof.
  induction n as [|n IH]; intros k; simpl.
  - rewrite Nat.add_0_r. destruct (collect item k m); reflexivity.
  - destruct (item k) as [x|]; simpl; [|reflexivity].
    rewrite IH. replace (k + S n) with (S k + n) by lia.
    destruct (collect item (S k) n) as [xs|]; [|reflexivity].
    destruct (collect item (S k + n) m) as [ys|]; [|reflexivity].
    simpl. rewrite app_assoc. reflexivity.
Qed.

Lemma emit_lines_collect {A} (item : nat -> option (list A)) (inner lines : nat) :
  forall (k : nat) (va : list A),
    emit_lines item inner lines k va
    = (xs ← collect item k (lines * S inner);
       Some (va ++ xs, k + lines * S inner)).
Proof.
  induction lines as [|lines IH]; intros k va.
  - simpl. rewrite app_nil_r, Nat.add_0_r. reflexivity.
  - cbn [emit_lines]. rewrite emit_collect.
    replace (S lines * S inner) with (inner + (1 + lines * S inner)) by lia.
    rewrite (collect_add item inner), (collect_add item 1).
    set (N := lines * S inner) in *.
    destruct (collect item k inner) as [xs|]; [|reflexivity].
    simpl. destruct (item (k + inner)) as [x|]; [|reflexivity].
    simpl. rewrite IH. replace (k + inner + 1) with (S (k + inner)) by lia.
    destruct (collect item (S (k + inner)) N) as [ys|]; [|reflexivity].
    simpl. rewrite <- !app_assoc. do 3 f_equal. lia.
Qed.

(** The lines of the blocked loop are not observable: it yields the items
    0 .. count - 1 in order, and fails when one of them fails. *)
Lemma emit_blocked_collect {A} (item : nat -> option (list A)) (shift count : nat) :
  emit_blocked item shift (Nat.ones shift) (Nat.ones shift) count
  = collect item 0 count.
Proof.
  unfold emit_blocked. rewrite emit_lines_collect.
  assert (Hs : S (Nat.ones shift) = 2 ^ shift).
  { rewrite Nat.ones_equiv. pose proof (Nat.pow_nonzero 2 shift). lia. }
  rewrite Hs, Nat.shiftr_div_pow2, Nat.land_ones.
  pose proof (Nat.div_mod_eq count (2 ^ shift)) as Hdm.
  set (P := 2 ^ shift) in *.
  set (q := count / P) in *. set (r := count mod P) in *.
  clearbody q r. transitivity (collect item 0 (q * P + r)); [|f_equal; lia].
  clear Hdm. rewrite collect_add.
  set (N := q * P). cbn [plus].
  destruct (collect item 0 N) as [xs|]; [|reflexivity]. simpl.
  destruct r as [|r]; simpl.
  - rewrite app_nil_r. reflexivity.
  - rewrite Nat.sub_0_r, emit_collect.
    replace (S r) with (r + 1) at 2 by lia.
    change (item N ≫= (fun x => collect item (S N) r ≫= (fun xs0 => Some (x ++ xs0))))
      with (collect item N (S r)).
    replace (S r) with (r + 1) by lia. rewrite collect_add. simpl.
    destruct (collect item N r) as [ys|]; [|reflexivity]. simpl.
    destruct (item (N + r)) as [x|]; [|reflexivity]. simpl.
    rewrite app_nil_r, app_assoc. reflexivity.
Qed.

Lemma collect_lookup {A B} (g : A -> list B) (l : list A) :
  forall pre : list A,
    collect (fun k => x ← (pre ++ l) !! k; Some (g x)) (length pre) (length l)
    = Some (flat_map g l).
Proof.
  induction l as [|a l IH]; intros pre; [reflexivity|]. simpl.
  rewrite list_lookup_middle by reflexivity. simpl.
  specialize (IH (pre ++ [a])). rewrite length_app, <- app_assoc in IH. simpl in IH.
  replace (length pre + 1) with (S (length pre)) in IH by lia.
  rewrite IH. reflexivity.
Qed.

(** X1. [write_va2d] and [write_va3d] always return, and what they return
    is the chosen attribute of every vertex, flattened in vertex order. *)
Theorem write_va_flattens (vertex_array : list ExportVertex) :
  (forall attrib : ExportVertex -> Vec3,
      write_va3d vertex_array attrib
      = Some (flat_map (fun ev => write_vector3d (attrib ev)) vertex_array))
  /\ (forall attrib : ExportVertex -> UV,
      write_va2d vertex_array attrib
      = Some (flat_map (fun ev => write_vector2d (attrib ev)) vertex_array)).
Proof.
  split; intros attrib; unfold write_va3d, write_va2d, write_va;
    change 7 with (Nat.ones 3); rewrite emit_blocked_collect;
    apply (collect_lookup _ vertex_array []).
Qed.

Lemma write_triangle_Some (k : nat) (table : list nat) :
  3 * k + 3 <= length table ->
  write_triangle k table = Some (take 3 (drop (3 * k) table)).
Proof.
  intros Hle. unfold write_triangle.
  replace (k * 3) with (3 * k) by lia.
  set (n := 3 * k) in *. clearbody n.
  destruct (lookup_lt_is_Some_2 table n) as [a Ha]; [lia|].
  destruct (lookup_lt_is_Some_2 table (n + 1)) as [b Hb]; [lia|].
  destruct (lookup_lt_is_Some_2 table (n + 2)) as [c Hc]; [lia|].
  rewrite Ha, Hb, Hc. simpl.
  rewrite (drop_S _ _ _ Ha).
  replace (S n) with (n + 1) by lia. rewrite (drop_S _ _ _ Hb).
  replace (S (n + 1)) with (n + 2) by lia. rewrite (drop_S _ _ _ Hc).
  reflexivity.
Qed.

Lemma write_triangle_None (k : nat) (table : list nat) :
  length table < 3 * k + 3 -> write_triangle k table = None.
Proof.
  intros Hlt. unfold write_triangle.
  destruct (table !! (k * 3)) as [a|] eqn:Ha; simpl; [|reflexivity].
  destruct (table !! (k * 3 + 1)) as [b|] eqn:Hb; simpl; [|reflexivity].
  destruct (table !! (k * 3 + 2)) as [c|] eqn:Hc; simpl; [|reflexivity].
  apply lookup_lt_Some in Hc. lia.
Qed.

Lemma collect_triangles (table : list nat) (n : nat) :
  forall k : nat,
    collect (fun ti => write_triangle ti table) k n
    = if (n =? 0) || (3 * (k + n) <=? length table)
      then Some (take (3 * n) (drop (3 * k) table)) else None.
Proof.
  induction n as [|n IH]; intros k; [reflexivity|].
  cbn [collect]. change (S n =? 0) with false. cbn [orb].
  destruct (Nat.leb_spec (3 * (k + S n)) (length table)) as [Hle|Hgt].
  - rewrite write_triangle_Some by lia. rewrite IH.
    destruct (Nat.leb_spec (3 * (S k + n)) (length table)) as [_|Hbad]; [|lia].
    rewrite orb_true_r. cbn [mbind option_bind].
    f_equal. replace (3 * S n) with (3 + 3 * n) by lia.
    rewrite <- take_take_drop, drop_drop. do 3 f_equal. lia.
  - destruct (le_lt_dec (3 * k + 3) (length table)) as [Hok|Hbad].
    + rewrite write_triangle_Some by lia. rewrite IH.
      destruct (Nat.eqb_spec n 0) as [Hz|Hnz]; [lia|].
      destruct (Nat.leb_spec (3 * (S k + n)) (length table)) as [Hle|_]; [lia|].
      reflexivity.
    + rewrite write_triangle_None by lia. reflexivity.
Qed.

Lemma write_triangle_array_Some (count : nat) (index_table : list nat) :
  3 * count <= length index_table ->
  write_triangle_array count index_table = Some (take (3 * count) index_table).
Proof.
  intros H. unfold write_triangle_array. change 15 with (Nat.ones 4).
  rewrite emit_blocked_collect, collect_triangles.
  change (drop (3 * 0) index_table) with index_table.
  destruct (Nat.leb_spec (3 * (0 + count)) (length index_table)) as [_|Hbad];
    [|lia]. rewrite orb_true_r. reflexivity.
Qed.

(** X2. [write_triangle_array] returns the first [3 * count] entries of the
    index table, and raises when the table holds fewer. *)
Theorem write_triangle_array_takes (count : nat) (index_table : list nat) :
  (3 * count <= length index_table ->
   write_triangle_array count index_table = Some (take (3 * count) index_table))
  /\ (length index_table < 3 * count ->
      write_triangle_array count index_table = None).
Proof.
  split; [apply write_triangle_array_Some|]. intros H.
  unfold write_triangle_array. change 15 with (Nat.ones 4).
  rewrite emit_blocked_collect, collect_triangles.
  destruct (Nat.eqb_spec count 0) as [Hz|_]; [lia|].
  destruct (Nat.leb_spec (3 * (0 + count)) (length index_table)) as [Hle|_];
    [lia|]. reflexivity.
Qed.

End SerialFacts.

(** ** Index arrays by material *)

Section IndexArrayFacts.
Import Weld Serial.
#[local] Open Scope nat_scope.

Lemma max_material_index_fold (l : list nat) :
  forall acc : nat,
    acc <= fold_left (fun mx index => if mx <? index then index else mx) l acc
    /\ Forall (fun x => x <= fold_left (fun mx index => if mx <? index then index else mx) l acc) l.
Proof.
  induction l as [|x l IH]; intros acc; simpl; [split; [lia|constructor]|].
  destruct (IH (if acc <? x then x else acc)) as [Hacc Hall].
  destruct (Nat.ltb_spec acc x); (split; [lia|constructor; [lia|exact Hall]]).
Qed.

Lemma max_material_index_bound (mt : list nat) :
  Forall (fun x => x <= max_material_index mt) mt.
Proof. apply max_material_index_fold. Qed.

Lemma material_triangle_count_lookup (mt : list nat) (mx m : nat) :
  Forall (fun x => x <= mx) mt -> m <= mx ->
  material_triangle_count mt mx !! m
  = Some (length (filter (fun x => x = m) mt)).
Proof.
  intros Hall Hm. unfold material_triangle_count.
  assert (Hgen : forall c0 : list nat,
    length c0 = mx + 1 ->
    fold_left (fun counts x => alter S x counts) mt c0 !! m
    = (fun c => c + length (filter (fun x => x = m) mt)) <$> c0 !! m).
  { induction Hall as [|x l Hx Hall IH]; intros c0 Hlen; simpl.
    - destruct (c0 !! m); simpl; [f_equal; lia|reflexivity].
    - rewrite IH by (rewrite length_alter; exact Hlen).
      destruct (decide (x = m)) as [->|Hne].
      + rewrite list_lookup_alter_eq, filter_cons_True by reflexivity.
        destruct (c0 !! m); simpl; [f_equal; lia|reflexivity].
      + rewrite list_lookup_alter_ne, filter_cons_False by assumption.
        reflexivity. }
  rewrite Hgen by apply length_replicate.
  rewrite lookup_replicate_2 by lia. reflexivity.
Qed.

Lemma triangles_of_material_length (mt : list nat) (m : nat) (it : list nat) :
  forall i : nat,
    3 * (i + length mt) <= length it ->
    length (triangles_of_material mt i m it)
    = 3 * length (filter (fun x => x = m) mt).
Proof.
  induction mt as [|x mt IH]; intros i Hle; [reflexivity|]. simpl in *.
  rewrite length_app, IH by lia.
  destruct (Nat.eqb_spec x m) as [->|Hne].
  - rewrite filter_cons_True by reflexivity. simpl.
    rewrite length_take, length_drop. lia.
  - rewrite filter_cons_False by assumption. simpl. lia.
Qed.

Lemma take3_drop (it : list nat) (n a b c : nat) :
  it !! n = Some a -> it !! (n + 1) = Some b -> it !! (n + 2) = Some c ->
  take 3 (drop n it) = [a; b; c].
Proof.
  intros Ha Hb Hc. rewrite (drop_S _ _ _ Ha).
  replace (S n) with (n + 1) by lia. rewrite (drop_S _ _ _ Hb).
  replace (S (n + 1)) with (n + 2) by lia. rewrite (drop_S _ _ _ Hc).
  reflexivity.
Qed.

Lemma material_index_table_spec (mt : list nat) (m : nat) (it : list nat) :
  forall (i : nat) (acc : list nat),
    3 * (i + length mt) <= length it ->
    material_index_table mt i m it acc
    = Some (acc ++ triangles_of_material mt i m it).
Proof.
  induction mt as [|x mt IH]; intros i acc Hle.
  - simpl. rewrite app_nil_r. reflexivity.
  - cbn [material_index_table triangles_of_material]. cbn [length] in Hle.
    destruct (Nat.eqb_spec x m) as [->|Hne].
    + destruct (lookup_lt_is_Some_2 it (i * 3)) as [a Ha]; [lia|].
      destruct (lookup_lt_is_Some_2 it (i * 3 + 1)) as [b Hb]; [lia|].
      destruct (lookup_lt_is_Some_2 it (i * 3 + 2)) as [c Hc]; [lia|].
      rewrite Ha, Hb, Hc. cbn [mbind option_bind].
      rewrite IH by lia. rewrite (take3_drop _ _ _ _ _ Ha Hb Hc).
      rewrite <- app_assoc. reflexivity.
    + rewrite IH by lia. reflexivity.
Qed.

Lemma material_arrays_spec (mt it counts : list nat) (mx : nat) :
  3 * length mt <= length it ->
  (forall m, m <= mx -> counts !! m = Some (length (filter (fun x => x = m) mt))) ->
  forall (ms : list nat) (acc : list IndexArray),
    Forall (fun m => m <= mx) ms ->
    material_arrays mt counts it ms acc
    = Some (acc ++ map (fun m => {| ia_size := 3;
                                    ia_values := triangles_of_material mt 0 m it;
                                    ia_material := m |})
                     (filter (fun m => m ∈ mt) ms)).
Proof.
  intros Hle Hcounts ms. induction ms as [|m ms IH]; intros acc Hms; simpl.
  - rewrite app_nil_r. reflexivity.
  - apply Forall_cons in Hms as [Hm Hms]. rewrite (Hcounts m Hm). simpl.
    destruct (length (filter (fun x => x = m) mt)) as [|c] eqn:Hocc; simpl.
    + rewrite IH by assumption. rewrite filter_cons_False; [reflexivity|].
      intros Hin. apply length_zero_iff_nil in Hocc.
      assert (Hf : m ∈ filter (fun x => x = m) mt)
        by (apply list_elem_of_filter; auto).
      rewrite Hocc in Hf. inversion Hf.
    + rewrite material_index_table_spec by (simpl; lia). simpl.
      pose proof (triangles_of_material_length mt m it 0 ltac:(simpl; lia)) as Hl.
      rewrite Hocc in Hl.
      rewrite write_triangle_array_Some by lia. simpl. rewrite take_ge by lia.
      rewrite IH by assumption. rewrite filter_cons_True.
      * simpl. rewrite <- app_assoc. reflexivity.
      * assert (Hne : filter (fun x => x = m) mt <> [])
          by (intros E; rewrite E in Hocc; discriminate).
        destruct (filter (fun x => x = m) mt) as [|y l] eqn:Hf; [contradiction|].
        assert (Hy : y ∈ filter (fun x => x = m) mt) by (rewrite Hf; left).
        apply list_elem_of_filter in Hy as [-> Hy]. exact Hy.
Qed.

Lemma triangles_all_zero (mt it : list nat) :
  Forall (fun x => x <= 0) mt ->
  forall i : nat,
    3 * (i + length mt) <= length it ->
    triangles_of_material mt i 0 it = take (3 * length mt) (drop (3 * i) it).
Proof.
  induction 1 as [|x mt Hx Hall IH]; intros i Hle; [reflexivity|].
  cbn [triangles_of_material length] in *. assert (x = 0) by lia. subst x.
  change (0 =? 0) with true. cbv iota.
  rewrite IH by lia.
  replace (3 * S (length mt)) with (3 + 3 * length mt) by lia.
  rewrite <- take_take_drop, drop_drop.
  replace (i * 3) with (3 * i) by lia. do 3 f_equal. lia.
Qed.

(** The index arrays as a function of the two tables. *)
Lemma index_arrays_eq (material_table indexTable : list nat) :
  3 * length material_table <= length indexTable ->
  let mx := max_material_index material_table in
  index_arrays material_table indexTable
  = Some (map (fun m => {| ia_size := 3;
                           ia_values :=
                             triangles_of_material material_table 0 m indexTable;
                           ia_material := m |})
            (filter (fun m => mx = 0 \/ m ∈ material_table) (seq 0 (mx + 1)))).
Proof.
  intros Hle mx. unfold index_arrays. fold mx.
  pose proof (max_material_index_bound material_table) as Hb. fold mx in Hb.
  destruct (Nat.eqb_spec mx 0) as [Hz|Hnz].
  - rewrite Hz in *. change (seq 0 (0 + 1)) with [0].
    rewrite filter_cons_True by (left; reflexivity). rewrite filter_nil.
    rewrite write_triangle_array_Some by lia. cbn [mbind option_bind map].
    rewrite triangles_all_zero by (auto; simpl; lia). reflexivity.
  - rewrite (material_arrays_spec material_table indexTable _ mx Hle).
    + simpl. f_equal. f_equal. apply list_filter_iff. intros m. split; [auto|].
      intros [Hm|Hm]; [contradiction|exact Hm].
    + intros m Hm. apply material_triangle_count_lookup; assumption.
    + apply Forall_forall. intros m Hm. apply elem_of_seq in Hm. lia.
Qed.

(** X3. Given an index table with three entries per triangle, the index
    arrays are written without error: one array per material that occurs
    (a single array for material 0 when no other material occurs), in
    increasing material order, each holding the triangles of its material in
    table order. *)
Theorem index_arrays_by_material (material_table indexTable : list nat) :
  3 * length material_table <= length indexTable ->
  let mx := max_material_index material_table in
  index_arrays material_table indexTable
  = Some (map (fun m => {| ia_size := 3;
                           ia_values :=
                             triangles_of_material material_table 0 m indexTable;
                           ia_material := m |})
            (filter (fun m => mx = 0 \/ m ∈ material_table) (seq 0 (mx + 1)))).
Proof. exact (index_arrays_eq material_table indexTable). Qed.

End IndexArrayFacts.

(** ** Welding: what the index table points at *)

Section WeldMoreFacts.
Import Weld.
#[local] Open Scope nat_scope.
Variable vector_ne color_ne : Vec3 -> Vec3 -> bool.

#[local] Abbreviation ev_eq := (Weld.ev_eq vector_ne color_ne).
#[local] Abbreviation unify_step := (Weld.unify_step vector_ne color_ne).
#[local] Abbreviation unify_loop := (Weld.unify_loop vector_ne color_ne).
#[local] Abbreviation unify_vertices := (Weld.unify_vertices vector_ne color_ne).
#[local] Abbreviation first_occurrences := (Weld.first_occurrences vector_ne color_ne).

(** The two outcomes of one step of the welding loop. *)
Lemma unify_step_cases (eva : list ExportVertex) (bucketCount : N) (i : nat)
    (ev : ExportVertex) (st : Welder) :
  (0 < bucketCount)%N ->
  eva !! i = Some ev ->
  weld_inv eva bucketCount i st ->
  exists (st' : Welder) (chain : list nat),
    unify_step eva bucketCount i ev st = Some st'
    /\ weld_inv eva bucketCount (S i) st'
    /\ hashTable st !! bucket_of bucketCount ev = Some chain
    /\ ((existsb (fun u => ev_eq u ev) (unifiedVA st) = false
         /\ hashTable st' = <[bucket_of bucketCount ev := chain ++ [i]]> (hashTable st)
         /\ unifiedVA st' = unifiedVA st ++ [ev]
         /\ indexTable st' = indexTable st ++ [length (unifiedVA st)])
        \/ (exists (b t : nat) (u : ExportVertex),
               b ∈ chain /\ eva !! b = Some u /\ ev_eq u ev = true
               /\ indexTable st !! b = Some t
               /\ hashTable st' = hashTable st
               /\ unifiedVA st' = unifiedVA st
               /\ indexTable st' = indexTable st ++ [t])).
Proof.
  intros Hpos Hev Hinv.
  destruct (unify_step_inv vector_ne color_ne eva bucketCount i ev st Hpos Hev Hinv)
    as (st' & Hstep & Hinv' & Hu).
  destruct Hinv as [Hb Hc Hk Hl Hv].
  pose proof (bucket_of_lt bucketCount ev Hpos) as Hlt.
  destruct (lookup_lt_is_Some_2 (hashTable st) (bucket_of bucketCount ev))
    as [chain Hchain]; [lia|].
  exists st', chain. split; [exact Hstep|]. split; [exact Hinv'|].
  split; [exact Hchain|].
  unfold Weld.unify_step in Hstep. rewrite Hchain in Hstep. simpl in Hstep.
  destruct (find_index_scan vector_ne color_ne eva ev chain) as (r & Hr & Hspec).
  { apply Forall_forall. intros b Hin.
    destruct (Hc _ _ _ Hchain Hin) as (_ & u & Hu' & _). eauto. }
  rewrite Hr in Hstep. simpl in Hstep. destruct r as [b|].
  - right. destruct Hspec as (Hin & u & Hub & He).
    destruct (indexTable st !! b) as [t|] eqn:Ht; simpl in Hstep; [|discriminate].
    injection Hstep as <-. simpl. exists b, t, u. auto 10.
  - left. injection Hstep as <-. simpl. split; [|auto].
    apply not_true_is_false. intros Hex.
    apply existsb_exists in Hex as (u & Hin & He).
    apply list_elem_of_In in Hin.
    destruct (Hk u Hin) as (c & b & Hcu & Hbc & Hbu).
    rewrite (ev_eq_bucket vector_ne color_ne bucketCount _ _ He) in Hcu.
    assert (c = chain) by congruence. subst c.
    specialize (Hspec b u Hbc Hbu). congruence.
Qed.

(** Reading back through the index table: what the table holds for the
    vertices seen so far. *)
Record readback_inv (eva : list ExportVertex) (st : Welder) : Prop := {
  rb_kept : forall k chain b,
      hashTable st !! k = Some chain -> b ∈ chain ->
      exists t u, indexTable st !! b = Some t /\ eva !! b = Some u
                  /\ unifiedVA st !! t = Some u;
  rb_all : forall j t,
      indexTable st !! j = Some t ->
      exists u v, eva !! j = Some v /\ unifiedVA st !! t = Some u
                  /\ (u = v \/ ev_eq u v = true);
}.

Lemma unify_step_readback (eva : list ExportVertex) (bucketCount : N) (i : nat)
    (ev : ExportVertex) (st st' : Welder) :
  (0 < bucketCount)%N ->
  eva !! i = Some ev ->
  weld_inv eva bucketCount i st ->
  readback_inv eva st ->
  unify_step eva bucketCount i ev st = Some st' ->
  readback_inv eva st'.
Proof.
  intros Hpos Hev Hinv [Hk Ha] Hstep.
  destruct (unify_step_cases eva bucketCount i ev st Hpos Hev Hinv)
    as (st1 & chain & Hs1 & Hinv1 & Hchain & Hcase).
  assert (st1 = st') by congruence. subst st1.
  pose proof (inv_length _ _ _ _ Hinv) as Hl.
  pose proof (inv_buckets _ _ _ _ Hinv) as Hbk.
  pose proof (bucket_of_lt bucketCount ev Hpos) as Hlt.
  destruct Hcase as [(Hex & Hh & Hu & Hi)|(b & t & u & Hin & Hub & He & Ht & Hh & Hu & Hi)].
  - constructor.
    + intros k c b Hkc Hbc. rewrite Hh in Hkc. rewrite Hu, Hi.
      assert (Hold : forall c0, hashTable st !! k = Some c0 -> b ∈ c0 ->
        exists t u, (indexTable st ++ [length (unifiedVA st)]) !! b = Some t
                    /\ eva !! b = Some u /\ (unifiedVA st ++ [ev]) !! t = Some u).
      { intros c0 Hc0 Hb0. destruct (Hk _ _ _ Hc0 Hb0) as (t & u & Ht & Hub & Hut).
        exists t, u. split; [|split; [exact Hub|]].
        - rewrite lookup_app_l by (apply lookup_lt_Some in Ht; exact Ht). exact Ht.
        - rewrite lookup_app_l by (apply lookup_lt_Some in Hut; exact Hut). exact Hut. }
      destruct (decide (k = bucket_of bucketCount ev)) as [->|Hne].
      * rewrite list_lookup_insert_eq in Hkc by lia. injection Hkc as <-.
        apply elem_of_app in Hbc as [Hbc|Hbc]; [eapply Hold; eauto|].
        apply list_elem_of_singleton in Hbc. subst b.
        exists (length (unifiedVA st)), ev. split; [|split; [exact Hev|]].
        -- rewrite lookup_app_r by lia. rewrite Hl, Nat.sub_diag. reflexivity.
        -- rewrite lookup_app_r by lia. rewrite Nat.sub_diag. reflexivity.
      * rewrite list_lookup_insert_ne in Hkc by congruence. eapply Hold; eauto.
    + intros j t Hj. rewrite Hi in Hj. rewrite Hu.
      destruct (decide (j < i)) as [Hji|Hji].
      * rewrite lookup_app_l in Hj by lia.
        destruct (Ha _ _ Hj) as (u & v & Hv & Hut & Heq).
        exists u, v. split; [exact Hv|]. split; [|exact Heq].
        rewrite lookup_app_l by (apply lookup_lt_Some in Hut; exact Hut). exact Hut.
      * pose proof (lookup_lt_Some _ _ _ Hj) as Hjl.
        rewrite length_app in Hjl. simpl in Hjl.
        assert (j = i) by lia. subst j.
        rewrite lookup_app_r in Hj by lia. rewrite Hl, Nat.sub_diag in Hj.
        injection Hj as <-. exists ev, ev. split; [exact Hev|]. split; [|auto].
        rewrite lookup_app_r by lia. rewrite Nat.sub_diag. reflexivity.
  - destruct (Hk _ _ _ Hchain Hin) as (t0 & u0 & Ht0 & Hub0 & Hut0).
    assert (t0 = t) by congruence. assert (u0 = u) by congruence. subst t0 u0.
    constructor.
    + intros k c b' Hkc Hbc. rewrite Hh in Hkc. rewrite Hu, Hi.
      destruct (Hk _ _ _ Hkc Hbc) as (t1 & u1 & Ht1 & Hub1 & Hut1).
      exists t1, u1. split; [|auto].
      rewrite lookup_app_l by (apply lookup_lt_Some in Ht1; exact Ht1). exact Ht1.
    + intros j t1 Hj. rewrite Hi in Hj. rewrite Hu.
      destruct (decide (j < i)) as [Hji|Hji].
      * rewrite lookup_app_l in Hj by lia. apply (Ha _ _ Hj).
      * pose proof (lookup_lt_Some _ _ _ Hj) as Hjl.
        rewrite length_app in Hjl. simpl in Hjl.
        assert (j = i) by lia. subst j.
        rewrite lookup_app_r in Hj by lia. rewrite Hl, Nat.sub_diag in Hj.
        injection Hj as <-. exists u, ev. auto.
Qed.

Lemma unify_loop_readback (eva : list ExportVertex) (bucketCount : N)
    (todo : list ExportVertex) :
  (0 < bucketCount)%N ->
  forall (i : nat) (st st' : Welder),
    (forall j ev, todo !! j = Some ev -> eva !! (i + j) = Some ev) ->
    weld_inv eva bucketCount i st ->
    readback_inv eva st ->
    unify_loop eva bucketCount i todo st = Some st' ->
    readback_inv eva st'.
Proof.
  intros Hpos. induction todo as [|ev todo IH]; intros i st st' Hsuf Hinv Hrb Hloop.
  - simpl in Hloop. injection Hloop as <-. exact Hrb.
  - simpl in Hloop.
    assert (Hev : eva !! i = Some ev).
    { specialize (Hsuf 0 ev eq_refl). rewrite Nat.add_0_r in Hsuf. exact Hsuf. }
    destruct (unify_step_inv vector_ne color_ne eva bucketCount i ev st Hpos Hev Hinv)
      as (st1 & Hs & Hinv1 & _).
    rewrite Hs in Hloop. simpl in Hloop.
    apply (IH (S i) st1 st'); try assumption.
    + intros j e Hj. specialize (Hsuf (S j) e Hj).
      replace (S i + j) with (i + S j) by lia. exact Hsuf.
    + eapply unify_step_readback; eauto.
Qed.

(** The initial state of the welding loop and what it satisfies. *)
Lemma weld_inv_init (eva : list ExportVertex) (bucketCount : N) :
  weld_inv eva bucketCount 0
    {| hashTable := replicate (N.to_nat bucketCount) [];
       unifiedVA := []; indexTable := [] |}.
Proof.
  constructor; simpl.
  - apply length_replicate.
  - intros k chain b Hk Hb. apply lookup_replicate in Hk as [-> _]. inversion Hb.
  - intros u Hu. inversion Hu.
  - reflexivity.
  - constructor.
Qed.

(** [unify_vertices] on an empty index table, with what the loop
    invariant gives about its result. *)
Lemma unify_vertices_total (eva : list ExportVertex) :
  exists st : Welder,
    unify_loop eva (bucket_count (length eva)) 0 eva
      {| hashTable := replicate (N.to_nat (bucket_count (length eva))) [];
         unifiedVA := []; indexTable := [] |} = Some st
    /\ unify_vertices eva [] = Some (unifiedVA st, indexTable st)
    /\ weld_inv eva (bucket_count (length eva)) (length eva) st
    /\ unifiedVA st = first_occurrences [] eva.
Proof.
  pose proof (bucket_count_pos (length eva)) as Hpos.
  destruct (unify_loop_inv vector_ne color_ne eva (bucket_count (length eva)) eva
              Hpos 0 _ (fun j ev H => H) (weld_inv_init eva _))
    as (st & Hloop & Hinv & Hu).
  exists st. split; [exact Hloop|]. split; [|split; assumption].
  unfold Weld.unify_vertices. rewrite Hloop. reflexivity.
Qed.

(** X4. Reading an input vertex back through the index table gives a kept
    vertex that is the input vertex itself or compares equal to it. *)
Theorem unify_vertices_reads_back (export_vertex_array : list ExportVertex) :
  exists (unifiedVA : list ExportVertex) (indexTable : list nat),
    unify_vertices export_vertex_array [] = Some (unifiedVA, indexTable)
    /\ forall (j : nat) (v : ExportVertex),
         export_vertex_array !! j = Some v ->
         exists (t : nat) (u : ExportVertex),
           indexTable !! j = Some t /\ unifiedVA !! t = Some u
           /\ (u = v \/ ev_eq u v = true).
Proof.
  destruct (unify_vertices_total export_vertex_array) as (st & Hloop & Hun & Hinv & _).
  exists (unifiedVA st), (indexTable st). split; [exact Hun|].
  assert (Hrb : readback_inv export_vertex_array st).
  { eapply (unify_loop_readback export_vertex_array _ export_vertex_array
              (bucket_count_pos _) 0); [| |..|exact Hloop].
    - intros j ev H. exact H.
    - apply weld_inv_init.
    - constructor; simpl.
      + intros k chain b Hk Hb. apply lookup_replicate in Hk as [-> _]. inversion Hb.
      + intros j t Hj. discriminate. }
  intros j v Hj.
  pose proof (inv_length _ _ _ _ Hinv) as Hl.
  destruct (lookup_lt_is_Some_2 (indexTable st) j) as [t Ht];
    [apply lookup_lt_Some in Hj; lia|].
  destruct (rb_all _ _ Hrb _ _ Ht) as (u & v' & Hv' & Hut & Heq).
  assert (v' = v) by congruence. subst v'. exists t, u. auto.
Qed.


Lemma first_occurrences_distinct (todo : list ExportVertex) :
  forall kept : list ExportVertex,
    (forall i j a b, i < j -> kept !! i = Some a -> kept !! j = Some b ->
                     ev_eq a b = false) ->
    forall i j a b,
      i < j ->
      first_occurrences kept todo !! i = Some a ->
      first_occurrences kept todo !! j = Some b ->
      ev_eq a b = false.
Proof.
  induction todo as [|v todo IH]; intros kept Hkept; [exact Hkept|].
  simpl. destruct (existsb (fun u => ev_eq u v) kept) eqn:Hex.
  - apply IH. exact Hkept.
  - apply IH. intros i j a b Hij Ha Hb.
    pose proof (lookup_lt_Some _ _ _ Hb) as Hjl. rewrite length_app in Hjl.
    simpl in Hjl. destruct (decide (j < length kept)) as [Hj|Hj].
    + rewrite lookup_app_l in Ha by lia. rewrite lookup_app_l in Hb by lia.
      exact (Hkept i j a b Hij Ha Hb).
    + assert (j = length kept) by lia. subst j.
      rewrite lookup_app_l in Ha by lia.
      rewrite lookup_app_r in Hb by lia. rewrite Nat.sub_diag in Hb.
      injection Hb as <-.
      apply not_true_is_false. intros He.
      assert (Ht : existsb (fun u => ev_eq u v) kept = true).
      { apply existsb_exists. exists a. split; [|exact He].
        apply list_elem_of_In. eapply list_elem_of_lookup_2. exact Ha. }
      congruence.
Qed.

(** X5. No kept vertex compares equal to a later kept vertex. *)
Theorem unified_vertices_distinct (export_vertex_array : list ExportVertex) :
  exists (unifiedVA : list ExportVertex) (indexTable : list nat),
    unify_vertices export_vertex_array [] = Some (unifiedVA, indexTable)
    /\ forall (i j : nat) (a b : ExportVertex),
         i < j -> unifiedVA !! i = Some a -> unifiedVA !! j = Some b ->
         ev_eq a b = false.
Proof.
  destruct (unify_vertices_total export_vertex_array) as (st & _ & Hun & _ & Hu).
  exists (unifiedVA st), (indexTable st). split; [exact Hun|].
  rewrite Hu. apply first_occurrences_distinct.
  intros i j a b _ Ha. discriminate.
Qed.

Lemma unify_loop_all_new (l : list ExportVertex) (bucketCount : N)
    (todo : list ExportVertex) :
  (0 < bucketCount)%N ->
  (forall i j a b, i < j -> l !! i = Some a -> l !! j = Some b ->
                   ev_eq a b = false) ->
  forall (i : nat) (st : Welder),
    (forall j ev, todo !! j = Some ev -> l !! (i + j) = Some ev) ->
    weld_inv l bucketCount i st ->
    unifiedVA st = take i l ->
    indexTable st = seq 0 i ->
    exists st', unify_loop l bucketCount i todo st = Some st'
      /\ unifiedVA st' = take (i + length todo) l
      /\ indexTable st' = seq 0 (i + length todo).
Proof.
  intros Hpos Hdist. induction todo as [|ev todo IH]; intros i st Hsuf Hinv Hu Hi.
  - exists st. simpl. rewrite Nat.add_0_r. auto.
  - simpl.
    assert (Hev : l !! i = Some ev).
    { specialize (Hsuf 0 ev eq_refl). rewrite Nat.add_0_r in Hsuf. exact Hsuf. }
    destruct (unify_step_cases l bucketCount i ev st Hpos Hev Hinv)
      as (st1 & chain & Hs & Hinv1 & Hchain & Hcase).
    rewrite Hs. simpl.
    destruct Hcase as [(_ & _ & Hu1 & Hi1)|(b & t & u & Hin & Hub & He & _)].
    + destruct (IH (S i) st1) as (st' & Hl & Hu' & Hi'); try assumption.
      * intros j e Hj. specialize (Hsuf (S j) e Hj).
        replace (S i + j) with (i + S j) by lia. exact Hsuf.
      * rewrite Hu1, Hu. symmetry. apply take_S_r. exact Hev.
      * rewrite Hi1, Hi, Hu, length_take.
        apply lookup_lt_Some in Hev.
        replace (i `min` length l) with i by lia.
        rewrite seq_S. reflexivity.
      * exists st'. replace (i + S (length todo)) with (S i + length todo) by lia.
        auto.
    + destruct (inv_chain _ _ _ _ Hinv _ _ _ Hchain Hin) as [Hbi _].
      rewrite (Hdist b i u ev Hbi Hub Hev) in He. discriminate.
Qed.

(** X6. Welding is idempotent: welding the welded vertices again keeps
    every one of them, in order, and yields the identity index table. *)
Theorem unify_vertices_idempotent (export_vertex_array : list ExportVertex) :
  exists (unifiedVA : list ExportVertex) (indexTable : list nat),
    unify_vertices export_vertex_array [] = Some (unifiedVA, indexTable)
    /\ unify_vertices unifiedVA [] = Some (unifiedVA, seq 0 (length unifiedVA)).
Proof.
  destruct (unify_vertices_total export_vertex_array) as (st & _ & Hun & _ & Hu).
  exists (unifiedVA st), (indexTable st). split; [exact Hun|].
  assert (Hdist : forall i j a b, i < j -> unifiedVA st !! i = Some a ->
                    unifiedVA st !! j = Some b -> ev_eq a b = false).
  { rewrite Hu. apply first_occurrences_distinct.
    intros i j a b _ Ha. discriminate. }
  set (u := unifiedVA st) in *.
  destruct (unify_loop_all_new u (bucket_count (length u)) u
              (bucket_count_pos _) Hdist 0 _ (fun j ev H => H)
              (weld_inv_init u _) eq_refl eq_refl)
    as (st' & Hloop & Hu' & Hi').
  unfold Weld.unify_vertices. rewrite Hloop. simpl.
  rewrite Hu', Hi'. simpl. rewrite firstn_all. reflexivity.
Qed.

End WeldMoreFacts.

(** ** De-indexing and the quality path *)

Section DeindexFacts.
Import Weld.
#[local] Open Scope nat_scope.
Variable pyhash : float -> Z.

Lemma deindex_faces_materials (va : list MeshVertex) (faces : list Face) :
  forall (fi : nat) (eva : list ExportVertex) (mt : list nat)
         (eva' : list ExportVertex) (mt' : list nat),
    deindex_faces va faces fi eva mt = Some (eva', mt') ->
    mt' = mt ++ flat_map face_materials faces.
Proof.
  induction faces as [|face faces IH]; intros fi eva mt eva' mt' H; simpl in H.
  - injection H as <- <-. simpl. rewrite app_nil_r. reflexivity.
  - destruct (triangle va face fi 0 1 2) as [t1|]; simpl in H; [|discriminate].
    simpl. unfold face_materials at 1.
    destruct (length (f_vertices face) =? 4).
    + destruct (triangle va face fi 0 2 3) as [t2|]; simpl in H; [|discriminate].
      apply IH in H. rewrite H, <- !app_assoc. reflexivity.
    + simpl in H. apply IH in H. rewrite H, <- !app_assoc. reflexivity.
Qed.

Lemma face_materials_count (faces : list Face) :
  3 * length (flat_map face_materials faces) = corner_count faces.
Proof.
  induction faces as [|face faces IH]; [reflexivity|].
  cbn [flat_map corner_count]. rewrite length_app. unfold face_materials at 1.
  destruct (length (f_vertices face) =? 4); cbn [length]; lia.
Qed.

Lemma deindex_mesh_faces (mesh : Mesh) (mt : list nat)
    (eva : list ExportVertex) (mt' : list nat) :
  deindex_mesh pyhash mesh mt = Some (eva, mt') ->
  exists eva0,
    deindex_faces (vertices mesh) (tessfaces mesh) 0 [] mt = Some (eva0, mt').
Proof.
  unfold deindex_mesh. intros H.
  destruct (deindex_faces _ _ _ _ _) as [[eva0 mt0]|]; simpl in H; [|discriminate].
  destruct (match tessface_vertex_colors mesh with [] => _ | _ => _ end)
    as [eva1|]; simpl in H; [|discriminate].
  destruct (match tessface_uv_textures mesh with [] => _ | _ => _ end)
    as [eva2|]; simpl in H; [|discriminate].
  injection H as _ <-. eauto.
Qed.

(** X7. [deindex_mesh] appends one material-table entry per emitted
    triangle, in face order (two for a quad), and emits three vertices per
    entry. *)
Theorem deindex_mesh_material_table (mesh : Mesh) (mt : list nat)
    (eva : list ExportVertex) (mt' : list nat) :
  deindex_mesh pyhash mesh mt = Some (eva, mt') ->
  mt' = mt ++ flat_map face_materials (tessfaces mesh)
  /\ length eva = 3 * length (flat_map face_materials (tessfaces mesh)).
Proof.
  intros H. destruct (deindex_mesh_faces _ _ _ _ H) as (eva0 & H0).
  split.
  - eapply deindex_faces_materials. exact H0.
  - rewrite face_materials_count.
    apply (deindex_mesh_shape pyhash) in H as [Hl _]. exact Hl.
Qed.


(** An export vertex is a corner of the face it names: its vertex index is
    one of the face's, and it carries that vertex's position and the normal
    the face's shading selects. *)
Lemma corner_is_corner (va : list MeshVertex) (faces : list Face)
    (face : Face) (fi slot : nat) (e : ExportVertex) :
  faces !! fi = Some face ->
  corner va face fi slot = Some e -> is_corner va faces e.
Proof.
  intros Hf H. unfold corner in H.
  destruct (f_vertices face !! slot) as [k|] eqn:Hk; simpl in H; [|discriminate].
  destruct (va !! k) as [v|] eqn:Hv; simpl in H; [|discriminate].
  injection H as <-. exists face, v. simpl.
  repeat split; try assumption; try reflexivity.
  eapply list_elem_of_lookup_2. exact Hk.
Qed.

Lemma triangle_is_corner (va : list MeshVertex) (faces : list Face)
    (face : Face) (fi a b c : nat) (t : list ExportVertex) :
  faces !! fi = Some face ->
  triangle va face fi a b c = Some t -> Forall (is_corner va faces) t.
Proof.
  intros Hf H. unfold triangle in H.
  destruct (corner va face fi a) as [e1|] eqn:H1; simpl in H; [|discriminate].
  destruct (corner va face fi b) as [e2|] eqn:H2; simpl in H; [|discriminate].
  destruct (corner va face fi c) as [e3|] eqn:H3; simpl in H; [|discriminate].
  injection H as <-.
  repeat constructor; eapply corner_is_corner; eauto.
Qed.

Lemma deindex_faces_corners (va : list MeshVertex) (all : list Face)
    (faces : list Face) :
  forall (done : list Face) (eva : list ExportVertex) (mt : list nat)
         (eva' : list ExportVertex) (mt' : list nat),
    all = done ++ faces ->
    Forall (is_corner va all) eva ->
    deindex_faces va faces (length done) eva mt = Some (eva', mt') ->
    Forall (is_corner va all) eva'.
Proof.
  induction faces as [|face faces IH]; intros done eva mt eva' mt' Hall Hev H;
    simpl in H.
  - injection H as <- <-. exact Hev.
  - assert (Hf : all !! length done = Some face).
    { rewrite Hall. apply list_lookup_middle. reflexivity. }
    destruct (triangle va face (length done) 0 1 2) as [t1|] eqn:Ht1; simpl in H;
      [|discriminate].
    pose proof (triangle_is_corner _ _ _ _ _ _ _ _ Hf Ht1) as Hc1.
    assert (Hall' : all = (done ++ [face]) ++ faces)
      by (rewrite <- app_assoc; exact Hall).
    assert (Hlen : S (length done) = length (done ++ [face]))
      by (rewrite length_app; simpl; lia).
    rewrite Hlen in H.
    destruct (length (f_vertices face) =? 4).
    + destruct (triangle va face (length done) 0 2 3) as [t2|] eqn:Ht2; simpl in H;
        [|discriminate].
      pose proof (triangle_is_corner _ _ _ _ _ _ _ _ Hf Ht2) as Hc2.
      eapply IH; [exact Hall'| |exact H].
      apply Forall_app; split; [apply Forall_app; split|]; assumption.
    + simpl in H. eapply IH; [exact Hall'| |exact H].
      apply Forall_app; split; assumption.
Qed.

Lemma assign_corners_Forall {A} (P : ExportVertex -> Prop)
    (upd : A -> ExportVertex -> ExportVertex) (vals : list A) :
  (forall a e, P e -> P (upd a e)) ->
  forall (vi : nat) (eva eva' : list ExportVertex) (vi' : nat),
    Forall P eva ->
    assign_corners upd vals vi eva = Some (eva', vi') -> Forall P eva'.
Proof.
  intros Hupd. induction vals as [|a vals IH]; intros vi eva eva' vi' Hall H;
    simpl in H.
  - injection H as <- <-. exact Hall.
  - destruct (eva !! vi) as [ev|] eqn:Hev; simpl in H; [|discriminate].
    eapply IH; [|exact H]. apply Forall_insert; [exact Hall|].
    apply Hupd. eapply Forall_lookup_1; eauto.
Qed.

Lemma paint_faces_Forall {D A} (P : ExportVertex -> Prop)
    (first second : D -> list A) (upd : A -> ExportVertex -> ExportVertex)
    (data : list D) (faces : list Face) :
  (forall a e, P e -> P (upd a e)) ->
  forall (fi vi : nat) (eva eva' : list ExportVertex),
    Forall P eva ->
    paint_faces first second upd faces data fi vi eva = Some eva' ->
    Forall P eva'.
Proof.
  intros Hupd. induction faces as [|face faces IH]; intros fi vi eva eva' Hall H;
    simpl in H.
  - injection H as <-. exact Hall.
  - destruct (data !! fi) as [d|]; simpl in H; [|discriminate].
    destruct (assign_corners upd (first d) vi eva) as [[e1 v1]|] eqn:H1;
      simpl in H; [|discriminate].
    pose proof (assign_corners_Forall P upd _ Hupd _ _ _ _ Hall H1) as Hall1.
    destruct (length (f_vertices face) =? 4).
    + destruct (assign_corners upd (second d) v1 e1) as [[e2 v2]|] eqn:H2;
        simpl in H; [|discriminate].
      pose proof (assign_corners_Forall P upd _ Hupd _ _ _ _ Hall1 H2) as Hall2.
      eapply IH; [exact Hall2|exact H].
    + simpl in H. eapply IH; [exact Hall1|exact H].
Qed.

Lemma is_corner_Hash (va : list MeshVertex) (faces : list Face) (e : ExportVertex) :
  is_corner va faces e -> is_corner va faces (Hash pyhash e).
Proof.
  unfold is_corner, Hash.
  destruct (position e) as [[? ?] ?] eqn:Hp, (normal e) as [[? ?] ?] eqn:Hn,
    (color e) as [[? ?] ?]. simpl. rewrite Hp, Hn. auto.
Qed.

(** X8. Every vertex [deindex_mesh] emits is a corner of the face it names:
    its vertex index is one of that face's, it carries that mesh vertex's
    position, and its normal is the vertex normal on a smooth face and the
    face normal on a flat one. *)
Theorem deindex_mesh_corners (mesh : Mesh) (mt : list nat)
    (eva : list ExportVertex) (mt' : list nat) :
  deindex_mesh pyhash mesh mt = Some (eva, mt') ->
  Forall (is_corner (vertices mesh) (tessfaces mesh)) eva.
Proof.
  unfold deindex_mesh. intros H.
  destruct (deindex_faces _ _ _ _ _) as [[eva0 mt0]|] eqn:Hf; simpl in H;
    [|discriminate].
  apply (deindex_faces_corners _ (tessfaces mesh) _ []) in Hf;
    [|reflexivity|constructor].
  assert (Hpres : forall A (upd : A -> ExportVertex -> ExportVertex),
    (forall a e, face_index (upd a e) = face_index e
                 /\ vertex_index (upd a e) = vertex_index e
                 /\ position (upd a e) = position e
                 /\ normal (upd a e) = normal e) ->
    forall a e, is_corner (vertices mesh) (tessfaces mesh) e ->
                is_corner (vertices mesh) (tessfaces mesh) (upd a e)).
  { intros A upd Hsame a e (face & v & H1 & H2 & H3 & H4 & H5).
    destruct (Hsame a e) as (E1 & E2 & E3 & E4).
    exists face, v. rewrite E1, E2, E3, E4. auto. }
  destruct (tessface_vertex_colors mesh) as [|cf ?].
  - simpl in H.
    destruct (tessface_uv_textures mesh) as [|tf0 [|tf1 ?]]; simpl in H.
    + injection H as <- <-. apply Forall_fmap.
      eapply Forall_impl; [exact Hf|]. intros e. apply is_corner_Hash.
    + destruct (paint_faces _ _ _ _ tf0 _ _ _) as [e2|] eqn:H2; simpl in H;
        [|discriminate].
      injection H as <- <-. apply Forall_fmap.
      eapply Forall_impl; [|intros e; apply is_corner_Hash].
      eapply paint_faces_Forall; [|exact Hf|exact H2].
      apply Hpres. intros; auto.
    + destruct (paint_faces _ _ _ _ tf0 _ _ _) as [e2|] eqn:H2; simpl in H;
        [|discriminate].
      destruct (paint_faces _ _ _ _ tf1 _ _ _) as [e3|] eqn:H3; simpl in H;
        [|discriminate].
      injection H as <- <-. apply Forall_fmap.
      eapply Forall_impl; [|intros e; apply is_corner_Hash].
      eapply paint_faces_Forall; [| |exact H3]; [apply Hpres; intros; auto|].
      eapply paint_faces_Forall; [|exact Hf|exact H2].
      apply Hpres. intros; auto.
  - destruct (paint_faces _ _ _ _ cf _ _ _) as [e1|] eqn:H1; simpl in H;
      [|discriminate].
    assert (Hf1 : Forall (is_corner (vertices mesh) (tessfaces mesh)) e1).
    { eapply paint_faces_Forall; [|exact Hf|exact H1].
      apply Hpres. intros; auto. }
    destruct (tessface_uv_textures mesh) as [|tf0 [|tf1 ?]]; simpl in H.
    + injection H as <- <-. apply Forall_fmap.
      eapply Forall_impl; [exact Hf1|]. intros e. apply is_corner_Hash.
    + destruct (paint_faces _ _ _ _ tf0 _ _ _) as [e2|] eqn:H2; simpl in H;
        [|discriminate].
      injection H as <- <-. apply Forall_fmap.
      eapply Forall_impl; [|intros e; apply is_corner_Hash].
      eapply paint_faces_Forall; [|exact Hf1|exact H2].
      apply Hpres. intros; auto.
    + destruct (paint_faces _ _ _ _ tf0 _ _ _) as [e2|] eqn:H2; simpl in H;
        [|discriminate].
      destruct (paint_faces _ _ _ _ tf1 _ _ _) as [e3|] eqn:H3; simpl in H;
        [|discriminate].
      injection H as <- <-. apply Forall_fmap.
      eapply Forall_impl; [|intros e; apply is_corner_Hash].
      eapply paint_faces_Forall; [| |exact H3]; [apply Hpres; intros; auto|].
      eapply paint_faces_Forall; [|exact Hf1|exact H2].
      apply Hpres. intros; auto.
Qed.


Lemma deindex_faces_short_face (va : list MeshVertex) (faces : list Face) :
  Exists (fun face => length (f_vertices face) < 3) faces ->
  forall (fi : nat) (eva : list ExportVertex) (mt : list nat),
    deindex_faces va faces fi eva mt = None.
Proof.
  induction 1 as [face faces Hshort|face faces _ IH]; intros fi eva mt; simpl.
  - simpl in Hshort. assert (Ht : triangle va face fi 0 1 2 = None).
    { unfold triangle.
      destruct (corner va face fi 0); simpl; [|reflexivity].
      destruct (corner va face fi 1); simpl; [|reflexivity].
      unfold corner.
      assert (Hn : f_vertices face !! 2 = None) by (apply lookup_ge_None_2; lia).
      rewrite Hn.
      reflexivity. }
    rewrite Ht. reflexivity.
  - destruct (triangle va face fi 0 1 2); simpl; [|reflexivity].
    destruct (length (f_vertices face) =? 4); simpl.
    + destruct (triangle va face fi 0 2 3); simpl; [apply IH|reflexivity].
    + apply IH.
Qed.

Lemma paint_faces_short_data {D A} (first second : D -> list A)
    (upd : A -> ExportVertex -> ExportVertex) (data : list D)
    (faces : list Face) :
  forall (fi vi : nat) (eva : list ExportVertex),
    fi <= length data ->
    length data < fi + length faces ->
    paint_faces first second upd faces data fi vi eva = None.
Proof.
  induction faces as [|face faces IH]; intros fi vi eva Hfi Hlt; simpl in *; [lia|].
  destruct (data !! fi) as [d|] eqn:Hd; simpl; [|reflexivity].
  destruct (assign_corners upd (first d) vi eva) as [r|]; simpl; [|reflexivity].
  apply lookup_lt_Some in Hd.
  destruct (length (f_vertices face) =? 4).
  - destruct (assign_corners upd (second d) r.2 r.1) as [r'|]; simpl;
      [|reflexivity]. apply IH; lia.
  - simpl. apply IH; lia.
Qed.

(** X9. The edges of [deindex_mesh]: a mesh without faces yields no vertex
    and leaves the material table as it was; a face with fewer than three
    vertex indices, or a first UV layer with fewer entries than there are
    faces, makes it raise. *)
Theorem deindex_mesh_edge_cases (mesh : Mesh) (mt : list nat) :
  (tessfaces mesh = [] -> deindex_mesh pyhash mesh mt = Some ([], mt))
  /\ (Exists (fun face => length (f_vertices face) < 3) (tessfaces mesh) ->
      deindex_mesh pyhash mesh mt = None)
  /\ (forall tf0 more,
        tessface_uv_textures mesh = tf0 :: more ->
        length tf0 < length (tessfaces mesh) ->
        deindex_mesh pyhash mesh mt = None).
Proof.
  unfold deindex_mesh. repeat split.
  - intros ->. simpl.
    destruct (tessface_vertex_colors mesh); simpl;
      destruct (tessface_uv_textures mesh) as [|? [|? ?]]; reflexivity.
  - intros Hex. rewrite deindex_faces_short_face by exact Hex. reflexivity.
  - intros tf0 more -> Hlt.
    destruct (deindex_faces _ _ _ _ _) as [[eva0 mt0]|]; simpl; [|reflexivity].
    destruct (match tessface_vertex_colors mesh with [] => _ | _ => _ end)
      as [eva1|]; simpl; [|reflexivity].
    rewrite paint_faces_short_data by (simpl; lia). reflexivity.
Qed.

End DeindexFacts.

Section PipelineFacts.
Import Weld Serial.
#[local] Open Scope nat_scope.

Lemma triangles_of_material_elem (mt : list nat) (m : nat) (it : list nat) (v : nat) :
  forall i : nat, v ∈ triangles_of_material mt i m it -> v ∈ it.
Proof.
  induction mt as [|x mt IH]; intros i Hin; simpl in Hin; [inversion Hin|].
  apply elem_of_app in Hin as [Hin|Hin]; [|eapply IH; exact Hin].
  destruct (x =? m); [|inversion Hin].
  apply list_elem_of_lookup in Hin as [k Hk].
  apply lookup_take_Some in Hk as [Hk _]. rewrite lookup_drop in Hk.
  eapply list_elem_of_lookup_2. exact Hk.
Qed.

Lemma indicator_sum (x n : nat) :
  sum_list_with (fun m => if decide (x = m) then 1 else 0) (seq 0 n)
  = if decide (x < n) then 1 else 0.
Proof.
  induction n as [|n IH]; [reflexivity|].
  rewrite seq_S, sum_list_with_app, IH. simpl.
  destruct (decide (x < n)), (decide (x = n)), (decide (x < S n)); lia.
Qed.

Lemma occurrences_sum (l : list nat) (n : nat) :
  Forall (fun x => x < n) l ->
  sum_list_with (fun m => length (filter (fun x => x = m) l)) (seq 0 n)
  = length l.
Proof.
  induction 1 as [|x l Hx Hall IH]; simpl.
  - induction (seq 0 n) as [|m ms IHm]; simpl; [reflexivity|exact IHm].
  - rewrite <- IH.
    pose proof (indicator_sum x n) as Hind.
    destruct (decide (x < n)); [|lia].
    assert (Hgen : forall ms : list nat,
      sum_list_with (fun m => length (filter (fun y => y = m) (x :: l))) ms
      = sum_list_with (fun m => if decide (x = m) then 1 else 0) ms
        + sum_list_with (fun m => length (filter (fun y => y = m) l)) ms).
    { induction ms as [|m ms IHm]; simpl; [reflexivity|].
      rewrite IHm. destruct (decide (x = m)) as [->|Hne].
      - rewrite filter_cons_True by reflexivity. simpl. lia.
      - rewrite filter_cons_False by assumption. lia. }
    rewrite Hgen, Hind. lia.
Qed.

(** What the index arrays hold together. *)
Lemma index_arrays_sum_elem (material_table indexTable : list nat) :
  3 * length material_table <= length indexTable ->
  exists arrays : list IndexArray,
    index_arrays material_table indexTable = Some arrays
    /\ sum_list_with (fun a => length (ia_values a)) arrays
       = 3 * length material_table
    /\ Forall (fun a => ia_size a = 3
                        /\ forall v, v ∈ ia_values a -> v ∈ indexTable) arrays.
Proof.
  intros Hle. eexists. split; [apply index_arrays_eq; exact Hle|].
  set (mx := max_material_index material_table).
  pose proof (max_material_index_bound material_table) as Hb. fold mx in Hb.
  split.
  - assert (Hf : forall ms : list nat,
      sum_list_with (fun a => length (ia_values a))
        (map (fun m => {| ia_size := 3;
                          ia_values := triangles_of_material material_table 0 m indexTable;
                          ia_material := m |})
           (filter (fun m => mx = 0 \/ m ∈ material_table) ms))
      = 3 * sum_list_with
              (fun m => length (filter (fun x => x = m) material_table)) ms).
    { induction ms as [|m ms IHm]; [reflexivity|].
      pose proof (triangles_of_material_length material_table m indexTable 0
                    ltac:(simpl; lia)) as Hl.
      destruct (decide (mx = 0 \/ m ∈ material_table)) as [Hq|Hq].
      - rewrite filter_cons_True by exact Hq. cbn [map sum_list_with ia_values].
        rewrite IHm, Hl. lia.
      - rewrite filter_cons_False by exact Hq. cbn [sum_list_with].
        rewrite IHm.
        assert (Hnil : filter (fun x => x = m) material_table = []).
        { destruct (filter (fun x => x = m) material_table) as [|y l] eqn:Hfl;
            [reflexivity|].
          assert (Hy : y ∈ filter (fun x => x = m) material_table)
            by (rewrite Hfl; left).
          apply list_elem_of_filter in Hy as [-> Hy]. exfalso. apply Hq. auto. }
        rewrite Hnil. simpl. lia. }
    rewrite Hf, occurrences_sum; [reflexivity|].
    eapply Forall_impl; [exact Hb|]. intros x Hx. simpl in Hx. lia.
  - apply Forall_fmap. apply Forall_forall. intros m _. simpl.
    split; [reflexivity|]. intros v Hv.
    eapply triangles_of_material_elem. exact Hv.
Qed.

(** The triangles of one material are the triangles whose number carries
    that material in the material table. *)
Lemma triangles_of_material_positions (m : nat) (it : list nat) (mt : list nat) :
  forall pre : list nat,
    triangles_of_material mt (length pre) m it
    = flat_map (fun k => take 3 (drop (3 * k) it))
        (filter (fun k => (pre ++ mt) !! k = Some m)
           (seq (length pre) (length mt))).
Proof.
  induction mt as [|x mt IH]; intros pre; [reflexivity|].
  cbn [triangles_of_material length seq].
  specialize (IH (pre ++ [x])). rewrite length_app, <- app_assoc in IH.
  cbn [length app] in IH. rewrite Nat.add_1_r in IH. rewrite IH.
  assert (Hx : (pre ++ x :: mt) !! length pre = Some x)
    by (apply list_lookup_middle; reflexivity).
  destruct (Nat.eqb_spec x m) as [->|Hne].
  - rewrite filter_cons_True by exact Hx. cbn [flat_map].
    rewrite (Nat.mul_comm 3 (length pre)). reflexivity.
  - rewrite filter_cons_False by (rewrite Hx; congruence). reflexivity.
Qed.

Lemma flat_map_app_perm {A B} (g h : A -> list B) (ms : list A) :
  flat_map (fun m => g m ++ h m) ms ≡ₚ flat_map g ms ++ flat_map h ms.
Proof.
  induction ms as [|m ms IH]; [reflexivity|]. cbn [flat_map].
  rewrite IH, <- !app_assoc. apply Permutation_app_head.
  rewrite !app_assoc. apply Permutation_app_tail. apply Permutation_app_comm.
Qed.

Lemma flat_map_indicator (key : nat -> option nat) (k m0 : nat) (ms : list nat) :
  NoDup ms -> m0 ∈ ms -> key k = Some m0 ->
  flat_map (fun m => filter (fun j => key j = Some m) [k]) ms = [k].
Proof.
  intros Hnd. induction Hnd as [|m ms Hnotin Hnd IH]; intros Hin Hk;
    [inversion Hin|].
  cbn [flat_map].
  assert (Hrest : forall l, m0 ∉ l ->
            flat_map (fun m => filter (fun j => key j = Some m) [k]) l = []).
  { intros l. induction l as [|y l IHl]; intros Hy; [reflexivity|].
    cbn [flat_map]. rewrite filter_cons_False, filter_nil.
    - apply IHl. intros H. apply Hy. right. exact H.
    - rewrite Hk. intros E. injection E as ->. apply Hy. left. }
  apply elem_of_cons in Hin as [->|Hin].
  - rewrite filter_cons_True by exact Hk. rewrite filter_nil.
    rewrite Hrest by exact Hnotin. reflexivity.
  - rewrite filter_cons_False, filter_nil.
    + apply IH; assumption.
    + rewrite Hk. intros E. injection E as ->. apply Hnotin. exact Hin.
Qed.

(** Grouping a list by a key loses nothing and repeats nothing. *)
Lemma group_by_key_perm (key : nat -> option nat) (ms : list nat) (l : list nat) :
  NoDup ms ->
  Forall (fun k => exists m, m ∈ ms /\ key k = Some m) l ->
  flat_map (fun m => filter (fun k => key k = Some m) l) ms ≡ₚ l.
Proof.
  intros Hnd. induction 1 as [|k l (m0 & Hm0 & Hk) Hall IH].
  - induction ms as [|m ms IHm]; [reflexivity|].
    cbn [flat_map]. rewrite filter_nil. apply IHm.
    apply NoDup_cons in Hnd as [_ Hnd]. exact Hnd.
  - transitivity (flat_map (fun m => filter (fun j => key j = Some m) [k]
                                     ++ filter (fun j => key j = Some m) l) ms).
    { assert (Heq : flat_map (fun m => filter (fun j => key j = Some m) (k :: l)) ms
                    = flat_map (fun m => filter (fun j => key j = Some m) [k]
                                         ++ filter (fun j => key j = Some m) l) ms).
      { apply flat_map_ext. intros m.
        change (k :: l) with ([k] ++ l). apply filter_app. }
      rewrite Heq. reflexivity. }
    rewrite flat_map_app_perm, (flat_map_indicator key k m0 ms Hnd Hm0 Hk), IH.
    reflexivity.
Qed.

(** X10. Every triangle is written exactly once, in the array of its own
    material: the index arrays correspond one to one to groups of triangle
    numbers that together are a rearrangement of all the triangle numbers
    [0 .. n-1]; each array has size 3, holds the three indices of each
    triangle of its group, in group order, and every triangle of the group
    carries the array's material in the material table. *)
Theorem index_arrays_cover (material_table indexTable : list nat) :
  3 * length material_table <= length indexTable ->
  exists (arrays : list IndexArray) (groups : list (list nat)),
    index_arrays material_table indexTable = Some arrays
    /\ concat groups ≡ₚ seq 0 (length material_table)
    /\ Forall2 (fun a g =>
                  ia_size a = 3
                  /\ ia_values a
                     = flat_map (fun k => take 3 (drop (3 * k) indexTable)) g
                  /\ Forall (fun k => material_table !! k = Some (ia_material a)) g)
         arrays groups.
Proof.
  intros Hle.
  set (mx := max_material_index material_table).
  set (ms := filter (fun m => mx = 0 \/ m ∈ material_table) (seq 0 (mx + 1))).
  set (grp := fun m : nat =>
                filter (fun k => material_table !! k = Some m)
                  (seq 0 (length material_table))).
  eexists. exists (map grp ms). split; [apply index_arrays_eq; exact Hle|].
  fold mx. fold ms. split.
  - rewrite <- flat_map_concat_map. apply group_by_key_perm.
    + apply NoDup_filter. apply NoDup_seq.
    + apply Forall_forall. intros k Hk. apply elem_of_seq in Hk.
      destruct (lookup_lt_is_Some_2 material_table k) as [m Hm]; [lia|].
      exists m. split; [|exact Hm].
      pose proof (max_material_index_bound material_table) as Hb. fold mx in Hb.
      assert (Hin : m ∈ material_table) by (eapply list_elem_of_lookup_2; exact Hm).
      unfold ms. apply list_elem_of_filter. split; [right; exact Hin|].
      apply elem_of_seq. rewrite Forall_forall in Hb. specialize (Hb m Hin). lia.
  - apply Forall2_fmap. apply Forall_Forall2_diag. apply Forall_forall.
    intros m _. cbn [ia_size ia_values ia_material]. split; [reflexivity|]. split.
    + apply (triangles_of_material_positions m indexTable material_table []).
    + unfold grp. apply Forall_forall. intros k Hk.
      apply list_elem_of_filter in Hk as [Hk _]. exact Hk.
Qed.

(** X11. The quality path end to end: for a mesh that de-indexes, welding
    and the index arrays are computed without error, and every index in
    every index array is a valid position in the welded vertex array. *)
Theorem quality_path_indices_valid (pyhash : float -> Z)
    (vector_ne color_ne : Vec3 -> Vec3 -> bool) (mesh : Mesh)
    (export_vertex_array : list ExportVertex) (material_table : list nat) :
  deindex_mesh pyhash mesh [] = Some (export_vertex_array, material_table) ->
  exists (unifiedVA : list ExportVertex) (indexTable : list nat)
         (arrays : list IndexArray),
    unify_vertices vector_ne color_ne export_vertex_array []
      = Some (unifiedVA, indexTable)
    /\ index_arrays material_table indexTable = Some arrays
    /\ Forall (fun a => Forall (fun v => v < length unifiedVA) (ia_values a)) arrays
    /\ sum_list_with (fun a => length (ia_values a)) arrays
       = length export_vertex_array.
Proof.
  intros Hd.
  assert (Hlen : length export_vertex_array = 3 * length material_table).
  { destruct (deindex_mesh_faces pyhash _ _ _ _ Hd) as (eva0 & H0).
    apply deindex_faces_materials in H0. simpl in H0. rewrite H0.
    rewrite face_materials_count.
    apply (deindex_mesh_shape pyhash) in Hd as [Hl _]. exact Hl. }
  destruct (unify_vertices_total vector_ne color_ne export_vertex_array)
    as (st & _ & Hun & Hinv & _).
  pose proof (inv_length _ _ _ _ Hinv) as Hl.
  pose proof (inv_valid _ _ _ _ Hinv) as Hv.
  destruct (index_arrays_sum_elem material_table (indexTable st)) as (arrays & Ha & Hsum & Hall);
    [lia|].
  exists (unifiedVA st), (indexTable st), arrays.
  split; [exact Hun|]. split; [exact Ha|]. split; [|lia].
  eapply Forall_impl; [exact Hall|]. intros a [_ Hin]. simpl.
  apply Forall_forall. intros v Hva.
  eapply Forall_forall in Hv; [exact Hv|]. apply Hin. exact Hva.
Qed.

End PipelineFacts.

(** ** Skin: the group remap and the influence arrays *)

Section SkinMoreFacts.
Import Skin.
#[local] Open Scope nat_scope.

Lemma find_bone_spec (bone_names : list string) (g : string) :
  forall k : Z,
    ((g ∉ bone_names) /\ find_bone bone_names k g = (-1)%Z)
    \/ (exists i : nat,
           bone_names !! i = Some g
           /\ (forall j, j < i -> bone_names !! j <> Some g)
           /\ find_bone bone_names k g = (k + Z.of_nat i)%Z).
Proof.
  induction bone_names as [|name names IH]; intros k; simpl.
  - left. split; [intros H; inversion H|reflexivity].
  - destruct (String.eqb_spec name g) as [->|Hne].
    + right. exists 0. split; [reflexivity|]. split; [intros j Hj; lia|].
      simpl. lia.
    + destruct (IH (k + 1)%Z) as [[Hnot Hf]|(i & Hi & Hfirst & Hf)].
      * left. split; [|exact Hf]. intros Hin.
        apply elem_of_cons in Hin as [Heq|Hin]; [congruence|contradiction].
      * right. exists (S i). split; [exact Hi|]. split.
        -- intros [|j] Hj; simpl; [congruence|]. apply Hfirst. lia.
        -- rewrite Hf. lia.
Qed.

Lemma group_remap_range (vertex_groups bone_names : list string) (r : Z) :
  r ∈ build_group_remap vertex_groups bone_names ->
  (-1 <= r < Z.of_nat (length bone_names))%Z.
Proof.
  unfold build_group_remap. intros Hin.
  apply list_elem_of_fmap in Hin as (g & -> & _).
  destruct (find_bone_spec bone_names g 0) as [[_ ->]|(i & Hi & _ & ->)]; [lia|].
  apply lookup_lt_Some in Hi. lia.
Qed.

(** X12. The group remap has one entry per vertex group: -1 when no bone
    carries the group's name, otherwise the index of the first bone that
    does. *)
Theorem build_group_remap_spec (vertex_groups bone_names : list string) :
  length (build_group_remap vertex_groups bone_names) = length vertex_groups
  /\ forall (k : nat) (g : string),
       vertex_groups !! k = Some g ->
       exists r : Z,
         build_group_remap vertex_groups bone_names !! k = Some r
         /\ ((r = (-1)%Z /\ g ∉ bone_names)
             \/ ((0 <= r)%Z
                 /\ bone_names !! Z.to_nat r = Some g
                 /\ forall j, j < Z.to_nat r -> bone_names !! j <> Some g)).
Proof.
  unfold build_group_remap. split; [apply length_map|].
  intros k g Hk. exists (find_bone bone_names 0 g). split.
  - rewrite list_lookup_fmap, Hk. reflexivity.
  - destruct (find_bone_spec bone_names g 0) as [[Hnot Hf]|(i & Hi & Hfirst & Hf)].
    + left. auto.
    + right. rewrite Hf. replace (0 + Z.of_nat i)%Z with (Z.of_nat i) by lia.
      rewrite Nat2Z.id. split; [lia|]. auto.
Qed.

Lemma gather_spec (group_remap : list Z) (elements : list VertexGroupElement) :
  forall (bv : list (float * Z)) (tw : float) (bc : nat)
         (bv' : list (float * Z)) (tw' : float) (bc' : nat),
    gather group_remap elements bv tw bc = Some (bv', tw', bc') ->
    bv' = bv ++ omap (contribution group_remap) elements
    /\ bc' = bc + length (omap (contribution group_remap) elements).
Proof.
  induction elements as [|e els IH]; intros bv tw bc bv' tw' bc' H; simpl in H.
  - injection H as <- <- <-. simpl. rewrite app_nil_r. split; [reflexivity|lia].
  - assert (Heq : omap (contribution group_remap) (e :: els)
                  = match contribution group_remap e with
                    | Some y => y :: omap (contribution group_remap) els
                    | None => omap (contribution group_remap) els
                    end) by reflexivity.
    rewrite Heq. clear Heq.
    set (rest := omap (contribution group_remap) els) in *.
    unfold contribution.
    destruct (group_remap !! group e) as [bi|]; simpl in H; [|discriminate].
    destruct ((0 <=? bi)%Z && negb (PrimFloat.eqb (weight e) 0)).
    + apply IH in H as [-> ->]. rewrite <- app_assoc.
      split; [reflexivity|]. cbn [length]. lia.
    + apply IH in H as [-> ->]. split; reflexivity.
Qed.

Lemma gather_total (group_remap : list Z) (elements : list VertexGroupElement) :
  Forall (fun e => group e < length group_remap) elements ->
  forall (bv : list (float * Z)) (tw : float) (bc : nat),
    is_Some (gather group_remap elements bv tw bc).
Proof.
  induction 1 as [|e els He Hall IH]; intros bv tw bc; simpl; [eauto|].
  destruct (lookup_lt_is_Some_2 group_remap (group e) He) as [bi Hbi].
  rewrite Hbi. simpl. destruct (_ && _); apply IH.
Qed.

Lemma contribution_range (group_remap : list Z) (elements : list VertexGroupElement) :
  Forall (fun x => (0 <= x.2)%Z /\ x.2 ∈ group_remap)
    (omap (contribution group_remap) elements).
Proof.
  induction elements as [|e els IH]; [constructor|].
  assert (Heq : omap (contribution group_remap) (e :: els)
                = match contribution group_remap e with
                  | Some y => y :: omap (contribution group_remap) els
                  | None => omap (contribution group_remap) els
                  end) by reflexivity.
  rewrite Heq. clear Heq.
  set (rest := omap (contribution group_remap) els) in *.
  unfold contribution.
  destruct (group_remap !! group e) as [bi|] eqn:Hbi; [|exact IH].
  destruct (Z.leb_spec 0 bi); simpl; [|exact IH].
  destruct (negb _); [|exact IH].
  constructor; [|exact IH]. simpl. split; [assumption|].
  eapply list_elem_of_lookup_2. exact Hbi.
Qed.

Lemma insert_sorted_perm (x : float * Z) (l : list (float * Z)) :
  insert_sorted x l ≡ₚ x :: l.
Proof.
  induction l as [|y l IH]; simpl; [reflexivity|].
  destruct (tuple_lt x y); [reflexivity|].
  rewrite IH. apply Permutation_swap.
Qed.

Lemma sorted_perm (l : list (float * Z)) : sorted l ≡ₚ l.
Proof.
  unfold sorted.
  assert (Hgen : forall acc, fold_left (fun acc x => insert_sorted x acc) l acc ≡ₚ acc ++ l).
  { induction l as [|x l IH]; intros acc; simpl.
    - rewrite app_nil_r. reflexivity.
    - rewrite IH, insert_sorted_perm. simpl. apply Permutation_middle. }
  apply (Hgen []).
Qed.

Lemma scale_weights_spec (normalizer : float) (indices : list nat) :
  forall bwa : list float,
    Forall (fun i => i < length bwa) indices ->
    0 < length bwa \/ indices = [] ->
    exists bwa', scale_weights normalizer indices bwa = Some bwa'
                 /\ length bwa' = length bwa.
Proof.
  induction indices as [|i rest IH]; intros bwa Hall Hpos; simpl; [eauto|].
  apply Forall_cons in Hall as [Hi Hall].
  destruct Hpos as [Hpos|Hnil]; [|discriminate].
  assert (Hk : exists k, neg_index (length bwa) i = Some k /\ k < length bwa).
  { unfold neg_index. destruct (Nat.eqb_spec i 0) as [->|Hnz].
    - destruct (Nat.ltb_spec 0 (length bwa)); [|lia]. eauto.
    - destruct (Nat.leb_spec i (length bwa)); [|lia]. eexists. split; [reflexivity|lia]. }
  destruct Hk as (k & Hk & Hkl). rewrite Hk. simpl.
  destruct (lookup_lt_is_Some_2 bwa k Hkl) as [w Hw]. rewrite Hw. simpl.
  destruct (IH (<[k := PrimFloat.mul w normalizer]> bwa)) as (bwa' & Hs & Hl).
  - rewrite length_insert. exact Hall.
  - rewrite length_insert. auto.
  - exists bwa'. split; [exact Hs|]. rewrite Hl, length_insert. reflexivity.
Qed.

(** What one vertex appends to the packed arrays. *)
Lemma pack_vertex_spec (group_remap : list Z) (mesh_vertex_array : list MeshVertex)
    (vi : nat) (p : Packed) (mv : MeshVertex) :
  length (bone_index_array p) = length (bone_weight_array p) ->
  mesh_vertex_array !! vi = Some mv ->
  Forall (fun e => group e < length group_remap) (groups mv) ->
  let cs := contributions group_remap mv in
  exists (p' : Packed) (added : list Z),
    pack_vertex group_remap mesh_vertex_array vi p = Some p'
    /\ bone_count_array p' = bone_count_array p ++ [length cs `min` 4]
    /\ bone_index_array p' = bone_index_array p ++ added
    /\ added ≡ₚ map snd (take 4 cs)
    /\ length (bone_weight_array p') = length (bone_index_array p')
    /\ warn_bones p' = warn_bones p || (4 <? length cs).
Proof.
  intros Hlen Hmv Hgroups cs. unfold pack_vertex. rewrite Hmv. simpl.
  destruct (gather_total group_remap (groups mv) Hgroups [] 0%float 0)
    as [[[bv tw] bc] Hg].
  rewrite Hg. simpl.
  apply gather_spec in Hg as [Hbv Hbc]. simpl in Hbv, Hbc. fold cs in Hbv, Hbc.
  subst bv bc.
  set (clamp := 4 <? length cs).
  set (kept := if clamp then take 4 cs else cs).
  set (count := if clamp then 4 else length cs).
  assert (Hkept : kept = take 4 cs).
  { unfold kept, clamp. destruct (Nat.ltb_spec 4 (length cs)); [reflexivity|].
    rewrite take_ge by lia. reflexivity. }
  assert (Hcount : count = length cs `min` 4).
  { unfold count, clamp. destruct (Nat.ltb_spec 4 (length cs)); lia. }
  assert (Hklen : length kept = count).
  { rewrite Hkept, Hcount, length_take. lia. }
  assert (Hord : length (rev (sorted kept)) = count).
  { rewrite length_rev, (Permutation_length (sorted_perm kept)). exact Hklen. }
  set (bwa := bone_weight_array p ++ map fst (rev (sorted kept))).
  assert (Hbwa : length bwa = length (bone_weight_array p) + count).
  { unfold bwa. rewrite length_app, length_map, Hord. reflexivity. }
  assert (Hscaled : exists bwa',
    (if negb (PrimFloat.eqb tw 0)
     then scale_weights (PrimFloat.div 1 tw) (seq 0 count) bwa
     else Some bwa) = Some bwa' /\ length bwa' = length bwa).
  { destruct (negb (PrimFloat.eqb tw 0)); [|eauto].
    apply scale_weights_spec.
    - apply Forall_forall. intros i Hi. apply elem_of_seq in Hi. lia.
    - destruct count; [right; reflexivity|left; lia]. }
  destruct Hscaled as (bwa' & Hs & Hl).
  unfold bwa, count, kept, clamp, cs, contributions in Hs. rewrite Hs. simpl.
  eexists. exists (map snd (rev (sorted kept))). split; [reflexivity|]. simpl.
  split; [rewrite <- Hcount; reflexivity|]. split; [reflexivity|]. split.
  - rewrite <- Hkept. apply Permutation_map.
    rewrite <- Permutation_rev. apply sorted_perm.
  - split; [|reflexivity]. rewrite Hl, Hbwa.
    change (length (bone_index_array p ++ map snd (rev (sorted kept)))
            = length (bone_weight_array p) + count) || idtac.
    transitivity (length (bone_index_array p ++ map snd (rev (sorted kept))));
      [|reflexivity].
    rewrite length_app, length_map, Hord. lia.
Qed.


Lemma gather_Some_groups (group_remap : list Z) (elements : list VertexGroupElement) :
  forall (bv : list (float * Z)) (tw : float) (bc : nat),
    is_Some (gather group_remap elements bv tw bc) ->
    Forall (fun e => group e < length group_remap) elements.
Proof.
  induction elements as [|e els IH]; intros bv tw bc H; [constructor|].
  simpl in H. destruct (group_remap !! group e) as [bi|] eqn:Hbi;
    [|destruct H as [? H]; discriminate].
  simpl in H. constructor.
  - eapply lookup_lt_Some. exact Hbi.
  - destruct (_ && _); eapply IH; exact H.
Qed.

Lemma pack_vertex_Some (group_remap : list Z) (mesh_vertex_array : list MeshVertex)
    (vi : nat) (p : Packed) :
  is_Some (pack_vertex group_remap mesh_vertex_array vi p) ->
  well_indexed (length group_remap) mesh_vertex_array vi.
Proof.
  unfold pack_vertex, well_indexed. intros [p' H].
  destruct (mesh_vertex_array !! vi) as [mv|]; [|discriminate]. simpl in H.
  exists mv. split; [reflexivity|].
  destruct (gather group_remap (groups mv) [] 0%float 0) as [g|] eqn:Hg;
    [|discriminate].
  eapply gather_Some_groups. rewrite Hg. eauto.
Qed.

Lemma pack_loop_spec (group_remap : list Z) (mesh_vertex_array : list MeshVertex) :
  forall (vis : list nat) (vs : list MeshVertex) (p : Packed),
    length (bone_index_array p) = length (bone_weight_array p) ->
    Forall2 (fun vi mv => mesh_vertex_array !! vi = Some mv) vis vs ->
    Forall (fun mv => Forall (fun e => group e < length group_remap) (groups mv)) vs ->
    exists (p' : Packed) (blocks : list (list Z)),
      pack_loop group_remap mesh_vertex_array vis p = Some p'
      /\ bone_count_array p'
         = bone_count_array p
           ++ map (fun mv => length (contributions group_remap mv) `min` 4) vs
      /\ bone_index_array p' = bone_index_array p ++ concat blocks
      /\ Forall2 (fun mv block =>
                    block ≡ₚ map snd (take 4 (contributions group_remap mv)))
           vs blocks
      /\ length (bone_weight_array p') = length (bone_index_array p')
      /\ warn_bones p'
         = warn_bones p
           || existsb (fun mv => 4 <? length (contributions group_remap mv)) vs.
Proof.
  induction vis as [|vi rest IH]; intros vs p Hlen H2 Hall.
  - inversion H2; subst. exists p, []. simpl.
    rewrite !app_nil_r, orb_false_r. repeat split; auto.
  - inversion H2 as [|? mv ? vs' Hmv H2']; subst.
    apply Forall_cons in Hall as [Hg Hall].
    destruct (pack_vertex_spec group_remap mesh_vertex_array vi p mv Hlen Hmv Hg)
      as (p1 & a1 & Hp1 & Hc1 & Hi1 & Ha1 & Hl1 & Hw1).
    destruct (IH vs' p1 (eq_sym Hl1) H2' Hall)
      as (p2 & blocks & Hp2 & Hc2 & Hi2 & Hb2 & Hl2 & Hw2).
    exists p2, (a1 :: blocks). simpl. rewrite Hp1. simpl.
    split; [exact Hp2|]. split; [rewrite Hc2, Hc1, <- app_assoc; reflexivity|].
    split; [rewrite Hi2, Hi1, <- app_assoc; reflexivity|].
    split; [constructor; assumption|]. split; [exact Hl2|].
    rewrite Hw2, Hw1, orb_assoc. reflexivity.
Qed.

Lemma pack_loop_Some (group_remap : list Z) (mesh_vertex_array : list MeshVertex) :
  forall (vis : list nat) (p : Packed),
    is_Some (pack_loop group_remap mesh_vertex_array vis p) ->
    Forall (well_indexed (length group_remap) mesh_vertex_array) vis.
Proof.
  induction vis as [|vi rest IH]; intros p H; [constructor|].
  simpl in H.
  destruct (pack_vertex group_remap mesh_vertex_array vi p) as [p'|] eqn:Hp;
    [|destruct H; discriminate].
  constructor.
  - eapply pack_vertex_Some. rewrite Hp. eauto.
  - eapply IH. exact H.
Qed.

Lemma well_indexed_vertices (n : nat) (mesh_vertex_array : list MeshVertex)
    (vis : list nat) :
  Forall (well_indexed n mesh_vertex_array) vis ->
  exists vs,
    Forall2 (fun vi mv => mesh_vertex_array !! vi = Some mv) vis vs
    /\ Forall (fun mv => Forall (fun e => group e < n) (groups mv)) vs.
Proof.
  induction 1 as [|vi rest (mv & Hmv & Hg) _ (vs & H2 & Hall)].
  - exists []. split; constructor.
  - exists (mv :: vs). split; constructor; assumption.
Qed.

Lemma sum_min_length (f : MeshVertex -> list (float * Z)) (vs : list MeshVertex) :
  length (flat_map (fun mv => map snd (take 4 (f mv))) vs)
  = sum_list (map (fun mv => length (f mv) `min` 4) vs).
Proof.
  induction vs as [|mv vs IH]; [reflexivity|].
  cbn [flat_map map sum_list sum_list_with]. rewrite length_app, length_map, length_take, IH.
  unfold id. rewrite (Nat.min_comm 4). reflexivity.
Qed.

(** X13. The influence arrays of a skinned mesh. With every exported vertex
    pointing at a mesh vertex whose groups are known vertex groups, the
    export succeeds. The bone index array is the concatenation, in vertex
    order, of one block per exported vertex; the block of a vertex holds,
    up to order, the bones of the first four contributions of that vertex
    and of no other; the vertex's bone count is the length of its block,
    which is the number of its contributions capped at four. The weight
    array has one entry per index, every bone index is a valid index into
    the bone array, and the warning is raised exactly when some vertex had
    more than four contributions. *)
Theorem export_skin_quality_arrays (vertex_groups bone_names : list string)
    (mesh_vertex_array : list MeshVertex) (vertex_indices : list nat)
    (vs : list MeshVertex) :
  Forall2 (fun vi mv => mesh_vertex_array !! vi = Some mv) vertex_indices vs ->
  Forall (fun mv => Forall (fun e => group e < length vertex_groups) (groups mv)) vs ->
  let group_remap := build_group_remap vertex_groups bone_names in
  exists (p : Packed) (blocks : list (list Z)),
    export_skin_quality vertex_groups bone_names mesh_vertex_array vertex_indices
    = Some p
    /\ bone_index_array p = concat blocks
    /\ Forall2 (fun mv block =>
                  block ≡ₚ map snd (take 4 (contributions group_remap mv)))
         vs blocks
    /\ bone_count_array p = map length blocks
    /\ bone_count_array p
       = map (fun mv => length (contributions group_remap mv) `min` 4) vs
    /\ length (bone_index_array p) = sum_list (bone_count_array p)
    /\ length (bone_weight_array p) = sum_list (bone_count_array p)
    /\ Forall (fun b => (0 <= b < Z.of_nat (length bone_names))%Z) (bone_index_array p)
    /\ warn_bones p
       = existsb (fun mv => 4 <? length (contributions group_remap mv)) vs.
Proof.
  intros H2 Hall group_remap. unfold export_skin_quality. fold group_remap.
  assert (Hall' : Forall (fun mv => Forall (fun e => group e < length group_remap)
                                      (groups mv)) vs).
  { unfold group_remap, build_group_remap. rewrite length_map. exact Hall. }
  destruct (pack_loop_spec group_remap mesh_vertex_array vertex_indices vs
              {| bone_count_array := []; bone_index_array := [];
                 bone_weight_array := []; warn_bones := false |}
              eq_refl H2 Hall')
    as (p & blocks & Hp & Hc & Hi & Hb & Hl & Hw).
  simpl in Hc, Hi, Hw.
  assert (Hcount : map length blocks
                   = map (fun mv => length (contributions group_remap mv) `min` 4) vs).
  { clear -Hb. induction Hb as [|mv block vs' blocks' Hblock _ IH]; [reflexivity|].
    cbn [map]. rewrite IH, (Permutation_length Hblock), length_map, length_take.
    f_equal. lia. }
  assert (Hperm : concat blocks
                  ≡ₚ flat_map (fun mv => map snd (take 4 (contributions group_remap mv)))
                       vs).
  { clear -Hb. induction Hb as [|mv block vs' blocks' Hblock _ IH]; [reflexivity|].
    cbn [concat flat_map]. rewrite Hblock, IH. reflexivity. }
  assert (Hlen : length (bone_index_array p) = sum_list (bone_count_array p)).
  { rewrite Hi, (Permutation_length Hperm), Hc. apply sum_min_length. }
  exists p, blocks. split; [exact Hp|]. split; [exact Hi|]. split; [exact Hb|].
  split; [congruence|]. split; [exact Hc|]. split; [exact Hlen|].
  split; [congruence|]. split; [|exact Hw].
  rewrite Hi, Hperm. apply Forall_flat_map. apply Forall_forall. intros mv _.
  apply Forall_fmap. apply Forall_take.
  eapply Forall_impl; [apply contribution_range|].
  intros [w b] [Hpos Hin]. simpl in *.
  apply group_remap_range in Hin. lia.
Qed.

(** X14. The influence export fails exactly when an exported vertex points
    outside the mesh's vertices or a vertex is in a group that is not one
    of the object's vertex groups; the in-place weight scaling never
    fails. *)
Theorem export_skin_quality_defined_iff (vertex_groups bone_names : list string)
    (mesh_vertex_array : list MeshVertex) (vertex_indices : list nat) :
  is_Some (export_skin_quality vertex_groups bone_names mesh_vertex_array
             vertex_indices)
  <-> Forall (well_indexed (length vertex_groups) mesh_vertex_array) vertex_indices.
Proof.
  split.
  - intros H. apply pack_loop_Some in H.
    unfold build_group_remap in H. rewrite length_map in H. exact H.
  - intros H. apply well_indexed_vertices in H as (vs & H2 & Hall).
    unfold export_skin_quality.
    destruct (pack_loop_spec (build_group_remap vertex_groups bone_names)
                mesh_vertex_array vertex_indices vs
                {| bone_count_array := []; bone_index_array := [];
                   bone_weight_array := []; warn_bones := false |} eq_refl H2)
      as (p & added & Hp & _).
    + unfold build_group_remap. rewrite length_map. exact Hall.
    + rewrite Hp. eauto.
Qed.

End SkinMoreFacts.

(** ** Sampled and keyframe tracks *)

Section SampleMoreFacts.
Import Sample.

(** The detection loop answers whether some frame's matrix differs from
    [m1]; each frame is read at subframe 0. *)
Lemma detect_animation_run (f : Scene -> Matrix) (m1 : Matrix) (frames : list Z) :
  forall s : Scene,
    fst (detect_animation f m1 frames s)
    = existsb (fun i => matrices_different m1 (f (at_frame i))) frames.
Proof.
  induction frames as [|i frames IH]; intros s; [reflexivity|].
  cbn [detect_animation existsb]. unfold bind, frame_set, eval, ret. simpl.
  fold (at_frame i).
  destruct (matrices_different m1 (f (at_frame i))); [reflexivity|].
  apply IH.
Qed.

Lemma sample_frames_run (f : Scene -> Matrix) (frames : list Z) :
  forall (acc : list float) (s : Scene),
    fst (sample_frames f frames acc s)
    = acc ++ flat_map (fun i => write_matrix (f (at_frame i))) frames.
Proof.
  induction frames as [|i frames IH]; intros acc s.
  - simpl. rewrite app_nil_r. reflexivity.
  - cbn [sample_frames flat_map]. unfold bind, frame_set, eval. simpl.
    fold (at_frame i). rewrite IH, <- app_assoc. reflexivity.
Qed.

Lemma flat_map_write_matrix_length (g : Z -> Matrix) (frames : list Z) :
  length (flat_map (fun i => write_matrix (g i)) frames)
  = (16 * length frames)%nat.
Proof.
  induction frames as [|i frames IH]; [reflexivity|].
  cbn [flat_map]. rewrite length_app, IH. simpl. lia.
Qed.

Lemma sampled_body_run (ft : float) (b e : Z) (watched sampled : Scene -> Matrix)
    (m1 : Matrix) (restore : M unit) (s : Scene) :
  fst (sampled_body ft b e watched sampled m1 restore s)
  = if existsb (fun i => matrices_different m1 (watched (at_frame i))) (range b e)
    then Some {| target := "transform";
                 times := track_times ft b e;
                 values := flat_map (fun i => write_matrix (sampled (at_frame i)))
                             (range b e ++ [e]) |}
    else None.
Proof.
  unfold sampled_body. unfold bind at 1.
  pose proof (detect_animation_run watched m1 (range b e) s) as Hd.
  destruct (detect_animation watched m1 (range b e) s) as [flag s1].
  simpl in Hd. subst flag.
  destruct (existsb _ (range b e)).
  - unfold bind at 1 2.
    pose proof (sample_frames_run sampled (range b e) [] s1) as Hs.
    destruct (sample_frames sampled (range b e) [] s1) as [vals s2].
    simpl in Hs. subst vals.
    unfold bind, frame_set, eval, ret. simpl.
    destruct (restore _) as [u s3]. simpl.
    rewrite flat_map_app. reflexivity.
  - unfold ret, bind. simpl. destruct (restore s1). reflexivity.
Qed.

Lemma export_object_sampled_animation_body (self : Exporter) (bobject : BObject)
    (s : Scene) :
  export_object_sampled_animation self bobject s
  = sampled_body (frameTime self) (beginFrame self) (endFrame self)
      (matrix_local bobject) (matrix_local bobject) (matrix_local bobject s)
      (frame_set (frame_current s) (frame_subframe s)) s.
Proof. reflexivity. Qed.

Lemma get_action_framerange_clamps (py_int : float -> option Z) (self : Exporter)
    (action : Action) :
  get_action_framerange py_int self action
  = (pb ← py_int (fst (frame_range action));
     pe ← py_int (snd (frame_range action));
     Some (Z.max pb (beginFrame self), Z.min pe (endFrame self))).
Proof.
  unfold get_action_framerange.
  destruct (py_int (fst (frame_range action))) as [pb|]; [|reflexivity].
  destruct (py_int (snd (frame_range action))) as [pe|]; [|reflexivity].
  simpl. do 2 f_equal.
  - destruct (Z.ltb_spec pb (beginFrame self)); lia.
  - destruct (Z.ltb_spec (endFrame self) pe); lia.
Qed.

Lemma mapM_app_option {A B} (f : A -> option B) (l1 l2 : list A) :
  mapM f (l1 ++ l2)
  = (k1 ← mapM f l1; k2 ← mapM f l2; Some (k1 ++ k2)).
Proof.
  induction l1 as [|x l1 IH]; simpl.
  - destruct (mapM f l2); reflexivity.
  - destruct (f x) as [y|]; simpl; [|reflexivity].
    rewrite IH. destruct (mapM f l1) as [k1|]; simpl; [|reflexivity].
    destruct (mapM f l2); reflexivity.
Qed.

(** The bone's sampling loop answers the flattened matrices of the frames
    it visits, or raises at the first frame whose matrix cannot be
    computed. *)
Lemma sample_bone_frames_run (inverted : Matrix -> option Matrix)
    (matmul : Matrix -> Matrix -> Matrix) (poseBone : PoseBone) (frames : list Z) :
  forall (acc : list float) (s : Scene),
    fst (sample_bone_frames inverted matmul poseBone frames acc s)
    = (ms ← mapM (fun i => parent_relative inverted matmul poseBone (at_frame i))
              frames;
       Some (acc ++ flat_map write_matrix ms)).
Proof.
  induction frames as [|i frames IH]; intros acc s.
  - simpl. rewrite app_nil_r. reflexivity.
  - cbn [sample_bone_frames mapM]. unfold ebind at 1 2, lift, frame_set, call.
    cbv beta iota. fold (at_frame i).
    destruct (parent_relative inverted matmul poseBone (at_frame i)) as [m|];
      [|reflexivity].
    cbn [mbind option_bind mret option_ret]. rewrite IH.
    destruct (mapM _ frames) as [ms|]; [|reflexivity].
    simpl. rewrite <- app_assoc. reflexivity.
Qed.

(** What the bone exporter answers, with [None] for a raise. *)
Lemma export_bone_sampled_animation_run (py_int : float -> option Z)
    (inverted : Matrix -> option Matrix) (matmul : Matrix -> Matrix -> Matrix)
    (self : Exporter) (poseBone : PoseBone) (action : Action) (s : Scene) :
  fst (export_bone_sampled_animation py_int inverted matmul self poseBone action s)
  = match get_action_framerange py_int self action with
    | None => None
    | Some (b, e) =>
        if existsb (fun i => matrices_different (matrix poseBone s)
                               (matrix poseBone (at_frame i))) (range b e)
        then
          match mapM (fun i => parent_relative inverted matmul poseBone (at_frame i))
                  (range b e ++ [e]) with
          | Some ms =>
              Some (Some {| target := "transform";
                            times := track_times (frameTime self) b e;
                            values := flat_map write_matrix ms |})
          | None => None
          end
        else Some None
    end.
Proof.
  unfold export_bone_sampled_animation.
  unfold ebind at 1 2, lift at 1, get, call at 1. cbv beta iota.
  destruct (get_action_framerange py_int self action) as [[b e]|];
    [|reflexivity].
  unfold ebind at 1 2, lift at 1 2, eval. cbv beta iota.
  pose proof (detect_animation_run (matrix poseBone) (matrix poseBone s)
                (range b e) s) as Hd.
  destruct (detect_animation (matrix poseBone) (matrix poseBone s) (range b e) s)
    as [flag s1].
  simpl in Hd. subst flag. cbv beta iota.
  destruct (existsb _ (range b e)).
  - unfold ebind at 1 2.
    pose proof (sample_bone_frames_run inverted matmul poseBone (range b e) [] s1)
      as Hs.
    rewrite mapM_app_option.
    destruct (sample_bone_frames inverted matmul poseBone (range b e) [] s1)
      as [vals s2].
    simpl in Hs. subst vals.
    destruct (mapM _ (range b e)) as [ms|]; [|reflexivity].
    cbn [mbind option_bind].
    unfold ebind, lift, frame_set, call, eret. cbv beta iota.
    fold (at_frame e). cbn [mapM].
    destruct (parent_relative inverted matmul poseBone (at_frame e)) as [m|];
      [|reflexivity].
    cbn [mbind option_bind mret option_ret fst].
    rewrite flat_map_app. reflexivity.
  - unfold ebind, lift, frame_set, eret. reflexivity.
Qed.

(** X15. What the object exporter answers. A track is emitted exactly when,
    at some frame of [range(beginFrame, endFrame)], the local matrix
    differs in some entry by more than the epsilon from the matrix at the
    frame the scene was on; the track then holds the matrices of the frames
    [beginFrame .. endFrame], end frame included, in order, each read at
    subframe 0. *)
Theorem object_sampled_track (self : Exporter) (bobject : BObject) (s : Scene) :
  let b := beginFrame self in
  let e := endFrame self in
  fst (export_object_sampled_animation self bobject s)
  = if existsb (fun i => matrices_different (matrix_local bobject s)
                           (matrix_local bobject (at_frame i))) (range b e)
    then Some {| target := "transform";
                 times := track_times (frameTime self) b e;
                 values := flat_map
                             (fun i => write_matrix (matrix_local bobject (at_frame i)))
                             (range b e ++ [e]) |}
    else None.
Proof.
  intros b e. rewrite export_object_sampled_animation_body.
  apply sampled_body_run.
Qed.

(** X16. What the bone exporter answers. The frames are those of the
    action's range cut to the export range, and the exporter raises when
    [int] does on either end of the action's range. The matrix watched for
    changes is the pose bone's own; when none of the frames changes it, no
    track is emitted. When one does, the matrix written for each frame,
    end frame included, is the one relative to the parent, and the exporter
    raises instead of emitting a track when the parent's matrix has no
    inverse at one of these frames. *)
Theorem bone_sampled_track (py_int : float -> option Z)
    (inverted : Matrix -> option Matrix) (matmul : Matrix -> Matrix -> Matrix)
    (self : Exporter) (poseBone : PoseBone) (action : Action) (s : Scene) :
  get_action_framerange py_int self action
  = (pb ← py_int (fst (frame_range action));
     pe ← py_int (snd (frame_range action));
     Some (Z.max pb (beginFrame self), Z.min pe (endFrame self)))
  /\ fst (export_bone_sampled_animation py_int inverted matmul
            self poseBone action s)
     = match get_action_framerange py_int self action with
       | None => None
       | Some (b, e) =>
           if existsb (fun i => matrices_different (matrix poseBone s)
                                  (matrix poseBone (at_frame i))) (range b e)
           then
             match mapM (fun i =>
                           match parent poseBone with
                           | Some p =>
                               inverse ← inverted (matrix p (at_frame i));
                               Some (matmul inverse (matrix poseBone (at_frame i)))
                           | None => Some (matrix poseBone (at_frame i))
                           end)
                     (range b e ++ [e]) with
             | Some ms =>
                 Some (Some {| target := "transform";
                               times := track_times (frameTime self) b e;
                               values := flat_map write_matrix ms |})
             | None => None
             end
           else Some None
       end.
Proof.
  split; [apply get_action_framerange_clamps|].
  apply export_bone_sampled_animation_run.
Qed.

Lemma range_length (a b : Z) : length (range a b) = Z.to_nat (b - a).
Proof. unfold range. rewrite length_map, length_seq. reflexivity. Qed.

Lemma sampled_body_shape (ft : float) (b e : Z) (watched sampled : Scene -> Matrix)
    (m1 : Matrix) (restore : M unit) (s : Scene) (track : Track) :
  fst (sampled_body ft b e watched sampled m1 restore s) = Some track ->
  b < e /\ length (times track) = S (Z.to_nat (e - b))
  /\ length (values track) = (16 * length (times track))%nat.
Proof.
  rewrite sampled_body_run.
  destruct (existsb _ (range b e)) eqn:Hex; [|discriminate].
  intros H. injection H as <-. simpl.
  assert (Hlt : b < e).
  { destruct (Z.ltb_spec b e) as [Hlt|Hge]; [exact Hlt|].
    unfold range in Hex. replace (Z.to_nat (e - b)) with 0%nat in Hex by lia.
    discriminate. }
  split; [exact Hlt|].
  unfold track_times.
  rewrite flat_map_write_matrix_length, !length_app, length_map, range_length.
  simpl. split; lia.
Qed.

(** X17. Every track a sampled exporter emits has one time per frame of
    the closed range and sixteen values per time; none is emitted for an
    empty or reversed frame range, and a bone's frames stay inside the
    export range. *)
Theorem sampled_track_shape :
  (forall (self : Exporter) (bobject : BObject) (s : Scene) (track : Track),
      fst (export_object_sampled_animation self bobject s) = Some track ->
      beginFrame self < endFrame self
      /\ length (times track)
         = S (Z.to_nat (endFrame self - beginFrame self))
      /\ length (values track) = (16 * length (times track))%nat)
  /\ (forall (py_int : float -> option Z) (inverted : Matrix -> option Matrix)
             (matmul : Matrix -> Matrix -> Matrix)
             (self : Exporter) (poseBone : PoseBone) (action : Action)
             (s : Scene) (track : Track),
         fst (export_bone_sampled_animation py_int inverted matmul
                self poseBone action s) = Some (Some track) ->
         exists b e : Z,
           get_action_framerange py_int self action = Some (b, e)
           /\ b < e
           /\ beginFrame self <= b /\ e <= endFrame self
           /\ length (times track) = S (Z.to_nat (e - b))
           /\ length (values track) = (16 * length (times track))%nat).
Proof.
  split.
  - intros self bobject s track. rewrite export_object_sampled_animation_body.
    apply sampled_body_shape.
  - intros py_int inverted matmul self poseBone action s track.
    rewrite export_bone_sampled_animation_run.
    pose proof (get_action_framerange_clamps py_int self action) as Hc.
    destruct (get_action_framerange py_int self action) as [[b e]|];
      [|discriminate].
    destruct (existsb _ (range b e)) eqn:Hex; [|discriminate].
    destruct (mapM _ (range b e ++ [e])) as [ms|] eqn:Hms; [|discriminate].
    intros H. injection H as <-. exists b, e. split; [reflexivity|].
    assert (Hlt : b < e).
    { destruct (Z.ltb_spec b e) as [Hlt|Hge]; [exact Hlt|].
      unfold range in Hex. replace (Z.to_nat (e - b)) with 0%nat in Hex by lia.
      discriminate. }
    split; [exact Hlt|].
    destruct (py_int (fst (frame_range action))) as [pb|]; [|discriminate].
    destruct (py_int (snd (frame_range action))) as [pe|]; [|discriminate].
    simpl in Hc. injection Hc as -> ->.
    split; [lia|]. split; [lia|].
    apply length_mapM in Hms. cbn [times values]. unfold track_times.
    assert (Hvals : length (flat_map write_matrix ms) = (16 * length ms)%nat).
    { clear. induction ms as [|m ms IH]; [reflexivity|].
      cbn [flat_map]. rewrite length_app, IH. simpl. lia. }
    rewrite Hvals, <- Hms, !length_app, length_map, range_length.
    simpl. split; lia.
Qed.

End SampleMoreFacts.

Section AnimationMoreFacts.
Import Anim.

Lemma tangents_nonzero_loop_existsb (keys : list Keyframe) :
  tangents_nonzero_loop keys = existsb tangent_nonzero keys.
Proof.
  induction keys as [|k keys IH]; [reflexivity|]. simpl.
  destruct (tangent_nonzero k); [reflexivity|exact IH].
Qed.

(** X18. The presence test of a Bezier curve: the curve counts as animated
    exactly when some key's value differs from the first key's by more than
    the epsilon, or some key, the first included, has a handle whose value
    is more than the epsilon away from the key's; for every other kind the
    handles are not looked at. *)
Theorem animation_present_rule (fcurve : FCurve) (kind : Z) :
  (kind <> AnimationTypeBezier ->
   (animation_present fcurve kind = true <-> key_differs_from_first fcurve))
  /\ (kind = AnimationTypeBezier ->
      (animation_present fcurve kind = true
       <-> key_differs_from_first fcurve
           \/ exists k : Keyframe,
                k ∈ keyframe_points fcurve
                /\ (exceeds_epsilon (snd (co k)) (snd (handle_left k)) = true
                    \/ exceeds_epsilon (snd (handle_right k)) (snd (co k)) = true))).
Proof.
  assert (Ht : animation_tangents_nonzero fcurve = true
               <-> exists k : Keyframe,
                     k ∈ keyframe_points fcurve
                     /\ (exceeds_epsilon (snd (co k)) (snd (handle_left k)) = true
                         \/ exceeds_epsilon (snd (handle_right k)) (snd (co k)) = true)).
  { assert (He : animation_tangents_nonzero fcurve
                 = existsb tangent_nonzero (keyframe_points fcurve)).
    { unfold animation_tangents_nonzero.
      destruct (keyframe_points fcurve) as [|k0 rest]; [reflexivity|].
      simpl. rewrite tangents_nonzero_loop_existsb.
      destruct (tangent_nonzero k0); reflexivity. }
    rewrite He, existsb_exists. unfold tangent_nonzero.
    split; intros (k & Hin & Hk); exists k.
    - apply list_elem_of_In in Hin. apply orb_true_iff in Hk. auto.
    - apply list_elem_of_In in Hin. rewrite orb_true_iff. auto. }
  unfold animation_present. split; intros Hk.
  - destruct (Z.eqb_spec kind AnimationTypeBezier) as [Heq|_]; [contradiction|].
    simpl. apply animation_keys_different_true.
  - subst kind. simpl. rewrite orb_true_iff, animation_keys_different_true, Ht.
    reflexivity.
Qed.

End AnimationMoreFacts.

Section KeysFacts.
Import Anim Keys.
#[local] Open Scope nat_scope.

(** X19. A keyframe track has one entry per keyframe in each of its arrays;
    a track that is not Bezier carries no control arrays; in a Bezier track
    [times_control_plus] holds the left handles' times and
    [times_control_minus] the right handles'; and the value of a key's left
    handle never reaches the track: the two value control arrays both hold
    the right handles' values. *)
Theorem animation_track_arrays (self : Sample.Exporter) (fcurve : FCurve)
    (kind : Z) (target : string) :
  let track := export_animation_track self fcurve kind target in
  let n := length (keyframe_points fcurve) in
  length (times track) = n /\ length (values track) = n
  /\ (kind <> AnimationTypeBezier ->
      curve track = None
      /\ times_control_plus track = None /\ times_control_minus track = None
      /\ values_control_plus track = None /\ values_control_minus track = None)
  /\ (kind = AnimationTypeBezier ->
      curve track = Some "bezier"%string
      /\ (exists tp tm vp vm,
             times_control_plus track = Some tp
             /\ times_control_minus track = Some tm
             /\ values_control_plus track = Some vp
             /\ values_control_minus track = Some vm
             /\ length tp = n /\ length tm = n /\ length vp = n /\ length vm = n
             /\ tp = map (fun key => frame_time self (fst (handle_left key)))
                         (keyframe_points fcurve)
             /\ tm = map (fun key => frame_time self (fst (handle_right key)))
                         (keyframe_points fcurve)
             /\ vm = vp
             /\ vp = map (fun key => snd (handle_right key)) (keyframe_points fcurve)))
  /\ (forall fcurve' : FCurve,
         Forall2 same_but_left_value (keyframe_points fcurve) (keyframe_points fcurve') ->
         export_animation_track self fcurve' kind target = track).
Proof.
  intros track n. unfold track, export_animation_track.
  split; [|split; [|split; [|split]]].
  - destruct (negb _); simpl; apply length_map.
  - destruct (negb _); simpl; apply length_map.
  - intros Hk. destruct (Z.eqb_spec kind AnimationTypeBezier) as [Heq|_];
      [contradiction|]. simpl. auto.
  - intros ->. simpl. split; [reflexivity|].
    do 4 eexists. repeat (split; [reflexivity|]).
    unfold n. rewrite !length_map. repeat split; reflexivity.
  - intros fcurve' H2.
    assert (Ht : export_key_times self fcurve' = export_key_times self fcurve).
    { unfold export_key_times. induction H2 as [|k k' l l' (Hc & _) _ IH];
        [reflexivity|]. simpl. rewrite IH, Hc. reflexivity. }
    assert (Hv : export_key_values fcurve' = export_key_values fcurve).
    { unfold export_key_values. induction H2 as [|k k' l l' (Hc & _) _ IH];
        [reflexivity|]. simpl. rewrite IH, Hc. reflexivity. }
    assert (Htc : export_key_time_control_points self fcurve'
                  = export_key_time_control_points self fcurve).
    { unfold export_key_time_control_points. f_equal.
      - induction H2 as [|k k' l l' (_ & _ & Hl) _ IH]; [reflexivity|].
        simpl. rewrite IH, Hl. reflexivity.
      - induction H2 as [|k k' l l' (_ & Hr & _) _ IH]; [reflexivity|].
        simpl. rewrite IH, Hr. reflexivity. }
    assert (Hvc : export_key_value_control_points fcurve'
                  = export_key_value_control_points fcurve).
    { unfold export_key_value_control_points. f_equal;
        (induction H2 as [|k k' l l' (_ & Hr & _) _ IH]; [reflexivity|];
         simpl; rewrite IH, Hr; reflexivity). }
    rewrite Ht, Hv, Htc, Hvc. reflexivity.
Qed.

End KeysFacts.

(** ** Scene nodes, the mesh cache and polygon fans *)

Section NodeFacts.
Import Nodes.
#[local] Open Scope nat_scope.

(** X20. The kind of a scene object: a mesh kind exactly for a [MESH] with
    at least one polygon, a [FONT] or a [META]; a [MESH] without polygons
    is a plain node; and the answer is never the bone or the decal kind. *)
Theorem get_bobject_type_kinds (bobject : TypedObject) :
  (get_bobject_type bobject = NodeTypeMesh
   <-> (type bobject = "MESH"%string /\ polygons bobject <> 0)
       \/ type bobject = "FONT"%string \/ type bobject = "META"%string)
  /\ (type bobject = "MESH"%string -> polygons bobject = 0 ->
      get_bobject_type bobject = NodeTypeNode)
  /\ get_bobject_type bobject <> NodeTypeBone
  /\ get_bobject_type bobject <> NodeTypeDecal.
Proof.
  unfold get_bobject_type.
  destruct (String.eqb_spec (type bobject) "MESH") as [Hm|Hm].
  - rewrite Hm. destruct (Nat.eqb_spec (polygons bobject) 0) as [Hp|Hp]; simpl.
    + repeat split; try discriminate; try reflexivity.
      intros [[_ H]|[H|H]]; [contradiction|discriminate|discriminate].
    + repeat split; try discriminate; auto. intros _ H. contradiction.
  - destruct (String.eqb_spec (type bobject) "FONT") as [Hf|Hf];
      [repeat split; try discriminate; auto; intros H; contradiction|].
    destruct (String.eqb_spec (type bobject) "META") as [Ht|Ht];
      [repeat split; try discriminate; auto; intros H; contradiction|].
    assert (Hno : ~ ((type bobject = "MESH"%string /\ polygons bobject <> 0)
                     \/ type bobject = "FONT"%string \/ type bobject = "META"%string))
      by (intros [[H _]|[H|H]]; contradiction).
    destruct (String.eqb (type bobject) "LAMP");
      [repeat split; try discriminate; try contradiction; intros H; contradiction|].
    destruct (String.eqb (type bobject) "CAMERA");
      [repeat split; try discriminate; try contradiction; intros H; contradiction|].
    destruct (String.eqb (type bobject) "SPEAKER");
      repeat split; try discriminate; try contradiction; intros H; contradiction.
Qed.

Lemma find_node_spec (bobjectArray : list (string * NodeRef)) (name : string) :
  match find_node bobjectArray name with
  | Some r =>
      exists i, bobjectArray !! i = Some r /\ r.1 = name
                /\ forall j q, j < i -> bobjectArray !! j = Some q -> q.1 <> name
  | None => forall q, q ∈ bobjectArray -> q.1 <> name
  end.
Proof.
  induction bobjectArray as [|r rest IH]; simpl.
  - intros q Hq. inversion Hq.
  - destruct (String.eqb_spec r.1 name) as [Heq|Hne].
    + exists 0. split; [reflexivity|]. split; [exact Heq|]. intros j q Hj. lia.
    + destruct (find_node rest name) as [r'|].
      * destruct IH as (i & Hi & Hn & Hfirst). exists (S i).
        split; [exact Hi|]. split; [exact Hn|].
        intros [|j] q Hj Hq; simpl in Hq.
        -- injection Hq as <-. exact Hne.
        -- eapply Hfirst; [|exact Hq]. lia.
      * intros q Hq. apply elem_of_cons in Hq as [->|Hq]; [exact Hne|].
        apply IH. exact Hq.
Qed.

(** X21. The bone reference array has one entry per bone, in bone order:
    the struct name recorded for the first scene object that carries the
    bone's name, or the string [null] when no object does. *)
Theorem bone_ref_array_entries (bobjectArray : list (string * NodeRef))
    (bone_names : list string) :
  length (bone_ref_array bobjectArray bone_names) = length bone_names
  /\ forall (k : nat) (name : string),
       bone_names !! k = Some name ->
       (exists (i : nat) (r : string * NodeRef),
           bobjectArray !! i = Some r /\ r.1 = name
           /\ (forall j q, j < i -> bobjectArray !! j = Some q -> q.1 <> name)
           /\ bone_ref_array bobjectArray bone_names !! k = Some (structName r.2))
       \/ ((forall q, q ∈ bobjectArray -> q.1 <> name)
           /\ bone_ref_array bobjectArray bone_names !! k = Some "null"%string).
Proof.
  unfold bone_ref_array. split; [apply length_map|].
  intros k name Hk. rewrite list_lookup_fmap, Hk. simpl.
  pose proof (find_node_spec bobjectArray name) as Hf.
  destruct (find_node bobjectArray name) as [r|].
  - left. destruct Hf as (i & Hi & Hn & Hfirst). exists i, r. auto.
  - right. auto.
Qed.

(** X22. The mesh cache. Right after a mesh is written to its own file the
    object counts as cached; for an object with vertices it stays cached
    exactly as long as its vertex and edge counts are the ones recorded,
    while for a [FONT] or [META] object the counts are not looked at; and
    when meshes are not written one per file nothing is recorded. *)
Theorem mesh_cache_round_trip (bobject : MeshObject) :
  object_is_mesh_cached (write_mesh true bobject) = true
  /\ (forall nv ne : nat,
        mo_type bobject <> "FONT"%string -> mo_type bobject <> "META"%string ->
        object_is_mesh_cached (edit_mesh nv ne (write_mesh true bobject))
        = (nv =? n_vertices (data bobject)) && (ne =? n_edges (data bobject)))
  /\ (forall nv ne : nat,
        mo_type bobject = "FONT"%string \/ mo_type bobject = "META"%string ->
        object_is_mesh_cached (edit_mesh nv ne (write_mesh true bobject)) = true)
  /\ write_mesh false bobject = bobject.
Proof.
  unfold object_is_mesh_cached, write_mesh, edit_mesh. cbn [mo_type data
    mesh_cached mesh_cached_verts mesh_cached_edges n_vertices n_edges].
  destruct (String.eqb_spec (mo_type bobject) "FONT") as [Hf|Hf];
    destruct (String.eqb_spec (mo_type bobject) "META") as [Hm|Hm]; cbn [orb negb andb].
  all: repeat split; try reflexivity; try (intros; congruence).
  - rewrite !Nat.eqb_refl. reflexivity.
  - intros nv ne _ _.
    rewrite (Nat.eqb_sym (n_vertices (data bobject)) nv),
            (Nat.eqb_sym (n_edges (data bobject)) ne).
    destruct (nv =? n_vertices (data bobject)); simpl; [|reflexivity].
    destruct (ne =? n_edges (data bobject)); reflexivity.
  - intros nv ne [H|H]; contradiction.
Qed.

End NodeFacts.

Section PolygonFacts.
Import Serial.
#[local] Open Scope nat_scope.

Lemma collect_fan (indices : list nat) (z : nat) :
  indices !! (length indices - 1) = Some z ->
  forall n k : nat,
    k + n < length indices ->
    exists tris : list nat,
      collect (fun i =>
                 z ← indices !! (length indices - 1);
                 a ← indices !! i;
                 b ← indices !! (i + 1);
                 Some [z; a; b]) k n = Some tris
      /\ length tris = 3 * n
      /\ forall i, i < n ->
           tris !! (3 * i) = Some z
           /\ tris !! (3 * i + 1) = indices !! (k + i)
           /\ tris !! (3 * i + 2) = indices !! (k + i + 1).
Proof.
  intros Hz.
  set (item := fun i : nat =>
                 z ← indices !! (length indices - 1);
                 a ← indices !! i;
                 b ← indices !! (i + 1);
                 Some [z; a; b]).
  assert (Hitem : forall i a b, indices !! i = Some a -> indices !! (i + 1) = Some b ->
                                item i = Some [z; a; b]).
  { intros i a b Ha Hb. unfold item. rewrite Hz, Ha, Hb. reflexivity. }
  clearbody item.
  induction n as [|n IH]; intros k Hk.
  - exists []. split; [reflexivity|]. split; [reflexivity|]. intros i Hi. lia.
  - cbn [collect].
    destruct (lookup_lt_is_Some_2 indices k ltac:(lia)) as [a Ha].
    destruct (lookup_lt_is_Some_2 indices (k + 1) ltac:(lia)) as [b Hb].
    rewrite (Hitem k a b Ha Hb). cbn [mbind option_bind].
    destruct (IH (S k) ltac:(lia)) as (tris & Hc & Hl & Hi).
    rewrite Hc. cbn [mbind option_bind].
    exists ([z; a; b] ++ tris). split; [reflexivity|].
    split; [rewrite length_app, Hl; simpl; lia|].
    intros [|i] Hlt.
    + rewrite Nat.add_0_r. simpl. rewrite Ha, Hb. auto.
    + replace (3 * S i) with (3 + 3 * i) by lia.
      replace (3 + 3 * i + 1) with (3 + (3 * i + 1)) by lia.
      replace (3 + 3 * i + 2) with (3 + (3 * i + 2)) by lia.
      change ([z; a; b] ++ tris) with (z :: a :: b :: tris).
      cbn [lookup list_lookup Nat.add].
      destruct (Hi i ltac:(lia)) as (H1 & H2 & H3).
      replace (k + S i) with (S k + i) by lia.
      replace (S k + i + 1) with (S k + i + 1) by lia.
      auto.
Qed.

(** X23. The triangles of one polygon on the fast path. A polygon of [n]
    corners always yields [n - 2] triangles ([0] below three corners), with
    no index outside the polygon's own; a triangle is written as it is, and
    a larger polygon becomes a fan around its last corner: triangle [i] is
    (last, corner [i], corner [i + 1]). *)
Theorem polygon_triangles_fan (indices : list nat) :
  exists tris : list nat,
    polygon_triangles indices = Some tris
    /\ length tris = 3 * (length indices - 2)
    /\ (forall v, v ∈ tris -> v ∈ indices)
    /\ (length indices = 3 -> tris = indices)
    /\ (3 < length indices ->
        forall i, i < length indices - 2 ->
          tris !! (3 * i) = indices !! (length indices - 1)
          /\ tris !! (3 * i + 1) = indices !! i
          /\ tris !! (3 * i + 2) = indices !! (i + 1)).
Proof.
  unfold polygon_triangles.
  destruct (Nat.eqb_spec (length indices) 3) as [H3|H3].
  - exists indices. split; [reflexivity|]. split; [lia|]. split; [auto|].
    split; [reflexivity|]. lia.
  - destruct (Nat.ltb_spec 3 (length indices)) as [Hgt|Hle].
    + destruct (lookup_lt_is_Some_2 indices (length indices - 1) ltac:(lia))
        as [z Hz].
      destruct (collect_fan indices z Hz (length indices - 2) 0 ltac:(lia))
        as (tris & Hc & Hl & Hi).
      exists tris. split; [exact Hc|]. split; [exact Hl|]. split; [|split].
      * intros v Hv. apply list_elem_of_lookup in Hv as [p Hp].
        assert (Hpl : p < 3 * (length indices - 2))
          by (rewrite <- Hl; eapply lookup_lt_Some; exact Hp).
        destruct (Hi (p / 3)) as (H0 & H1 & H2).
        { apply Nat.Div0.div_lt_upper_bound. lia. }
        pose proof (Nat.div_mod_eq p 3) as Hdm.
        pose proof (Nat.mod_upper_bound p 3 ltac:(lia)) as Hm.
        set (q := p / 3) in *. set (r := p mod 3) in *.
        assert (Hr : r = 0 \/ r = 1 \/ r = 2) by lia.
        destruct Hr as [Hr|[Hr|Hr]]; rewrite Hr in Hdm.
        -- rewrite Nat.add_0_r in Hdm. rewrite <- Hdm, Hp in H0.
           injection H0 as ->. eapply list_elem_of_lookup_2. exact Hz.
        -- rewrite <- Hdm, Hp in H1. eapply list_elem_of_lookup_2.
           symmetry. exact H1.
        -- rewrite <- Hdm, Hp in H2. eapply list_elem_of_lookup_2.
           symmetry. exact H2.
      * intros H. lia.
      * intros _ i Hlt. destruct (Hi i Hlt) as (H0 & H1 & H2).
        rewrite H0, H1, H2, Hz. auto.
    + exists []. split; [reflexivity|]. split; [simpl; lia|].
      split; [intros v Hv; inversion Hv|]. split; [lia|]. lia.
Qed.

End PolygonFacts.

(** ** The vertex arrays of the fast path *)

Section FastLayoutFacts.
Import Fast.
#[local] Open Scope nat_scope.

Lemma store_middle (pre post : list float) (y x : float) (i : nat) :
  length pre = i ->
  store (pre ++ y :: post) i x = Some (pre ++ x :: post).
Proof.
  intros <-. unfold store. rewrite length_app. simpl.
  destruct (Nat.ltb_spec (length pre) (length pre + S (length post))); [|lia].
  rewrite insert_app_r_alt by lia. rewrite Nat.sub_diag. reflexivity.
Qed.

Lemma vec3_values_length (v : Weld.Vec3) : length (vec3_values v) = 3.
Proof. destruct v as [[x y] z]. reflexivity. Qed.

Lemma store3_block (pre post : list float) (a b c : float) (v : Weld.Vec3) (i : nat) :
  length pre = i * 3 ->
  store3 (pre ++ a :: b :: c :: post) i v = Some (pre ++ vec3_values v ++ post).
Proof.
  intros Hl. destruct v as [[x y] z]. unfold store3, vec3_values.
  rewrite (store_middle pre _ a x) by exact Hl. cbn [mbind option_bind].
  change (pre ++ x :: b :: c :: post) with (pre ++ [x] ++ b :: c :: post).
  rewrite app_assoc.
  rewrite (store_middle (pre ++ [x]) _ b y) by (rewrite length_app; simpl; lia).
  cbn [mbind option_bind].
  change ((pre ++ [x]) ++ y :: c :: post) with ((pre ++ [x]) ++ [y] ++ c :: post).
  rewrite app_assoc.
  rewrite (store_middle ((pre ++ [x]) ++ [y]) _ c z)
    by (rewrite !length_app; simpl; lia).
  rewrite <- !app_assoc. reflexivity.
Qed.

Lemma store_uv_block (pre post : list float) (a b : float) (uv : Weld.UV) (i : nat) :
  length pre = i * 2 ->
  store_uv (pre ++ a :: b :: post) i uv
  = Some (pre ++ [fst uv; PrimFloat.sub 1%float (snd uv)] ++ post).
Proof.
  intros Hl. unfold store_uv.
  rewrite (store_middle pre _ a (fst uv)) by exact Hl. cbn [mbind option_bind].
  change (pre ++ fst uv :: b :: post) with (pre ++ [fst uv] ++ b :: post).
  rewrite app_assoc.
  rewrite (store_middle (pre ++ [fst uv]) _ b _) by (rewrite length_app; simpl; lia).
  rewrite <- !app_assoc. reflexivity.
Qed.

(** The loop started at vertex number [i] on arrays whose first [i]
    blocks are filled and whose remaining blocks are still zero. *)
Lemma fill_loop_layout (has_tex has_tex1 has_col : bool) (todo : list Vertex) :
  (has_tex1 = true -> has_tex = true) ->
  Forall (fun v => (has_tex = true -> is_Some (uvs v !! 0))
                   /\ (has_tex1 = true -> is_Some (uvs v !! 1))) todo ->
  forall (i : nat) (pv pn pt0 pt1 pc : list float),
    length pv = i * 3 -> length pn = i * 3 ->
    length pt0 = i * 2 -> length pt1 = i * 2 -> length pc = i * 3 ->
    fill_loop has_tex has_tex1 has_col i todo
      {| vdata := pv ++ replicate (length todo * 3) 0%float;
         ndata := pn ++ replicate (length todo * 3) 0%float;
         t0data := if has_tex then pt0 ++ replicate (length todo * 2) 0%float else [];
         t1data := if has_tex1 then pt1 ++ replicate (length todo * 2) 0%float else [];
         cdata := if has_col then pc ++ replicate (length todo * 3) 0%float else [] |}
    = Some
        {| vdata := pv ++ flat_map (fun v => vec3_values (co v)) todo;
           ndata := pn ++ flat_map (fun v => vec3_values (normal v)) todo;
           t0data := if has_tex then pt0 ++ flat_map (uv_values 0) todo else [];
           t1data := if has_tex1 then pt1 ++ flat_map (uv_values 1) todo else [];
           cdata := if has_col then pc ++ flat_map (fun v => vec3_values (col v)) todo
                    else [] |}.
Proof.
  intros Himp Hall.
  destruct has_tex, has_tex1, has_col;
    try (specialize (Himp eq_refl); discriminate).
  all: induction Hall as [|vtx todo [Hu0 Hu1] Hall IH];
    intros i pv pn pt0 pt1 pc Hpv Hpn Hpt0 Hpt1 Hpc;
    [simpl; rewrite ?app_nil_r; reflexivity|].
  all: cbn [fill_loop length flat_map]; unfold fill_vertex;
    cbn [vdata ndata t0data t1data cdata];
    change (S (length todo) * 3) with (3 + length todo * 3);
    change (S (length todo) * 2) with (2 + length todo * 2);
    cbn [replicate Nat.add];
    rewrite (store3_block pv) by exact Hpv;
    rewrite (store3_block pn) by exact Hpn; cbn [mbind option_bind].
  all: try (destruct (Hu0 eq_refl) as [uv0 Huv0];
            assert (Hv0 : uv_values 0 vtx
                          = [fst uv0; PrimFloat.sub 1%float (snd uv0)])
              by (unfold uv_values; rewrite Huv0; reflexivity);
            rewrite Huv0, Hv0; cbn [mbind option_bind];
            rewrite (store_uv_block pt0) by exact Hpt0; cbn [mbind option_bind]).
  all: try (destruct (Hu1 eq_refl) as [uv1 Huv1];
            assert (Hv1 : uv_values 1 vtx
                          = [fst uv1; PrimFloat.sub 1%float (snd uv1)])
              by (unfold uv_values; rewrite Huv1; reflexivity);
            rewrite Huv1, Hv1; cbn [mbind option_bind];
            rewrite (store_uv_block pt1) by exact Hpt1; cbn [mbind option_bind]).
  all: try (rewrite (store3_block pc) by exact Hpc); cbn [mbind option_bind fst snd].
  all: rewrite ?app_assoc.
  all: (eapply eq_trans;
        [eapply (IH (S i));
         lazymatch goal with
         | |- length ?l = _ =>
             tryif is_evar l then exact (length_replicate _ 0%float)
             else (rewrite length_app, ?vec3_values_length; simpl; lia)
         end|]).
  all: rewrite <- ?app_assoc; reflexivity.
Qed.

(** X24. The vertex arrays of the fast path. With one UV per layer on
    every vertex, the array loop never writes out of range, and each array
    it fills is the concatenation, in vertex order, of the vertices'
    values: three floats for a position, a normal or a colour, two for a
    UV, the second being [1.0 - v]. Arrays whose flag is off stay empty. *)
Theorem export_mesh_fast_arrays_layout (export_uvs export_vcols : bool)
    (num_uv_layers num_colors : nat) (vert_list : list Vertex) :
  Forall (fun v => length (uvs v) = num_uv_layers) vert_list ->
  let has_tex := export_uvs && (0 <? num_uv_layers) in
  let has_tex1 := has_tex && (1 <? num_uv_layers) in
  let has_col := export_vcols && (0 <? num_colors) in
  export_mesh_fast_arrays export_uvs export_vcols num_uv_layers num_colors vert_list
  = Some {| vdata := flat_map (fun v => vec3_values (co v)) vert_list;
            ndata := flat_map (fun v => vec3_values (normal v)) vert_list;
            t0data := if has_tex then flat_map (uv_values 0) vert_list else [];
            t1data := if has_tex1 then flat_map (uv_values 1) vert_list else [];
            cdata := if has_col
                     then flat_map (fun v => vec3_values (col v)) vert_list
                     else [] |}.
Proof.
  intros Hall has_tex has_tex1 has_col. unfold export_mesh_fast_arrays.
  fold has_tex. fold has_tex1. fold has_col.
  apply (fill_loop_layout has_tex has_tex1 has_col vert_list) with
    (i := 0) (pv := []) (pn := []) (pt0 := []) (pt1 := []) (pc := []);
    try reflexivity.
  - unfold has_tex1. intros H. apply andb_true_iff in H as [H _]. exact H.
  - eapply Forall_impl; [exact Hall|]. intros v Hv. simpl in Hv. split.
    + unfold has_tex. intros H. apply andb_true_iff in H as [_ H].
      apply Nat.ltb_lt in H. apply lookup_lt_is_Some_2. lia.
    + unfold has_tex1. intros H. apply andb_true_iff in H as [_ H].
      apply Nat.ltb_lt in H. apply lookup_lt_is_Some_2. lia.
Qed.

End FastLayoutFacts.

(** ** Worked instances *)

Lemma index_arrays_by_material_witness :
  (3 * length [0; 1; 0] <= length [0; 1; 2; 2; 1; 3; 3; 2; 0])%nat
  /\ Serial.index_arrays [0; 1; 0]%nat [0; 1; 2; 2; 1; 3; 3; 2; 0]%nat
     = Some (map (fun m => {| Serial.ia_size := 3;
                              Serial.ia_values :=
                                Serial.triangles_of_material [0; 1; 0]%nat 0 m
                                  [0; 1; 2; 2; 1; 3; 3; 2; 0]%nat;
                              Serial.ia_material := m |})
               (filter (fun m => Serial.max_material_index [0; 1; 0]%nat = 0%nat
                                 \/ m ∈ [0; 1; 0]%nat)
                  (seq 0 (Serial.max_material_index [0; 1; 0]%nat + 1)))).
Proof.
  split; [simpl; lia|].
  apply (index_arrays_by_material [0; 1; 0]%nat [0; 1; 2; 2; 1; 3; 3; 2; 0]%nat).
  simpl; lia.
Defined.

Lemma index_arrays_cover_witness :
  (3 * length [0; 1; 0] <= length [0; 1; 2; 2; 1; 3; 3; 2; 0])%nat
  /\ exists (arrays : list Serial.IndexArray) (groups : list (list nat)),
       Serial.index_arrays [0; 1; 0]%nat [0; 1; 2; 2; 1; 3; 3; 2; 0]%nat
       = Some arrays
       /\ concat groups ≡ₚ seq 0 (length [0; 1; 0]%nat)
       /\ Forall2 (fun a g =>
                     Serial.ia_size a = 3%nat
                     /\ Serial.ia_values a
                        = flat_map (fun k => take 3 (drop (3 * k)
                                      [0; 1; 2; 2; 1; 3; 3; 2; 0]%nat)) g
                     /\ Forall (fun k => [0; 1; 0]%nat !! k
                                         = Some (Serial.ia_material a)) g)
            arrays groups.
Proof.
  split; [simpl; lia|].
  apply (index_arrays_cover [0; 1; 0]%nat [0; 1; 2; 2; 1; 3; 3; 2; 0]%nat).
  simpl; lia.
Defined.

Lemma deindex_mesh_material_table_witness :
  exists (eva : list Weld.ExportVertex) (mt' : list nat),
    Weld.deindex_mesh Weld.flat_hash Weld.unit_quad [] = Some (eva, mt')
    /\ mt' = [] ++ flat_map Weld.face_materials (Weld.tessfaces Weld.unit_quad)
    /\ length eva
       = (3 * length (flat_map Weld.face_materials (Weld.tessfaces Weld.unit_quad)))%nat.
Proof.
  destruct (Weld.deindex_mesh Weld.flat_hash Weld.unit_quad [])
    as [[eva mt']|] eqn:Hd; [|vm_compute in Hd; discriminate].
  exists eva, mt'. split; [reflexivity|].
  exact (deindex_mesh_material_table Weld.flat_hash Weld.unit_quad [] eva mt' Hd).
Defined.

Lemma deindex_mesh_corners_witness :
  exists (eva : list Weld.ExportVertex) (mt' : list nat),
    Weld.deindex_mesh Weld.flat_hash Weld.unit_quad [] = Some (eva, mt')
    /\ Forall (Weld.is_corner (Weld.vertices Weld.unit_quad)
                 (Weld.tessfaces Weld.unit_quad)) eva.
Proof.
  destruct (Weld.deindex_mesh Weld.flat_hash Weld.unit_quad [])
    as [[eva mt']|] eqn:Hd; [|vm_compute in Hd; discriminate].
  exists eva, mt'. split; [reflexivity|].
  exact (deindex_mesh_corners Weld.flat_hash Weld.unit_quad [] eva mt' Hd).
Defined.

Lemma quality_path_indices_valid_witness :
  exists (eva : list Weld.ExportVertex) (mt : list nat)
         (unifiedVA : list Weld.ExportVertex) (indexTable : list nat)
         (arrays : list Serial.IndexArray),
    Weld.deindex_mesh Weld.flat_hash Weld.unit_quad [] = Some (eva, mt)
    /\ Weld.unify_vertices Weld.vec3_ne Weld.vec3_ne eva []
       = Some (unifiedVA, indexTable)
    /\ Serial.index_arrays mt indexTable = Some arrays
    /\ Forall (fun a => Forall (fun v => (v < length unifiedVA)%nat)
                          (Serial.ia_values a)) arrays
    /\ sum_list_with (fun a => length (Serial.ia_values a)) arrays = length eva.
Proof.
  destruct (Weld.deindex_mesh Weld.flat_hash Weld.unit_quad [])
    as [[eva mt]|] eqn:Hd; [|vm_compute in Hd; discriminate].
  destruct (quality_path_indices_valid Weld.flat_hash Weld.vec3_ne Weld.vec3_ne
              Weld.unit_quad eva mt Hd) as (u & t & arrays & H).
  exists eva, mt, u, t, arrays. split; [reflexivity|exact H].
Defined.

Lemma export_skin_quality_arrays_witness :
  Forall2 (fun vi mv => Skin.two_weighted !! vi = Some mv) [0; 1]%nat
    Skin.two_weighted
  /\ Forall (fun mv => Forall (fun e => (Skin.group e < length Skin.five_names)%nat)
                         (Skin.groups mv)) Skin.two_weighted
  /\ exists (p : Skin.Packed) (blocks : list (list Z)),
       Skin.export_skin_quality Skin.five_names Skin.five_names Skin.two_weighted
         [0; 1]%nat
       = Some p
       /\ Skin.bone_index_array p = concat blocks
       /\ Forall2 (fun mv block =>
                     block
                     ≡ₚ map snd
                          (take 4 (Skin.contributions
                                     (Skin.build_group_remap Skin.five_names
                                        Skin.five_names) mv)))
            Skin.two_weighted blocks
       /\ Skin.bone_count_array p = map length blocks.
Proof.
  assert (H2 : Forall2 (fun vi mv => Skin.two_weighted !! vi = Some mv) [0; 1]%nat
                 Skin.two_weighted)
    by (repeat constructor).
  assert (Hg : Forall (fun mv => Forall (fun e => (Skin.group e < length Skin.five_names)%nat)
                                   (Skin.groups mv)) Skin.two_weighted)
    by (repeat (constructor; simpl; try lia)).
  split; [exact H2|]. split; [exact Hg|].
  destruct (export_skin_quality_arrays Skin.five_names Skin.five_names
              Skin.two_weighted [0; 1]%nat Skin.two_weighted H2 Hg)
    as (p & blocks & Hp & Hi & Hb & Hc & _).
  exists p, blocks. split; [exact Hp|]. split; [exact Hi|]. split; [exact Hb|exact Hc].
Defined.

Lemma export_mesh_fast_arrays_layout_witness :
  Forall (fun v => length (Fast.uvs v) = 2%nat) Fast.two_vertices
  /\ Fast.export_mesh_fast_arrays true false 2 0 Fast.two_vertices
     = Some {| Fast.vdata := flat_map (fun v => Fast.vec3_values (Fast.co v))
                               Fast.two_vertices;
               Fast.ndata := flat_map (fun v => Fast.vec3_values (Fast.normal v))
                               Fast.two_vertices;
               Fast.t0data := flat_map (Fast.uv_values 0) Fast.two_vertices;
               Fast.t1data := flat_map (Fast.uv_values 1) Fast.two_vertices;
               Fast.cdata := [] |}.
Proof.
  assert (H : Forall (fun v => length (Fast.uvs v) = 2%nat) Fast.two_vertices)
    by (repeat constructor).
  split; [exact H|].
  exact (export_mesh_fast_arrays_layout true false 2 0 Fast.two_vertices H).
Defined.
